(** * Round-robin pairing engine ([models/pairing.py])

    A shallow embedding of the class [Pairing] and the verification of the
    properties stated about it.  Python values are modelled as follows:

    - a player identifier ([str]) is a [string], the list of its
      characters, of code below 256;
    - a match ([Tuple[str, str]]) is a pair [string * string];
    - a configuration ([Set[Tuple[str, str]]]) is a [gset (string * string)],
      so that Python's [==] on sets is Leibniz equality;
    - a list or tuple of players is a [list string];
    - a ranking ([Dict[str, List[str]]]) is an association list in insertion
      order, because [sorted] is stable and the order of [keys()] matters;
    - a raised exception is the [Raise] constructor of [result]; methods that
      mutate [self] live in a state monad in which the state survives a
      raise, as the object does in Python. *)

From Stdlib Require Import ZArith Lia Ascii String.
From stdpp Require Import gmap strings list sorting pretty.

Open Scope string_scope.
Open Scope list_scope.
Open Scope nat_scope.

(** ** Exceptions and results *)

Inductive exn : Type :=
| IndexError
| ValueError
| KeyError
| AttributeError.

Inductive result (A : Type) : Type :=
| Return (a : A)
| Raise (e : exn).

Arguments Return {A} a.
Arguments Raise {A} e.

Global Instance result_ret : MRet result := @Return.
Global Instance result_bind : MBind result :=
  λ A B f r, match r with Return a => f a | Raise e => Raise e end.

Definition is_Return {A} (r : result A) : Prop := ∃ a, r = Return a.
Definition is_Raise {A} (r : result A) : Prop := ∃ e, r = Raise e.

(** ** Python primitives used by the class *)

Module Py.

(** [l[i]] for a possibly negative index [i]. *)
Definition index {A} (l : list A) (i : Z) : result A :=
  let n := Z.of_nat (length l) in
  let j := if (i <? 0)%Z then (n + i)%Z else i in
  if (j <? 0)%Z then Raise IndexError
  else match l !! Z.to_nat j with
       | Some x => Return x
       | None => Raise IndexError
       end.

(** [l[1:-1]]. *)
Definition slice_1_m1 {A} (l : list A) : list A :=
  drop 1 (take (length l - 1) l).

(** [s.split(sep)] for a one-character separator. *)
Fixpoint split (sep : ascii) (s : string) : list string :=
  match s with
  | EmptyString => [EmptyString]
  | String c s' =>
      if decide (c = sep) then EmptyString :: split sep s'
      else match split sep s' with
           | h :: t => String c h :: t
           | [] => [String c EmptyString]
           end
  end.

(** Whitespace stripped by [int], among the characters of code below 256:
    HT, LF, VT, FF, CR and the space, and NEL (133) and NBSP (160), which
    [int] reads as spaces.  FS, GS, RS and US are not stripped. *)
Definition is_space (c : ascii) : bool :=
  let n := nat_of_ascii c in
  ((9 <=? n) && (n <=? 13)) || (n =? 32) || (n =? 133) || (n =? 160).

Definition digit_val (c : ascii) : option Z :=
  let n := nat_of_ascii c in
  if (48 <=? n) && (n <=? 57) then Some (Z.of_nat (n - 48)) else None.

(** A run of digits, single underscores being allowed between two
    digits. *)
Fixpoint digits (l : list ascii) (acc : Z) (after_digit : bool) : option Z :=
  match l with
  | [] => if after_digit then Some acc else None
  | c :: l' =>
      match digit_val c with
      | Some d => digits l' (10 * acc + d)%Z true
      | None =>
          if decide (c = "_"%char) then
            if after_digit then digits l' acc false else None
          else None
      end
  end.

Fixpoint lstrip (l : list ascii) : list ascii :=
  match l with
  | c :: l' => if is_space c then lstrip l' else l
  | [] => []
  end.

Definition strip (l : list ascii) : list ascii :=
  reverse (lstrip (reverse (lstrip l))).

(** [sys.get_int_max_str_digits()], as CPython sets it since version
    3.11: [int] refuses a string with more digits, leading zeros counted
    and underscores not. *)
Definition int_max_str_digits : nat := 4300.

Definition count_digits (l : list ascii) : nat :=
  length (filter (λ c, is_Some (digit_val c)) l).

Definition number (l : list ascii) : option Z :=
  if count_digits l <=? int_max_str_digits then digits l 0 false else None.

(** [int(s)] in base ten: surrounding whitespace, an optional sign, then
    the digits.  [None] stands for [ValueError]. *)
Definition int (s : string) : option Z :=
  match strip (list_ascii_of_string s) with
  | "+"%char :: l => number l
  | "-"%char :: l => Z.opp <$> number l
  | l => number l
  end.

(** [sorted(l, key=key)], the keys being computed beforehand on every
    element, from left to right; the sort is stable. *)
Fixpoint insert_by_key {A} (k : Z) (x : A) (l : list (Z * A)) : list (Z * A) :=
  match l with
  | [] => [(k, x)]
  | (k', y) :: l' =>
      if (k <=? k')%Z then (k, x) :: l else (k', y) :: insert_by_key k x l'
  end.

Fixpoint decorate {A} (key : A → result Z) (l : list A) : result (list (Z * A)) :=
  match l with
  | [] => Return []
  | x :: l' =>
      k ← key x;
      d ← decorate key l';
      Return ((k, x) :: d)
  end.

Definition sorted {A} (key : A → result Z) (l : list A) : result (list A) :=
  d ← decorate key l;
  Return ((foldr (λ kx acc, insert_by_key kx.1 kx.2 acc) [] d).*2).

(** [l.remove(x)]: the first element equal to [x] goes. *)
Fixpoint list_remove {A} `{EqDecision A} (x : A) (l : list A) : result (list A) :=
  match l with
  | [] => Raise ValueError
  | y :: l' =>
      if decide (y = x) then Return l'
      else l'' ← list_remove x l'; Return (y :: l'')
  end.

(** [l.pop()]: the last element and the list without it. *)
Definition list_pop {A} (l : list A) : result (A * list A) :=
  match last l with
  | Some x => Return (x, removelast l)
  | None => Raise IndexError
  end.

(** [d[k]] on a dictionary kept as an association list. *)
Fixpoint dict_get {V} (d : list (string * V)) (k : string) : result V :=
  match d with
  | [] => Raise KeyError
  | (k', v) :: d' => if decide (k' = k) then Return v else dict_get d' k
  end.

End Py.

(** ** The class [Pairing] *)

(** [initial_configuration] is [None] as long as the attribute is unset,
    which is the case after [__init__] with [new_pairing=False]. *)
Record Pairing : Type := mkPairing {
  list_of_players : list string;
  initial_configuration : option (list string);
  possibles_configurations : list (gset (string * string));
  played_matches : gset (string * string)
}.

(** Methods: the object goes in, the outcome and the object come out. *)
Definition M (A : Type) : Type := Pairing → result A * Pairing.

Definition ret {A} (a : A) : M A := λ s, (Return a, s).
Definition bind {A B} (m : M A) (f : A → M B) : M B :=
  λ s, match m s with
       | (Return a, s') => f a s'
       | (Raise e, s') => (Raise e, s')
       end.
Definition lift {A} (r : result A) : M A := λ s, (r, s).
Definition gets {A} (f : Pairing → A) : M A := λ s, (Return (f s), s).
Definition modify (f : Pairing → Pairing) : M unit := λ s, (Return tt, f s).

Declare Scope method_scope.
Delimit Scope method_scope with method.
Notation "x <- m ;; k" := (bind m (λ x, k))
  (at level 100, m at next level, right associativity) : method_scope.
Notation "m ;;; k" := (bind m (λ _, k))
  (at level 100, right associativity) : method_scope.

Definition set_possibles (l : list (gset (string * string))) (s : Pairing) : Pairing :=
  mkPairing (list_of_players s) (initial_configuration s) l (played_matches s).
Definition set_played (p : gset (string * string)) (s : Pairing) : Pairing :=
  mkPairing (list_of_players s) (initial_configuration s)
            (possibles_configurations s) p.
Definition set_initial (a : list string) (s : Pairing) : Pairing :=
  mkPairing (list_of_players s) (Some a) (possibles_configurations s)
            (played_matches s).

(** [get_player_number]: [int(player_id.split('_')[1])]. *)
Definition get_player_number (player_id : string) : result Z :=
  field ← Py.index (Py.split "_"%char player_id) 1;
  match Py.int field with
  | Some n => Return n
  | None => Raise ValueError
  end.

(** [tuple(sorted([a, b], key=get_player_number))]. *)
Definition sorted_pair (a b : string) : result (string * string) :=
  l ← Py.sorted get_player_number [a; b];
  match l with
  | [x; y] => Return (x, y)
  | _ => Raise ValueError
  end.

(** [rearrange_list]. *)
Definition rearrange_list (old_list : list string) : result (list string) :=
  first ← Py.index old_list 0;
  last ← Py.index old_list (-1);
  Return ([first; last] ++ Py.slice_1_m1 old_list).

(** [generate_pairing]: the loop over [range(int(len(l) / 2))], then the
    method itself. *)
Fixpoint generate_pairing_loop (list_configuration : list string)
    (range : list nat) (set_configuration : gset (string * string))
  : result (gset (string * string)) :=
  match range with
  | [] => Return set_configuration
  | i :: range' =>
      a ← Py.index list_configuration (Z.of_nat i);
      b ← Py.index list_configuration (- Z.of_nat i - 1);
      pair ← sorted_pair a b;
      generate_pairing_loop list_configuration range'
                            (set_configuration ∪ {[ pair ]})
  end.

Definition generate_pairing (list_configuration : list string)
  : result (gset (string * string)) :=
  generate_pairing_loop list_configuration
                        (seq 0 (length list_configuration / 2)) ∅.

(** [generate_circle_configurations]: [remaining] is the number of
    iterations left, [len(initial_configuration) - i]. *)
Fixpoint circle_loop (remaining : nat) (current_configuration : list string)
  : M unit :=
  match remaining with
  | 0 => ret tt
  | S remaining' =>
      (current' <- lift (rearrange_list current_configuration);;
       current_set <- lift (generate_pairing current');;
       modify (λ s, set_possibles (possibles_configurations s ++ [current_set]) s);;;
       circle_loop remaining' current')%method
  end.

Definition generate_circle_configurations : M unit :=
  (init <- gets initial_configuration;;
   match init with
   | None => lift (Raise AttributeError)
   | Some initial => circle_loop (length initial - 1) initial
   end)%method.

(** [__init__]; [shuffle] is what [random.shuffle] does to the copy of the
    roster.  The object exists only if no exception escapes. *)
Definition randomize_players (shuffle : list string → list string)
    (s : Pairing) : list string :=
  shuffle (list_of_players s).

Definition __init__ (shuffle : list string → list string)
    (players : list string) (new_pairing : bool) : result Pairing :=
  let self := mkPairing players None [] ∅ in
  if new_pairing then
    let self := set_initial (randomize_players shuffle self) self in
    match generate_circle_configurations self with
    | (Return _, self') => Return self'
    | (Raise e, _) => Raise e
    end
  else Return self.

(** [add_to_memory]: adding every match of the round is a union. *)
Definition add_to_memory (round_matches : gset (string * string)) : M unit :=
  modify (λ s, set_played (played_matches s ∪ round_matches) s).

(** [generate_first_round_configuration]. *)
Definition generate_first_round_configuration : M (gset (string * string)) :=
  (l <- gets possibles_configurations;;
   popped <- lift (Py.list_pop l);;
   modify (set_possibles popped.2);;;
   add_to_memory popped.1;;;
   ret popped.1)%method.

(** [generate_round_configuration_from_match]: the loop over the remaining
    configurations; falling off the loop returns [None]. *)
Fixpoint from_match_loop (mt : string * string)
    (todo : list (gset (string * string))) : M (option (gset (string * string))) :=
  match todo with
  | [] => ret None
  | configuration :: todo' =>
      if decide (mt ∈ configuration) then
        (l <- gets possibles_configurations;;
         l' <- lift (Py.list_remove configuration l);;
         modify (set_possibles l');;;
         add_to_memory configuration;;;
         ret (Some configuration))%method
      else from_match_loop mt todo'
  end.

Definition generate_round_configuration_from_match (mt : string * string)
  : M (option (gset (string * string))) :=
  (l <- gets possibles_configurations;; from_match_loop mt l)%method.

(** [try_to_generate_next_round]: the two nested loops.  A loop yields
    [Some r] when the method returned [r] from inside it and [None] when it
    ran to its end. *)
Fixpoint try_inner_loop (players : list string) (i : nat) (range : list nat)
  : M (option (option (gset (string * string)))) :=
  match range with
  | [] => ret None
  | j :: range' =>
      (a <- lift (Py.index players (Z.of_nat i));;
       b <- lift (Py.index players (Z.of_nat j));;
       match_test <- lift (sorted_pair a b);;
       played <- gets played_matches;;
       if decide (match_test ∉ played) then
         next_round <- generate_round_configuration_from_match match_test;;
         ret (Some next_round)
       else try_inner_loop players i range')%method
  end.

Fixpoint try_outer_loop (players : list string) (range : list nat)
  : M (option (option (gset (string * string)))) :=
  match range with
  | [] => ret None
  | i :: range' =>
      (r <- try_inner_loop players i (seq (i + 1) (length players - (i + 1)));;
       match r with
       | Some next_round => ret (Some next_round)
       | None => try_outer_loop players range'
       end)%method
  end.

Definition try_to_generate_next_round (players : list string)
  : M (option (gset (string * string))) :=
  (r <- try_outer_loop players (seq 0 (length players));;
   ret (default None r))%method.

(** [generate_next_round_from_ranking]: [keys] is [ranking_key[i:]]. *)
Definition truthy (r : option (gset (string * string))) : bool :=
  match r with
  | Some c => bool_decide (c ≠ ∅)
  | None => false
  end.

Definition int_key (k : string) : result Z :=
  match Py.int k with
  | Some n => Return n
  | None => Raise ValueError
  end.

Fixpoint ranking_loop (dict_ranking : list (string * list string))
    (keys : list string) (accumulated_list : list string)
    (res : option (gset (string * string)))
  : M (option (gset (string * string))) :=
  match keys with
  | [] => ret res
  | k :: keys' =>
      if truthy res then ret res
      else
        (players <- lift (Py.dict_get dict_ranking k);;
         let accumulated' := accumulated_list ++ players in
         r <- try_to_generate_next_round accumulated';;
         ranking_loop dict_ranking keys' accumulated' r)%method
  end.

Definition generate_next_round_from_ranking
    (dict_ranking : list (string * list string))
  : M (option (gset (string * string))) :=
  (ranking_key <- lift (Py.sorted int_key dict_ranking.*1);;
   ranking_loop dict_ranking ranking_key [] None)%method.

(** [instantiate_pairing]. *)
Definition instantiate_pairing (shuffle : list string → list string)
    (players : list string) (initial : list string)
    (list_played_matches : list (string * string)) : result Pairing :=
  instance ← __init__ shuffle players false;
  let instance := set_initial initial instance in
  match generate_circle_configurations instance with
  | (Raise e, _) => Raise e
  | (Return _, instance) =>
      let instance :=
        set_played (played_matches instance ∪ list_to_set list_played_matches)
                   instance in
      Return (set_possibles
                (filter (λ config, config ∩ played_matches instance = ∅)
                        (possibles_configurations instance))
                instance)
  end.

(** ** Pure counterparts *)

Definition has_number (p : string) : Prop := is_Return (get_player_number p).

Definition num (p : string) : Z :=
  match get_player_number p with
  | Return n => n
  | Raise _ => 0%Z
  end.

Definition canon (a b : string) : string * string :=
  if (num a <=? num b)%Z then (a, b) else (b, a).

Definition rotate (l : list string) : list string :=
  match l with
  | [] => []
  | x :: t =>
      match last t with
      | Some y => x :: y :: removelast t
      | None => [x; x]
      end
  end.

Definition pairs_of (l : list string) : list (string * string) :=
  (λ i, canon (l !!! i) (l !!! (length l - 1 - i))) <$> seq 0 (length l / 2).

Definition schedule (a : list string) : list (gset (string * string)) :=
  (λ k, list_to_set (pairs_of (Nat.iter k rotate a))) <$> seq 1 (length a - 1).


(** Seat occupied after [k] rotations by the player that started on seat
    [p], for a table of [M + 1] seats and [k ≤ M]. *)
Definition seat (M k p : nat) : nat :=
  if p =? 0 then 0
  else let t := p - 1 + k in 1 + (if t <? M then t else t - M).

(** Two players meet in a configuration when it holds their pair, in
    either order. *)
Definition meets (c : gset (string * string)) (x y : string) : Prop :=
  (x, y) ∈ c ∨ (y, x) ∈ c.

(** A configuration is a perfect matching of a roster when its matches are
    made of two different players of the roster, the one of lower number
    first, and every player of the roster is in exactly one of them. *)
Definition perfect_matching (roster : list string)
    (c : gset (string * string)) : Prop :=
  (∀ t, t ∈ c → t.1 ∈ roster ∧ t.2 ∈ roster ∧ t.1 ≠ t.2 ∧
                (num t.1 ≤ num t.2)%Z) ∧
  (∀ x, x ∈ roster →
        ∃ t, t ∈ c ∧ (x = t.1 ∨ x = t.2) ∧
             ∀ t', t' ∈ c → x = t'.1 ∨ x = t'.2 → t' = t).

(** ** Selections, seen from outside *)

(** The object after a configuration [c] has left the remaining schedule,
    now [rest], and has been recorded. *)
Definition after_selection (c : gset (string * string))
    (rest : list (gset (string * string))) (s : Pairing) : Pairing :=
  mkPairing (list_of_players s) (initial_configuration s) rest
            (played_matches s ∪ c).

(** First remaining configuration that holds a match, with the other
    configurations in their order. *)
Fixpoint select (mt : string * string) (l : list (gset (string * string)))
  : option (gset (string * string) * list (gset (string * string))) :=
  match l with
  | [] => None
  | c :: l' =>
      if decide (mt ∈ c) then Some (c, l')
      else match select mt l' with
           | Some (c', rest) => Some (c', c :: rest)
           | None => None
           end
  end.

(** The pairs [(l[i], l[j])], [i < j], in the order of the two loops of
    [try_to_generate_next_round]. *)
Fixpoint ordered_pairs (l : list string) : list (string * string) :=
  match l with
  | [] => []
  | x :: l' => (pair x <$> l') ++ ordered_pairs l'
  end.

(** The scan of [try_to_generate_next_round] over a list of pairs: the
    first canonical pair that is not in the memory, or the exception raised
    on the way. *)
Fixpoint first_unplayed (played : gset (string * string))
    (pairs : list (string * string)) : result (option (string * string)) :=
  match pairs with
  | [] => Return None
  | (a, b) :: rest =>
      mt ← sorted_pair a b;
      if decide (mt ∉ played) then Return (Some mt)
      else first_unplayed played rest
  end.

(** The selection calls a caller can make on one engine, and a sequence of
    them; a caller that catches an exception goes on with the same
    object. *)
Inductive call : Type :=
| FirstRound
| FromMatch (mt : string * string)
| FromRanking (dict_ranking : list (string * list string)).

Definition do_call (c : call) : M (option (gset (string * string))) :=
  match c with
  | FirstRound =>
      (matches <- generate_first_round_configuration;; ret (Some matches))%method
  | FromMatch mt => generate_round_configuration_from_match mt
  | FromRanking dict_ranking => generate_next_round_from_ranking dict_ranking
  end.

Fixpoint run (calls : list call) (s : Pairing)
  : list (result (option (gset (string * string)))) * Pairing :=
  match calls with
  | [] => ([], s)
  | c :: calls' =>
      let '(o, s1) := do_call c s in
      let '(os, s2) := run calls' s1 in
      (o :: os, s2)
  end.

(** The configuration a call returned, if it returned one. *)
Definition returned (o : result (option (gset (string * string))))
  : option (gset (string * string)) :=
  match o with
  | Return (Some c) => Some c
  | _ => None
  end.

(** Row [i] of the scan: the pairs [(players[i], players[j])] for [j] in
    [range(i + 1, len(players))]. *)
Definition row (players : list string) (i : nat) : list (string * string) :=
  (λ j, (players !!! i, players !!! j))
    <$> seq (i + 1) (length players - (i + 1)).

(** What a scan does to the object, given the pair it stops on. *)
Definition scan_result (found : result (option (string * string)))
    (s : Pairing) : result (option (gset (string * string))) * Pairing :=
  match found with
  | Raise e => (Raise e, s)
  | Return None => (Return None, s)
  | Return (Some mt) => generate_round_configuration_from_match mt s
  end.

(** The stages of [generate_next_round_from_ranking], one per rank key:
    the pool grows by the players of the rank, then it is scanned. *)
Fixpoint ranking_stages (dict_ranking : list (string * list string))
    (keys : list string) (pool : list string) (s : Pairing)
  : result (option (gset (string * string))) * Pairing :=
  match keys with
  | [] => (Return None, s)
  | k :: keys' =>
      match Py.dict_get dict_ranking k with
      | Raise e => (Raise e, s)
      | Return players =>
          let pool' := pool ++ players in
          match scan_result
                  (first_unplayed (played_matches s) (ordered_pairs pool')) s with
          | (Return None, _) => ranking_stages dict_ranking keys' pool' s
          | r => r
          end
      end
  end.

(** One selection: [c] leaves the remaining schedule and is recorded. *)
Definition selects (s : Pairing) (c : gset (string * string)) (s' : Pairing)
  : Prop :=
  ∃ l1 l2, possibles_configurations s = l1 ++ c :: l2 ∧
           s' = after_selection c (l1 ++ l2) s.

(** The remaining configurations are pairwise disjoint and disjoint from
    the memory. *)
Definition no_repeat_inv (s : Pairing) : Prop :=
  (∀ i j ci cj, i ≠ j →
     possibles_configurations s !! i = Some ci →
     possibles_configurations s !! j = Some cj → ci ## cj) ∧
  (∀ c, c ∈ possibles_configurations s → c ## played_matches s).

(** An engine built from a roster: by the constructor, or restored from a
    persisted arrangement of the roster and a list of played matches. *)
Definition built (shuffle : list string → list string) (roster : list string)
    (e : Pairing) : Prop :=
  __init__ shuffle roster true = Return e ∨
  ∃ arrangement played,
    arrangement ≡ₚ roster ∧
    instantiate_pairing shuffle roster arrangement played = Return e.

(** Pairwise disjointness of a list of configurations, by recursion on the
    list. *)
Fixpoint pairwise_disjoint (l : list (gset (string * string))) : Prop :=
  match l with
  | [] => True
  | c :: l' => (∀ c', c' ∈ l' → c ## c') ∧ pairwise_disjoint l'
  end.

(** The engine restored from an arrangement and a list of played matches,
    when every identifier carries a number. *)
Definition restored (roster arrangement : list string)
    (played : list (string * string)) : Pairing :=
  mkPairing roster (Some arrangement)
            (filter (λ c, c ∩ list_to_set played = ∅) (schedule arrangement))
            (list_to_set played).

(** State of an engine of roster [roster] and arrangement [a] in which the
    configurations [S] of the schedule have been selected. *)
Definition tracked (roster a : list string)
    (S : list (gset (string * string))) (s : Pairing) : Prop :=
  list_of_players s = roster ∧
  initial_configuration s = Some a ∧
  (∀ c, c ∈ S → c ∈ schedule a) ∧
  played_matches s = ⋃ S ∧
  possibles_configurations s = filter (λ c, c ∉ S) (schedule a).

(** A persisted list of played matches is consistent with an arrangement
    when it is the union of configurations of its schedule. *)
Definition consistent_history (a : list string)
    (played : list (string * string)) : Prop :=
  ∃ S : list (gset (string * string)),
    (∀ c, c ∈ S → c ∈ schedule a) ∧ list_to_set played = ⋃ S.

(** [k] applications of [rearrange_list]. *)
Fixpoint rearrange_iter (k : nat) (l : list string) : result (list string) :=
  match k with
  | 0 => Return l
  | S k' => l' ← rearrange_list l; rearrange_iter k' l'
  end.

(** A roster the specification calls malformed. *)
Definition malformed (roster : list string) : Prop :=
  roster = [] ∨ Nat.Odd (length roster) ∨ ¬ NoDup roster.

(** The first configuration of the schedule generated from [a] is the
    pairing of [a] itself. *)
Definition first_is_initial_pairing (a : list string) : Prop :=
  ∀ s s' c,
    initial_configuration s = Some a → possibles_configurations s = [] →
    generate_circle_configurations s = (Return tt, s') →
    generate_pairing a = Return c →
    head (possibles_configurations s') = Some c.

(** ** Ranking-weighted selection, in the words of the specification *)

(** Numeric value of a rank key, and the players of a rank. *)
Definition key_val (k : string) : Z := default 0%Z (Py.int k).

Definition rank_players (dict_ranking : list (string * list string))
    (k : string) : list string :=
  match Py.dict_get dict_ranking k with
  | Return players => players
  | Raise _ => []
  end.

(** The pairwise scan of a pool: among the pairs [(i, j)], [i] before [j]
    in the order of the pool, canonicalized, the first that is not in the
    memory. *)
Definition spec_scan (played : gset (string * string)) (pool : list string)
  : option (string * string) :=
  head (filter (λ mt, mt ∉ played)
               ((λ p, canon p.1 p.2) <$> ordered_pairs pool)).

(** Select-round-containing (anchor-based selection): a linear search of
    the remaining schedule for the configuration that contains the match;
    if one is found it is removed from the remaining schedule, all its
    matches are recorded in the memory and it is returned; if none is
    found there is no round, and nothing changes. *)
Definition spec_select (mt : string * string) (s : Pairing)
  : option (gset (string * string)) * Pairing :=
  match list_find (λ c, mt ∈ c) (possibles_configurations s) with
  | Some (i, c) =>
      (Some c,
       mkPairing (list_of_players s) (initial_configuration s)
                 (delete i (possibles_configurations s))
                 (played_matches s ∪ c))
  | None => (None, s)
  end.

(** The groups of players are taken rank after rank; each one is appended
    to the pool, the pool is scanned, and the first unplayed pair found
    triggers the selection of the entire configuration that contains it,
    which ends the search; when the groups are used up there is no
    result. *)
Fixpoint spec_ranking (groups : list (list string)) (pool : list string)
    (s : Pairing) : option (gset (string * string)) * Pairing :=
  match groups with
  | [] => (None, s)
  | g :: groups' =>
      let pool' := pool ++ g in
      match spec_scan (played_matches s) pool' with
      | Some mt =>
          match spec_select mt s with
          | (Some c, s') => (Some c, s')
          | (None, _) => spec_ranking groups' pool' s
          end
      | None => spec_ranking groups' pool' s
      end
  end.

(** ** A table of four players *)

Definition four_players : list string := ["p_1"; "p_2"; "p_3"; "p_4"].

Definition four_ranking : list (string * list string) :=
  [("1", ["p_1"]); ("2", ["p_2"]); ("3", ["p_4"]); ("4", ["p_3"])].

Definition four_calls : list call :=
  [FirstRound; FromRanking four_ranking; FirstRound; FirstRound].

Definition three_first_rounds : list call :=
  [FirstRound; FirstRound; FirstRound].


(** An odd roster with a duplicate, and a roster of one identifier that
    carries no number. *)
Definition odd_duplicate_roster : list string := ["p_1"; "p_1"; "p_2"].
Definition unnumbered_roster : list string := ["x"].

(** The three configurations of the table of four, and the states of the
    scenario: the engine as built, then after each of three selections. *)
Definition c13_24 : gset (string * string) := {[ ("p_1", "p_3"); ("p_2", "p_4") ]}.
Definition c12_34 : gset (string * string) := {[ ("p_1", "p_2"); ("p_3", "p_4") ]}.
Definition c14_23 : gset (string * string) := {[ ("p_1", "p_4"); ("p_2", "p_3") ]}.

Definition scenario_0 : Pairing :=
  mkPairing four_players (Some four_players) [c13_24; c12_34; c14_23] ∅.
Definition scenario_1 : Pairing :=
  mkPairing four_players (Some four_players) [c13_24; c12_34] c14_23.
Definition scenario_2 : Pairing :=
  mkPairing four_players (Some four_players) [c13_24] (c14_23 ∪ c12_34).
Definition scenario_3 : Pairing :=
  mkPairing four_players (Some four_players) [] (c14_23 ∪ c12_34 ∪ c13_24).

(** ** Decimal digits *)

(** The characters that the decimal writing of a number is made of. *)
Definition dec_digit (c : ascii) : Prop :=
  ∃ d, (d < 10)%N ∧ c = pretty_N_char d.


(** * The form controller ([controllers/controller_form.py])

    The methods of [ControllerForm] that do not talk to the view.  The
    classes [Player] and [Tournament] are outside these files: of the
    creation of an object and of its [save_to_database] the model keeps the
    arguments of the constructor, as the record that is saved. *)

(** [re.findall(r'\d+', s)]: the maximal runs of digits, from left to
    right; [cur] is the run being read, last digit first.  A string is the
    list of its characters, of code below 256, among which ['0'] to ['9']
    are the only ones that [\d] matches. *)
Definition is_digit (c : ascii) : bool :=
  let n := nat_of_ascii c in (48 <=? n) && (n <=? 57).

Fixpoint findall_digits_go (cur : list ascii) (l : list ascii)
  : list (list ascii) :=
  match l with
  | [] => match cur with [] => [] | _ => [reverse cur] end
  | c :: l' =>
      if is_digit c then findall_digits_go (c :: cur) l'
      else match cur with
           | [] => findall_digits_go [] l'
           | _ => reverse cur :: findall_digits_go [] l'
           end
  end.

Definition findall_digits (s : string) : list string :=
  string_of_list_ascii <$> findall_digits_go [] (list_ascii_of_string s).

(** [sep.join(l)]. *)
Fixpoint join (sep : string) (l : list string) : string :=
  match l with
  | [] => ""
  | [x] => x
  | x :: l' => x +:+ sep +:+ join sep l'
  end.

(** [reformat_date]: the loop replaces every number of fewer than two
    characters by ['0' + number]. *)
Definition pad_number (number : string) : string :=
  if String.length number <? 2 then "0" +:+ number else number.

Definition reformat_date (date_string : string) : string :=
  join "-" (pad_number <$> findall_digits date_string).

(** What is handed to [Player] and to [Tournament]. *)
Record player_record : Type := mkPlayer {
  first_name : string;
  last_name : string;
  date_of_birth : string;
  chess_id : string
}.

Record tournament_record : Type := mkTournament {
  name : string;
  place : string;
  date_start : string;
  date_end : string;
  description : string;
  rounds_number : Z
}.

(** [try_to_create_new_player]: the answer returned ([None] when the
    method runs to its end) and the player saved, if any. *)
Definition try_to_create_new_player (data : list string)
  : result (option (string * string) * option player_record) :=
  if negb (length data =? 4) then Return (Some ("ERROR", "INCOMPLETE"), None)
  else
    chess_id ← Py.index data 3;
    if negb (String.length chess_id =? 7) then
      Return (Some ("ERROR", "CHESS_ID"), None)
    else
      birth ← Py.index data 2;
      let date := reformat_date birth in
      if negb (String.length date =? 10) then
        Return (Some ("ERROR", "DATE"), None)
      else
        first ← Py.index data 0;
        last ← Py.index data 1;
        Return (None, Some (mkPlayer first last date chess_id)).

(** [try_to_create_tournament]; the arguments of [Tournament] are
    evaluated in the order in which they are written. *)
Definition try_to_create_tournament (data : list string)
  : result (option (string * string) * option tournament_record) :=
  start ← Py.index data 2;
  let date_start := reformat_date start in
  if negb (String.length date_start =? 10) then
    Return (Some ("ERROR", "DATE"), None)
  else
    finish ← Py.index data 3;
    let date_end := reformat_date finish in
    if negb (String.length date_end =? 10) then
      Return (Some ("ERROR", "DATE"), None)
    else
      name ← Py.index data 0;
      place ← Py.index data 1;
      description ← Py.index data 5;
      rounds ← Py.index data 4;
      rounds_number ← int_key rounds;
      Return (None,
              Some (mkTournament name place date_start date_end description
                                 rounds_number)).

(** The object saved by a creation, whichever its class. *)
Inductive saved : Type :=
| SavedPlayer (p : player_record)
| SavedTournament (t : tournament_record).

(** [try_to_create_element]; an element that is neither of the two gives
    [None]. *)
Definition try_to_create_element (element : string) (data : list string)
  : result (option (string * string) * option saved) :=
  if decide (element = "NEW_PLAYER") then
    match try_to_create_new_player data with
    | Return (answer, p) => Return (answer, SavedPlayer <$> p)
    | Raise e => Raise e
    end
  else if decide (element = "NEW_TOURNAMENT") then
    match try_to_create_tournament data with
    | Return (answer, t) => Return (answer, SavedTournament <$> t)
    | Raise e => Raise e
    end
  else Return (None, None).

(** [handle_answer]: [x in answer] on a pair; when no code is recognised
    the method runs to its end and returns [None]. *)
Definition in_pair (x : string) (answer : string * string) : bool :=
  bool_decide (answer.1 = x) || bool_decide (answer.2 = x).

Definition handle_answer (answer : option (string * string)) : option string :=
  match answer with
  | Some answer =>
      if in_pair "INCOMPLETE" answer then Some "Form is incomplete"
      else if in_pair "CHESS_ID" answer then
        Some "Invalid Chess ID must follow : AA00000"
      else if in_pair "DATE" answer then Some "Date is invalid"
      else None
  | None => Some ""
  end.

(** [not error_msg] in [start]: [None] and the empty string let the form
    through. *)
Definition lets_through (error_msg : option string) : bool :=
  match error_msg with
  | None => true
  | Some msg => bool_decide (msg = "")
  end.

(** A string made of digits only, and a string without a digit. *)
Definition digits_only (s : string) : Prop :=
  Forall (λ c, is_digit c = true) (list_ascii_of_string s).

Definition no_digit (s : string) : Prop :=
  Forall (λ c, is_digit c = false) (list_ascii_of_string s).
(** ** Basic facts on the primitives *)

Lemma has_number_num p : has_number p → get_player_number p = Return (num p).
Proof. intros [n Hn]. unfold num. by rewrite Hn. Qed.

Lemma index_nat {A} `{Inhabited A} (l : list A) i :
  i < length l → Py.index l (Z.of_nat i) = Return (l !!! i).
Proof.
  intros Hi. unfold Py.index.
  destruct (Z.ltb_spec (Z.of_nat i) 0); [lia|].
  rewrite Nat2Z.id.
  destruct (Z.ltb_spec (Z.of_nat i) 0); [lia|].
  by rewrite (list_lookup_lookup_total_lt l i Hi).
Qed.

Lemma index_nat_ge {A} (l : list A) i :
  length l ≤ i → Py.index l (Z.of_nat i) = Raise IndexError.
Proof.
  intros Hi. unfold Py.index.
  destruct (Z.ltb_spec (Z.of_nat i) 0); [lia|].
  rewrite Nat2Z.id.
  destruct (Z.ltb_spec (Z.of_nat i) 0); [lia|].
  by rewrite lookup_ge_None_2.
Qed.

Lemma index_neg {A} `{Inhabited A} (l : list A) i :
  i < length l →
  Py.index l (- Z.of_nat i - 1) = Return (l !!! (length l - 1 - i)).
Proof.
  intros Hi. unfold Py.index.
  destruct (Z.ltb_spec (- Z.of_nat i - 1) 0); [|lia].
  destruct (Z.ltb_spec (Z.of_nat (length l) + (- Z.of_nat i - 1)) 0); [lia|].
  replace (Z.to_nat (Z.of_nat (length l) + (- Z.of_nat i - 1)))
    with (length l - 1 - i) by lia.
  rewrite (list_lookup_lookup_total_lt l (length l - 1 - i)); [done|lia].
Qed.

Lemma sorted_pair_numbers a b :
  has_number a → has_number b → sorted_pair a b = Return (canon a b).
Proof.
  intros Ha Hb. unfold sorted_pair, Py.sorted, canon. simpl.
  rewrite (has_number_num a Ha), (has_number_num b Hb). simpl.
  by destruct (num a <=? num b)%Z.
Qed.

Lemma sorted_pair_Return a b :
  is_Return (sorted_pair a b) ↔ has_number a ∧ has_number b.
Proof.
  split.
  - intros [t Ht]. unfold sorted_pair, Py.sorted in Ht. simpl in Ht.
    unfold has_number, is_Return.
    destruct (get_player_number a) as [ka|]; [|done].
    destruct (get_player_number b) as [kb|]; [|done]. eauto.
  - intros [Ha Hb]. rewrite sorted_pair_numbers by done. by eexists.
Qed.

Lemma canon_cases a b : canon a b = (a, b) ∨ canon a b = (b, a).
Proof. unfold canon. destruct (num a <=? num b)%Z; auto. Qed.

Lemma canon_ordered a b : (num (canon a b).1 ≤ num (canon a b).2)%Z.
Proof. unfold canon. destruct (Z.leb_spec (num a) (num b)); simpl; lia. Qed.

Lemma rotate_snoc x mid y : rotate (x :: mid ++ [y]) = x :: y :: mid.
Proof. unfold rotate. by rewrite last_snoc, removelast_last. Qed.

Lemma list_snoc_form {A} (l : list A) :
  2 ≤ length l → ∃ x mid y, l = x :: mid ++ [y].
Proof.
  intros Hl. destruct l as [|x t]; [simpl in Hl; lia|].
  destruct (decide (t = [])) as [->|Hne]; [simpl in Hl; lia|].
  destruct (exists_last Hne) as (mid & y & ->). eauto.
Qed.

Lemma rearrange_list_snoc x mid y :
  rearrange_list (x :: mid ++ [y]) = Return (x :: y :: mid).
Proof.
  unfold rearrange_list.
  change 0%Z with (Z.of_nat 0). rewrite index_nat by (simpl; lia).
  change (-1)%Z with (- Z.of_nat 0 - 1)%Z. rewrite index_neg by (simpl; lia).
  assert ((x :: mid ++ [y]) !!! (length (x :: mid ++ [y]) - 1 - 0) = y) as ->.
  { change (x :: mid ++ [y]) with ((x :: mid) ++ y :: []).
    apply list_lookup_total_middle. rewrite length_app. simpl. lia. }
  assert (Py.slice_1_m1 (x :: mid ++ [y]) = mid) as ->; [|done].
  unfold Py.slice_1_m1.
  change (x :: mid ++ [y]) with ((x :: mid) ++ [y]).
  rewrite length_app. simpl length.
  replace (S (length mid) + 1 - 1) with (length (x :: mid)) by (simpl; lia).
  by rewrite take_app_length.
Qed.

Lemma rearrange_list_rotate l :
  2 ≤ length l → rearrange_list l = Return (rotate l).
Proof.
  intros (x & mid & y & ->)%list_snoc_form.
  by rewrite rearrange_list_snoc, rotate_snoc.
Qed.

Lemma rotate_perm l : 2 ≤ length l → rotate l ≡ₚ l.
Proof.
  intros (x & mid & y & ->)%list_snoc_form. rewrite rotate_snoc.
  constructor. by rewrite Permutation_cons_append.
Qed.

Lemma rotate_length l : 2 ≤ length l → length (rotate l) = length l.
Proof. intros Hl. by rewrite (rotate_perm l Hl). Qed.

Lemma iter_rotate_perm k l : 2 ≤ length l → Nat.iter k rotate l ≡ₚ l.
Proof.
  intros Hl. induction k as [|k IH]; [done|]. simpl.
  rewrite rotate_perm; [done|]. by rewrite IH.
Qed.

Lemma iter_rotate_length k l :
  2 ≤ length l → length (Nat.iter k rotate l) = length l.
Proof. intros Hl. by rewrite (iter_rotate_perm k l Hl). Qed.

(** ** The monad of methods *)

Lemma bind_Return {A B} (m : M A) (f : A → M B) s a s' :
  m s = (Return a, s') → bind m f s = f a s'.
Proof. unfold bind. by intros ->. Qed.

Lemma bind_Raise {A B} (m : M A) (f : A → M B) s e s' :
  m s = (Raise e, s') → bind m f s = (Raise e, s').
Proof. unfold bind. by intros ->. Qed.

(** ** Pairing one seating *)

Lemma generate_pairing_loop_numbers l range acc :
  (∀ x, x ∈ l → has_number x) →
  (∀ i, i ∈ range → i < length l) →
  generate_pairing_loop l range acc =
  Return (acc ∪ list_to_set
            ((λ i, canon (l !!! i) (l !!! (length l - 1 - i))) <$> range)).
Proof.
  intros Hnum. revert acc.
  induction range as [|i range IH]; intros acc Hrange; simpl.
  - f_equal. set_solver.
  - assert (i < length l) as Hi by (apply Hrange; set_solver).
    rewrite index_nat, index_neg by done. simpl.
    rewrite sorted_pair_numbers; simpl.
    + rewrite IH by (intros; apply Hrange; set_solver).
      f_equal. set_solver.
    + apply Hnum, list_elem_of_lookup_total_2. lia.
    + apply Hnum, list_elem_of_lookup_total_2. lia.
Qed.

Lemma half_lt n i : i < n / 2 → i < n ∧ n - 1 - i < n ∧ i < n - 1 - i.
Proof.
  intros Hi. pose proof (Nat.div_mod_eq n 2).
  pose proof (Nat.mod_upper_bound n 2). lia.
Qed.

Lemma generate_pairing_numbers l :
  (∀ x, x ∈ l → has_number x) →
  generate_pairing l = Return (list_to_set (pairs_of l)).
Proof.
  intros Hnum. unfold generate_pairing.
  rewrite generate_pairing_loop_numbers; [|done|].
  - f_equal. unfold pairs_of. set_solver.
  - intros i [_ Hi]%elem_of_seq. apply half_lt. lia.
Qed.

Lemma elem_of_pairs_of l t :
  t ∈ pairs_of l ↔
  ∃ i, i < length l / 2 ∧ t = canon (l !!! i) (l !!! (length l - 1 - i)).
Proof.
  unfold pairs_of. rewrite list_elem_of_fmap. split.
  - intros (i & -> & [_ Hi]%elem_of_seq). exists i. split; [lia|done].
  - intros (i & Hi & ->). exists i. split; [done|].
    apply elem_of_seq. lia.
Qed.

(** ** Rotating the seats *)

Lemma rotate_lookup l M j :
  length l = S M → 1 ≤ M → j ≤ M →
  rotate l !!! j =
  l !!! (if j =? 0 then 0 else if j =? 1 then M else j - 1).
Proof.
  intros Hlen HM Hj.
  destruct (list_snoc_form l) as (x & mid & y & ->); [lia|].
  rewrite rotate_snoc. simpl in Hlen. rewrite length_app in Hlen.
  simpl in Hlen.
  destruct j as [|[|j]]; simpl.
  - done.
  - change (x :: mid ++ [y]) with ((x :: mid) ++ y :: []).
    symmetry. apply list_lookup_total_middle. simpl. lia.
  - change ((x :: mid ++ [y]) !!! S j) with ((mid ++ [y]) !!! j).
    rewrite lookup_total_app_l by lia. done.
Qed.

Ltac case_nat_tests :=
  repeat match goal with
         | |- context [?a =? ?b] => destruct (Nat.eqb_spec a b)
         | |- context [?a <? ?b] => destruct (Nat.ltb_spec a b)
         | H : context [?a =? ?b] |- _ => destruct (Nat.eqb_spec a b)
         | H : context [?a <? ?b] |- _ => destruct (Nat.ltb_spec a b)
         end.

Lemma seat_le M k p : 1 ≤ M → k ≤ M → p ≤ M → seat M k p ≤ M.
Proof. intros. unfold seat. case_nat_tests; lia. Qed.

Lemma seat_0 M p : p ≤ M → seat M 0 p = p.
Proof. intros. unfold seat. case_nat_tests; lia. Qed.

Lemma seat_succ M k p :
  1 ≤ M → S k ≤ M → p ≤ M →
  (if seat M (S k) p =? 0 then 0
   else if seat M (S k) p =? 1 then M else seat M (S k) p - 1) = seat M k p.
Proof. intros. unfold seat. case_nat_tests; lia. Qed.

Lemma seat_lookup a M k p :
  length a = S M → 1 ≤ M → k ≤ M → p ≤ M →
  Nat.iter k rotate a !!! seat M k p = a !!! p.
Proof.
  intros Hlen HM. revert p. induction k as [|k IH]; intros p Hk Hp.
  - by rewrite seat_0.
  - simpl. rewrite (rotate_lookup _ M).
    + rewrite seat_succ by lia. apply IH; lia.
    + rewrite iter_rotate_length; lia.
    + done.
    + apply seat_le; lia.
Qed.

(** ** Generating the schedule *)

Lemma iter_rotate_numbers k l x :
  2 ≤ length l → (∀ y, y ∈ l → has_number y) →
  x ∈ Nat.iter k rotate l → has_number x.
Proof.
  intros Hl Hnum Hx. apply Hnum. by rewrite <- (iter_rotate_perm k l Hl).
Qed.

Lemma circle_loop_numbers n cur s :
  2 ≤ length cur → (∀ x, x ∈ cur → has_number x) →
  circle_loop n cur s =
  (Return tt,
   set_possibles
     (possibles_configurations s ++
      ((λ k, list_to_set (pairs_of (Nat.iter k rotate cur))) <$> seq 1 n)) s).
Proof.
  revert cur s. induction n as [|n IH]; intros cur s Hlen Hnum.
  - simpl. unfold ret, set_possibles. rewrite app_nil_r. by destruct s.
  - simpl circle_loop. unfold bind, lift, modify.
    rewrite rearrange_list_rotate by done.
    rewrite generate_pairing_numbers.
    2:{ intros x Hx. apply Hnum. by rewrite <- (rotate_perm cur Hlen). }
    rewrite IH.
    2:{ by rewrite rotate_length. }
    2:{ intros x Hx. apply Hnum. by rewrite <- (rotate_perm cur Hlen). }
    f_equal. unfold set_possibles. simpl. f_equal.
    rewrite <- app_assoc. f_equal.
    change (seq 1 (S n)) with (1 :: seq 2 n).
    simpl. f_equal.
    change (list_fmap nat (gset (string * string)) ?f ?l) with (f <$> l).
    rewrite <- (fmap_S_seq 1), <- list_fmap_compose.
    apply list_fmap_ext. intros i k _. simpl.
    by rewrite <- Nat.iter_succ_r.
Qed.

Lemma generate_circle_configurations_numbers a s :
  initial_configuration s = Some a →
  (∀ x, x ∈ a → has_number x) →
  generate_circle_configurations s =
  (Return tt, set_possibles (possibles_configurations s ++ schedule a) s).
Proof.
  intros Ha Hnum. unfold generate_circle_configurations, bind, gets.
  rewrite Ha. destruct (decide (2 ≤ length a)) as [Hlen|Hlen].
  - by rewrite circle_loop_numbers.
  - unfold schedule.
    replace (length a - 1) with 0 by lia. simpl.
    unfold ret, set_possibles. rewrite app_nil_r. by destruct s.
Qed.

Lemma schedule_length a : length (schedule a) = length a - 1.
Proof. unfold schedule. by rewrite length_fmap, length_seq. Qed.

Lemma schedule_lookup a k :
  k < length a - 1 →
  schedule a !! k = Some (list_to_set (pairs_of (Nat.iter (S k) rotate a))).
Proof.
  intros Hk. unfold schedule. rewrite list_lookup_fmap.
  rewrite lookup_seq_lt by done. done.
Qed.

(** ** Arithmetic of the seats *)

Lemma seat_inj M k p q :
  1 ≤ M → k ≤ M → p ≤ M → q ≤ M → seat M k p = seat M k q → p = q.
Proof. unfold seat. intros. case_nat_tests; lia. Qed.

Lemma seat_sum_unique m k1 k2 p q :
  1 ≤ m → p ≤ 2 * m - 1 → q ≤ 2 * m - 1 → p ≠ q →
  1 ≤ k1 ≤ 2 * m - 1 → 1 ≤ k2 ≤ 2 * m - 1 →
  seat (2 * m - 1) k1 p + seat (2 * m - 1) k1 q = 2 * m - 1 →
  seat (2 * m - 1) k2 p + seat (2 * m - 1) k2 q = 2 * m - 1 →
  k1 = k2.
Proof. unfold seat. intros. case_nat_tests; lia. Qed.

Lemma seat_sum_exists_0 m q :
  1 ≤ m → 1 ≤ q ≤ 2 * m - 1 →
  ∃ k, 1 ≤ k ≤ 2 * m - 1 ∧ seat (2 * m - 1) k q = 2 * m - 1.
Proof.
  intros Hm Hq.
  exists (if q <? 2 * m - 1 then 2 * m - 1 - q else 2 * m - 1).
  unfold seat. case_nat_tests; lia.
Qed.

Lemma seat_sum_exists m p q :
  1 ≤ m → p ≤ 2 * m - 1 → q ≤ 2 * m - 1 → p ≠ q →
  ∃ k, 1 ≤ k ≤ 2 * m - 1 ∧
       seat (2 * m - 1) k p + seat (2 * m - 1) k q = 2 * m - 1.
Proof.
  intros Hm Hp Hq Hpq.
  destruct (decide (p = 0)) as [->|Hp0].
  { destruct (seat_sum_exists_0 m q) as (k & Hk & Hs); [lia..|].
    exists k. split; [done|]. rewrite <- Hs at 3. unfold seat. simpl. lia. }
  destruct (decide (q = 0)) as [->|Hq0].
  { destruct (seat_sum_exists_0 m p) as (k & Hk & Hs); [lia..|].
    exists k. split; [done|]. rewrite <- Hs at 3. unfold seat. simpl. lia. }
  destruct (Nat.Even_or_Odd (p - 1 + (q - 1))) as [[h Hh]|[h Hh]].
  - exists (2 * m - 2 - h). unfold seat. case_nat_tests; lia.
  - destruct (decide (h + 3 ≤ m)).
    + exists (m - 2 - h). unfold seat. case_nat_tests; lia.
    + exists (3 * m - 3 - h). unfold seat. case_nat_tests; lia.
Qed.

(** ** One configuration is a perfect matching *)

Lemma meets_sym c x y : meets c x y → meets c y x.
Proof. unfold meets. tauto. Qed.

Lemma meets_pairs_of cur m x y :
  length cur = 2 * m →
  meets (list_to_set (pairs_of cur)) x y ↔
  ∃ i j, i + j = 2 * m - 1 ∧ cur !! i = Some x ∧ cur !! j = Some y.
Proof.
  intros Hlen. unfold meets. rewrite !elem_of_list_to_set, !elem_of_pairs_of.
  rewrite Hlen. replace (2 * m / 2) with m
    by (rewrite (Nat.mul_comm 2 m), Nat.div_mul; lia).
  split.
  - assert (∀ i, i < m → cur !! i = Some (cur !!! i) ∧
               cur !! (2 * m - 1 - i) = Some (cur !!! (2 * m - 1 - i))) as Hlk.
    { intros i Hi. split; apply list_lookup_lookup_total_lt; lia. }
    intros [(i & Hi & Heq)|(i & Hi & Heq)];
      destruct (Hlk i Hi) as [H1 H2];
      destruct (canon_cases (cur !!! i) (cur !!! (2 * m - 1 - i))) as [Hc|Hc];
      rewrite Hc in Heq; injection Heq as -> ->.
    + exists i, (2 * m - 1 - i). split; [lia|done].
    + exists (2 * m - 1 - i), i. split; [lia|done].
    + exists (2 * m - 1 - i), i. split; [lia|done].
    + exists i, (2 * m - 1 - i). split; [lia|done].
  - intros (i & j & Hij & Hi & Hj).
    apply list_lookup_total_correct in Hi as Hi'.
    apply list_lookup_total_correct in Hj as Hj'.
    apply lookup_lt_Some in Hi as Hil. rewrite Hlen in Hil.
    destruct (decide (i < j)).
    + destruct (canon_cases x y) as [Hc|Hc]; [left|right];
        exists i; (split; [lia|]);
        replace (2 * m - 1 - i) with j by lia; by rewrite Hi', Hj'.
    + destruct (canon_cases y x) as [Hc|Hc]; [right|left];
        exists j; (split; [lia|]);
        replace (2 * m - 1 - j) with i by lia; by rewrite Hi', Hj'.
Qed.

Lemma pairs_of_perfect_matching cur m :
  NoDup cur → length cur = 2 * m →
  perfect_matching cur (list_to_set (pairs_of cur)).
Proof.
  intros Hnd Hlen. split.
  - intros [x y] Ht. simpl.
    assert (meets (list_to_set (pairs_of cur)) x y) as Hm by (by left).
    apply (meets_pairs_of cur m) in Hm as (i & j & Hij & Hi & Hj); [|done].
    split_and!.
    + by eapply list_elem_of_lookup_2.
    + by eapply list_elem_of_lookup_2.
    + intros ->. pose proof (NoDup_lookup _ _ _ _ Hnd Hi Hj).
      apply lookup_lt_Some in Hi. lia.
    + apply elem_of_list_to_set, elem_of_pairs_of in Ht as (i' & _ & Heq).
      pose proof (canon_ordered (cur !!! i') (cur !!! (length cur - 1 - i'))) as Hord.
      by rewrite <- Heq in Hord.
  - intros x [i Hi]%list_elem_of_lookup_1.
    assert (i < 2 * m) as Hi2 by (rewrite <- Hlen; by eapply lookup_lt_Some).
    set (i0 := if decide (i < m) then i else 2 * m - 1 - i).
    assert (i0 < m) as Hi0 by (unfold i0; case_decide; lia).
    assert (∀ i', i' < m →
              x = (canon (cur !!! i') (cur !!! (2 * m - 1 - i'))).1 ∨
              x = (canon (cur !!! i') (cur !!! (2 * m - 1 - i'))).2 →
              i' = i0) as Hidx.
    { intros i' Hi' Hx.
      assert (cur !! i' = Some (cur !!! i')) as H1
          by (apply list_lookup_lookup_total_lt; lia).
      assert (cur !! (2 * m - 1 - i') = Some (cur !!! (2 * m - 1 - i'))) as H2
          by (apply list_lookup_lookup_total_lt; lia).
      destruct (canon_cases (cur !!! i') (cur !!! (2 * m - 1 - i'))) as [Hc|Hc];
        rewrite Hc in Hx; cbn [fst snd] in Hx; destruct Hx as [Hx|Hx];
        first [ rewrite <- Hx in H1;
                pose proof (NoDup_lookup _ _ _ _ Hnd Hi H1)
              | rewrite <- Hx in H2;
                pose proof (NoDup_lookup _ _ _ _ Hnd Hi H2) ];
        unfold i0; case_decide; lia. }
    exists (canon (cur !!! i0) (cur !!! (2 * m - 1 - i0))). split_and!.
    + apply elem_of_list_to_set, elem_of_pairs_of. exists i0.
      rewrite Hlen, (Nat.mul_comm 2 m), Nat.div_mul by lia.
      split; [done|]. by rewrite (Nat.mul_comm m 2).
    + apply list_lookup_total_correct in Hi.
      destruct (canon_cases (cur !!! i0) (cur !!! (2 * m - 1 - i0))) as [Hc|Hc];
        rewrite Hc; simpl; unfold i0; case_decide;
        [left|right|right|left]; rewrite <- Hi; f_equal; lia.
    + intros t' Ht' Hx.
      apply elem_of_list_to_set, elem_of_pairs_of in Ht' as (i' & Hi' & ->).
      rewrite Hlen, (Nat.mul_comm 2 m), Nat.div_mul in Hi' by lia.
      rewrite Hlen in *. by rewrite (Hidx i' Hi' Hx).
Qed.

(** ** Rounds of the circle: who meets whom, and when *)

Lemma perfect_matching_perm l1 l2 c :
  l1 ≡ₚ l2 → perfect_matching l1 c → perfect_matching l2 c.
Proof.
  intros Hp [H1 H2]. split.
  - intros t Ht. destruct (H1 t Ht) as (?&?&?&?).
    split_and!; [by rewrite <- Hp|by rewrite <- Hp|done|done].
  - intros x Hx. apply H2. by rewrite Hp.
Qed.

Section rounds.
Variables (a : list string) (m : nat).
Hypothesis a_nodup : NoDup a.
Hypothesis a_length : length a = 2 * m.
Hypothesis m_pos : 1 ≤ m.

Local Notation cur k := (Nat.iter k rotate a).

Lemma cur_length k : length (cur k) = 2 * m.
Proof. rewrite iter_rotate_length; lia. Qed.

Lemma cur_nodup k : NoDup (cur k).
Proof.
  rewrite iter_rotate_perm; [done|lia].
Qed.

Lemma cur_seat k p :
  k ≤ 2 * m - 1 → p < 2 * m →
  cur k !! seat (2 * m - 1) k p = Some (a !!! p).
Proof.
  intros Hk Hp.
  rewrite <- (seat_lookup a (2 * m - 1) k p) by lia.
  apply list_lookup_lookup_total_lt. rewrite cur_length.
  pose proof (seat_le (2 * m - 1) k p). lia.
Qed.

Lemma meets_round k p q :
  k ≤ 2 * m - 1 → p < 2 * m → q < 2 * m →
  meets (list_to_set (pairs_of (cur k))) (a !!! p) (a !!! q) ↔
  seat (2 * m - 1) k p + seat (2 * m - 1) k q = 2 * m - 1.
Proof.
  intros Hk Hp Hq. rewrite (meets_pairs_of (cur k) m) by apply cur_length.
  pose proof (cur_seat k p Hk Hp) as Hsp.
  pose proof (cur_seat k q Hk Hq) as Hsq.
  split.
  - intros (i & j & Hij & Hi & Hj).
    rewrite <- (NoDup_lookup _ _ _ _ (cur_nodup k) Hi Hsp).
    rewrite <- (NoDup_lookup _ _ _ _ (cur_nodup k) Hj Hsq). done.
  - intros Hsum. eauto.
Qed.

Lemma schedule_lookup_Some k c :
  schedule a !! k = Some c →
  k < 2 * m - 1 ∧ c = list_to_set (pairs_of (cur (S k))).
Proof.
  intros Hk. assert (k < 2 * m - 1) as Hlt.
  { apply lookup_lt_Some in Hk. rewrite schedule_length in Hk. lia. }
  rewrite schedule_lookup in Hk by lia. by injection Hk as <-.
Qed.

Lemma schedule_perfect_matching c :
  c ∈ schedule a → perfect_matching a c.
Proof.
  intros [k Hk]%list_elem_of_lookup_1.
  apply schedule_lookup_Some in Hk as [Hk ->].
  apply (perfect_matching_perm (cur (S k))).
  - apply iter_rotate_perm. lia.
  - apply (pairs_of_perfect_matching _ m); [apply cur_nodup|apply cur_length].
Qed.

Lemma schedule_meets_exists x y :
  x ∈ a → y ∈ a → x ≠ y →
  ∃ k c, schedule a !! k = Some c ∧ meets c x y.
Proof.
  intros [p Hp]%list_elem_of_lookup_1 [q Hq]%list_elem_of_lookup_1 Hxy.
  apply lookup_lt_Some in Hp as Hpl. apply lookup_lt_Some in Hq as Hql.
  apply list_lookup_total_correct in Hp, Hq. subst x y.
  destruct (seat_sum_exists m p q) as (k & Hk & Hsum); [lia..|congruence|].
  exists (k - 1), (list_to_set (pairs_of (cur k))). split.
  - rewrite schedule_lookup by lia. by replace (S (k - 1)) with k by lia.
  - apply meets_round; lia.
Qed.

Lemma schedule_meets_unique k1 k2 c1 c2 x y :
  x ∈ a → y ∈ a → x ≠ y →
  schedule a !! k1 = Some c1 → schedule a !! k2 = Some c2 →
  meets c1 x y → meets c2 x y → k1 = k2.
Proof.
  intros [p Hp]%list_elem_of_lookup_1 [q Hq]%list_elem_of_lookup_1 Hxy.
  apply lookup_lt_Some in Hp as Hpl. apply lookup_lt_Some in Hq as Hql.
  apply list_lookup_total_correct in Hp, Hq. subst x y.
  intros [Hk1 ->]%schedule_lookup_Some [Hk2 ->]%schedule_lookup_Some.
  rewrite !meets_round by lia. intros Hs1 Hs2.
  assert (S k1 = S k2); [|lia].
  apply (seat_sum_unique m (S k1) (S k2) p q); try lia || done. congruence.
Qed.

Lemma schedule_disjoint k1 k2 c1 c2 :
  k1 ≠ k2 →
  schedule a !! k1 = Some c1 → schedule a !! k2 = Some c2 → c1 ## c2.
Proof.
  intros Hne Hk1 Hk2. apply elem_of_disjoint. intros [x y] Ht1 Ht2.
  destruct (schedule_perfect_matching c1) as [Hpm _].
  { by eapply list_elem_of_lookup_2. }
  destruct (Hpm _ Ht1) as (Hx & Hy & Hxy & _). simpl in *.
  apply Hne. apply (schedule_meets_unique k1 k2 c1 c2 x y); try done.
  - by left.
  - by left.
Qed.

Lemma pairs_of_nodup k : NoDup (pairs_of (cur k)).
Proof.
  destruct (pairs_of_perfect_matching (cur k) m (cur_nodup k) (cur_length k))
    as [_ Hpm].
  unfold pairs_of. apply NoDup_fmap_2_strong; [|apply NoDup_seq].
  intros i j [_ Hi]%elem_of_seq [_ Hj]%elem_of_seq Heq.
  rewrite cur_length, (Nat.mul_comm 2 m), Nat.div_mul in Hi, Hj by lia.
  rewrite cur_length in Heq.
  assert (cur k !! i = Some (cur k !!! i)) as H1.
  { apply list_lookup_lookup_total_lt. rewrite cur_length. lia. }
  assert (cur k !! j = Some (cur k !!! j)) as H2.
  { apply list_lookup_lookup_total_lt. rewrite cur_length. lia. }
  assert (cur k !! (2 * m - 1 - j) = Some (cur k !!! (2 * m - 1 - j))) as H3.
  { apply list_lookup_lookup_total_lt. rewrite cur_length. lia. }
  destruct (canon_cases (cur k !!! i) (cur k !!! (2 * m - 1 - i))) as [Hc|Hc];
    destruct (canon_cases (cur k !!! j) (cur k !!! (2 * m - 1 - j))) as [Hd|Hd];
    rewrite Hc, Hd in Heq; injection Heq as E1 E2.
  - rewrite E1 in H1. apply (NoDup_lookup _ _ _ _ (cur_nodup k) H1 H2).
  - rewrite E1 in H1.
    pose proof (NoDup_lookup _ _ _ _ (cur_nodup k) H1 H3). lia.
  - rewrite E2 in H1.
    pose proof (NoDup_lookup _ _ _ _ (cur_nodup k) H1 H3). lia.
  - rewrite E2 in H1. apply (NoDup_lookup _ _ _ _ (cur_nodup k) H1 H2).
Qed.

Lemma schedule_size c : c ∈ schedule a → size c = m.
Proof.
  intros [k Hk]%list_elem_of_lookup_1.
  apply schedule_lookup_Some in Hk as [Hk ->].
  rewrite size_list_to_set by apply pairs_of_nodup.
  unfold pairs_of. rewrite length_fmap, length_seq, cur_length.
  rewrite (Nat.mul_comm 2 m), Nat.div_mul; lia.
Qed.

Lemma schedule_nonempty c : c ∈ schedule a → c ≠ ∅.
Proof.
  intros Hc ->. apply schedule_size in Hc. rewrite size_empty in Hc. lia.
Qed.

End rounds.

(** Size of the union of pairwise disjoint sets of one size. *)
Lemma size_union_list_disjoint (l : list (gset (string * string))) n :
  (∀ c, c ∈ l → size c = n) →
  (∀ i j ci cj, i ≠ j → l !! i = Some ci → l !! j = Some cj → ci ## cj) →
  size (⋃ l) = length l * n.
Proof.
  induction l as [|c l IH]; intros Hsize Hdisj.
  - rewrite union_list_nil. apply size_empty.
  - rewrite union_list_cons, size_union.
    + rewrite Hsize by set_solver. rewrite IH; [done|set_solver|].
      intros i j ci cj Hij Hi Hj. apply (Hdisj (S i) (S j)); [lia|done..].
    + apply elem_of_disjoint. intros t Ht [c' [Hc' Ht']]%elem_of_union_list.
      apply list_elem_of_lookup_1 in Hc' as [j Hj].
      assert (c ## c') as Hd by (apply (Hdisj 0 (S j)); [lia|done..]).
      set_solver.
Qed.

(** ** Completeness of the generated schedule *)

Lemma even_length_half (a : list string) :
  Nat.Even (length a) → 2 ≤ length a → ∃ m, length a = 2 * m ∧ 1 ≤ m.
Proof. intros [m Hm] Hl. exists m. lia. Qed.

(** C1.  For an arrangement of an even number [N ≥ 2] of distinct players
    (identifiers that carry a number), [generate_circle_configurations]
    returns normally and leaves a schedule of exactly [N - 1]
    configurations; each of them is a perfect matching of the roster made of
    canonical pairs; two distinct players meet in one and only one
    configuration of the schedule; and the union of the configurations has
    [N * (N - 1) / 2] matches. *)
Theorem circle_schedule_complete (a : list string) (s : Pairing) :
  NoDup a → Nat.Even (length a) → 2 ≤ length a →
  (∀ x, x ∈ a → has_number x) →
  initial_configuration s = Some a → possibles_configurations s = [] →
  ∃ s', generate_circle_configurations s = (Return tt, s') ∧
        length (possibles_configurations s') = length a - 1 ∧
        (∀ c, c ∈ possibles_configurations s' → perfect_matching a c) ∧
        (∀ x y, x ∈ a → y ∈ a → x ≠ y →
           ∃ k, (∃ c, possibles_configurations s' !! k = Some c ∧ meets c x y) ∧
                ∀ k', (∃ c, possibles_configurations s' !! k' = Some c ∧
                            meets c x y) → k' = k) ∧
        size (⋃ possibles_configurations s') = length a * (length a - 1) / 2.
Proof.
  intros Hnd Heven Hlen Hnum Hinit Hposs.
  destruct (even_length_half a Heven Hlen) as (m & Hm & Hm1).
  exists (set_possibles (possibles_configurations s ++ schedule a) s).
  split; [by apply generate_circle_configurations_numbers|].
  rewrite Hposs. unfold set_possibles. cbn [possibles_configurations app].
  split_and!.
  - apply schedule_length.
  - intros c Hc. by apply (schedule_perfect_matching a m).
  - intros x y Hx Hy Hxy.
    destruct (schedule_meets_exists a m Hnd Hm Hm1 x y Hx Hy Hxy)
      as (k & c & Hk & Hmeet).
    exists k. split; [eauto|].
    intros k' (c' & Hk' & Hmeet').
    by apply (schedule_meets_unique a m Hnd Hm Hm1 k' k c' c x y).
  - rewrite (size_union_list_disjoint _ m).
    + rewrite schedule_length, Hm.
      replace (2 * m * (2 * m - 1)) with ((2 * m - 1) * m * 2) by lia.
      by rewrite Nat.div_mul.
    + intros c Hc. by apply (schedule_size a m).
    + intros i j ci cj Hij Hi Hj.
      by apply (schedule_disjoint a m Hnd Hm Hm1 i j).
Qed.

Lemma four_players_numbers x : x ∈ four_players → has_number x.
Proof.
  unfold four_players. rewrite !elem_of_cons, elem_of_nil.
  intros [->|[->|[->|[->|[]]]]]; eexists; vm_compute; reflexivity.
Qed.

Lemma four_players_nodup : NoDup four_players.
Proof. unfold four_players. repeat constructor; set_solver. Qed.

Lemma circle_schedule_complete_witness :
  ∃ s', generate_circle_configurations
          (mkPairing four_players (Some four_players) [] ∅) = (Return tt, s') ∧
        length (possibles_configurations s') = 3.
Proof.
  destruct (circle_schedule_complete four_players
              (mkPairing four_players (Some four_players) [] ∅))
    as (s' & Hrun & Hlen & _).
  - exact four_players_nodup.
  - exists 2. reflexivity.
  - simpl. lia.
  - exact four_players_numbers.
  - reflexivity.
  - reflexivity.
  - exists s'. split; [exact Hrun|exact Hlen].
Defined.

(** ** The selection methods *)

Lemma select_middle mt l1 c l2 :
  mt ∈ c → (∀ c', c' ∈ l1 → mt ∉ c') →
  select mt (l1 ++ c :: l2) = Some (c, l1 ++ l2).
Proof.
  intros Hmt. induction l1 as [|c1 l1 IH]; intros Hl1; simpl.
  - by rewrite decide_True.
  - rewrite decide_False by (apply Hl1; left).
    rewrite IH; [done|]. intros c' Hc'. apply Hl1. by right.
Qed.

Lemma select_Some_inv mt l c rest :
  select mt l = Some (c, rest) →
  ∃ l1 l2, l = l1 ++ c :: l2 ∧ rest = l1 ++ l2 ∧ mt ∈ c ∧
           ∀ c', c' ∈ l1 → mt ∉ c'.
Proof.
  revert c rest. induction l as [|c0 l IH]; intros c rest; simpl; [done|].
  case_decide as Hin.
  - intros [= <- <-]. exists [], l. split_and!; [done|done|done|].
    intros c' Hc'. by apply elem_of_nil in Hc'.
  - destruct (select mt l) as [[c' rest']|]; [|done].
    intros [= <- <-].
    destruct (IH c' rest' eq_refl) as (l1 & l2 & -> & -> & Hmt & Hl1).
    exists (c0 :: l1), l2. split_and!; [done|done|done|].
    intros c1 [->|Hc1]%elem_of_cons; [done|by apply Hl1].
Qed.

Lemma select_None mt l : select mt l = None ↔ ∀ c, c ∈ l → mt ∉ c.
Proof.
  induction l as [|c0 l IH]; simpl.
  - split; [|done]. intros _ c Hc. by apply elem_of_nil in Hc.
  - case_decide as Hin.
    + split; [done|]. intros Hall. exfalso. apply (Hall c0); [left|done].
    + destruct (select mt l) as [[c' rest']|].
      * split; [done|]. intros Hall.
        assert (Some (c', rest') = None) as Habs; [|done].
        apply IH. intros c Hc. apply Hall. by right.
      * split; [|done]. intros _ c [->|Hc]%elem_of_cons; [done|].
        by apply IH.
Qed.

Lemma list_remove_middle (l1 l2 : list (gset (string * string))) c :
  c ∉ l1 → Py.list_remove c (l1 ++ c :: l2) = Return (l1 ++ l2).
Proof.
  induction l1 as [|c1 l1 IH]; intros Hnot; simpl.
  - by rewrite decide_True.
  - rewrite decide_False by (intros ->; apply Hnot; left).
    rewrite IH by (intros Hc; apply Hnot; by right). done.
Qed.

Lemma from_match_loop_select mt pre todo s :
  possibles_configurations s = pre ++ todo →
  (∀ c, c ∈ pre → mt ∉ c) →
  from_match_loop mt todo s =
  match select mt todo with
  | Some (c, rest) => (Return (Some c), after_selection c (pre ++ rest) s)
  | None => (Return None, s)
  end.
Proof.
  revert pre. induction todo as [|c todo IH]; intros pre Hposs Hpre; simpl.
  - done.
  - case_decide as Hin.
    + unfold bind, gets, lift, modify, add_to_memory, ret. rewrite Hposs.
      rewrite list_remove_middle; [done|].
      intros Hc. by apply (Hpre c).
    + rewrite (IH (pre ++ [c])).
      * destruct (select mt todo) as [[c' rest]|]; [|done].
        by rewrite <- app_assoc.
      * by rewrite <- app_assoc.
      * intros c' [Hc'|Hc']%elem_of_app; [by apply Hpre|].
        apply list_elem_of_singleton in Hc'. by subst.
Qed.

Lemma generate_round_configuration_from_match_select mt s :
  generate_round_configuration_from_match mt s =
  match select mt (possibles_configurations s) with
  | Some (c, rest) => (Return (Some c), after_selection c rest s)
  | None => (Return None, s)
  end.
Proof.
  unfold generate_round_configuration_from_match, bind, gets.
  rewrite (from_match_loop_select mt [] (possibles_configurations s) s);
    [done|done|].
  intros c Hc. by apply elem_of_nil in Hc.
Qed.

Lemma generate_first_round_configuration_empty s :
  possibles_configurations s = [] →
  generate_first_round_configuration s = (Raise IndexError, s).
Proof.
  intros Hposs. unfold generate_first_round_configuration, bind, gets, lift.
  by rewrite Hposs.
Qed.

Lemma generate_first_round_configuration_snoc s l c :
  possibles_configurations s = l ++ [c] →
  generate_first_round_configuration s = (Return c, after_selection c l s).
Proof.
  intros Hposs.
  unfold generate_first_round_configuration, bind, gets, lift, modify,
    add_to_memory, ret, Py.list_pop.
  rewrite Hposs, last_snoc, removelast_last. done.
Qed.

Lemma spec_select_select mt s :
  spec_select mt s =
  match select mt (possibles_configurations s) with
  | Some (c, rest) => (Some c, after_selection c rest s)
  | None => (None, s)
  end.
Proof.
  unfold spec_select, after_selection.
  assert (∀ l, select mt l
               = (λ ic, (ic.2, delete ic.1 l)) <$> list_find (λ c, mt ∈ c) l)
    as ->.
  { induction l as [|c l IH]; [done|]. cbn [select list_find].
    case_decide; [done|]. rewrite IH.
    by destruct (list_find (λ c0, mt ∈ c0) l) as [[i c']|]. }
  by destruct (list_find (λ c, mt ∈ c) (possibles_configurations s))
    as [[i c]|].
Qed.

(** ** The pairwise scan *)

Lemma first_unplayed_app played l1 l2 :
  first_unplayed played (l1 ++ l2) =
  match first_unplayed played l1 with
  | Return None => first_unplayed played l2
  | r => r
  end.
Proof.
  induction l1 as [|[a b] l1 IH]; simpl; [done|].
  destruct (sorted_pair a b) as [mt|e]; simpl; [|done].
  by case_decide.
Qed.

Lemma from_match_Return mt s :
  ∃ r s', generate_round_configuration_from_match mt s = (Return r, s').
Proof.
  rewrite generate_round_configuration_from_match_select.
  destruct (select mt (possibles_configurations s)) as [[c rest]|]; eauto.
Qed.

Lemma try_inner_loop_scan players i range s :
  i < length players → (∀ j, j ∈ range → j < length players) →
  try_inner_loop players i range s =
  match first_unplayed (played_matches s)
          ((λ j, (players !!! i, players !!! j)) <$> range) with
  | Raise e => (Raise e, s)
  | Return None => (Return None, s)
  | Return (Some mt) =>
      match generate_round_configuration_from_match mt s with
      | (Return r, s') => (Return (Some r), s')
      | (Raise e, s') => (Raise e, s')
      end
  end.
Proof.
  intros Hi. induction range as [|j range IH]; intros Hrange; simpl; [done|].
  assert (j < length players) as Hj by (apply Hrange; left).
  unfold bind at 1. unfold lift at 1. rewrite index_nat by done.
  unfold bind at 1. unfold lift at 1. rewrite index_nat by done.
  unfold bind at 1. unfold lift at 1.
  destruct (sorted_pair (players !!! i) (players !!! j)) as [mt|e]; simpl;
    [|done].
  unfold bind at 1. unfold gets at 1.
  case_decide.
  - unfold bind, ret.
    by destruct (generate_round_configuration_from_match mt s) as [[r|e] s'].
  - apply IH. intros j' Hj'. apply Hrange. by right.
Qed.

Lemma try_outer_loop_scan players range s :
  (∀ i, i ∈ range → i < length players) →
  try_outer_loop players range s =
  match first_unplayed (played_matches s) (range ≫= row players) with
  | Raise e => (Raise e, s)
  | Return None => (Return None, s)
  | Return (Some mt) =>
      match generate_round_configuration_from_match mt s with
      | (Return r, s') => (Return (Some r), s')
      | (Raise e, s') => (Raise e, s')
      end
  end.
Proof.
  induction range as [|i range IH]; intros Hrange; simpl; [done|].
  unfold bind at 1. rewrite try_inner_loop_scan.
  - rewrite first_unplayed_app. fold (row players i).
    destruct (first_unplayed (played_matches s) (row players i))
      as [[mt|]|e]; simpl.
    + by destruct (generate_round_configuration_from_match mt s) as [[r|e] s'].
    + apply IH. intros i' Hi'. apply Hrange. by right.
    + done.
  - apply Hrange. left.
  - intros j [_ Hj]%elem_of_seq. assert (i < length players); [|lia].
    apply Hrange. left.
Qed.

Lemma index_pairs_ordered_pairs players :
  seq 0 (length players) ≫= row players = ordered_pairs players.
Proof.
  induction players as [|x l IH]; [done|].
  cbn [length seq mbind list_bind ordered_pairs]. f_equal.
  - unfold row. cbn [length]. clear IH.
    replace (S (length l) - (0 + 1)) with (length l) by lia.
    change (0 + 1) with 1.
    rewrite <- (fmap_S_seq 0), <- list_fmap_compose.
    apply list_eq. intros j. rewrite !list_lookup_fmap.
    destruct (decide (j < length l)) as [Hj|Hj].
    + rewrite lookup_seq_lt by done. simpl.
      by rewrite (list_lookup_lookup_total_lt l j Hj).
    + rewrite lookup_seq_ge by lia. by rewrite lookup_ge_None_2 by lia.
  - rewrite <- IH. rewrite <- (fmap_S_seq 0).
    rewrite list_fmap_bind. apply list_bind_ext; [|done].
    intros i. unfold row, compose. cbn [length].
    replace (S i + 1) with (S (i + 1)) by lia.
    rewrite <- fmap_S_seq, <- list_fmap_compose.
    replace (S (length l) - S (i + 1)) with (length l - (i + 1)) by lia.
    done.
Qed.

Lemma try_to_generate_next_round_scan players s :
  try_to_generate_next_round players s =
  scan_result (first_unplayed (played_matches s) (ordered_pairs players)) s.
Proof.
  unfold try_to_generate_next_round, scan_result. unfold bind at 1.
  rewrite try_outer_loop_scan by (by intros i [_ Hi]%elem_of_seq).
  rewrite index_pairs_ordered_pairs.
  destruct (first_unplayed (played_matches s) (ordered_pairs players))
    as [[mt|]|e]; try done.
  destruct (from_match_Return mt s) as (r & s' & Heq). by rewrite Heq.
Qed.

(** ** Ranking-weighted selection *)

Lemma scan_result_cases found s o s' :
  scan_result found s = (o, s') →
  (s' = s ∧ returned o = None) ∨
  (∃ mt c rest, select mt (possibles_configurations s) = Some (c, rest) ∧
                o = Return (Some c) ∧ s' = after_selection c rest s).
Proof.
  unfold scan_result. destruct found as [[mt|]|e].
  - rewrite generate_round_configuration_from_match_select.
    destruct (select mt (possibles_configurations s)) as [[c rest]|] eqn:Hsel.
    + intros [= <- <-]. right. eauto 6.
    + intros [= <- <-]. by left.
  - intros [= <- <-]. by left.
  - intros [= <- <-]. by left.
Qed.

Lemma ranking_loop_truthy d keys acc c s :
  c ≠ ∅ → ranking_loop d keys acc (Some c) s = (Return (Some c), s).
Proof.
  intros Hc. destruct keys; simpl; [done|].
  by rewrite bool_decide_eq_true_2.
Qed.

Lemma ranking_loop_stages d keys acc s :
  ranking_loop d keys acc None s = ranking_stages d keys acc s.
Proof.
  revert acc. induction keys as [|k keys IH]; intros acc; simpl; [done|].
  unfold bind at 1. unfold lift at 1.
  destruct (Py.dict_get d k) as [players|e]; [|done].
  unfold bind. rewrite try_to_generate_next_round_scan.
  destruct (scan_result _ s) as [o s'] eqn:Hscan.
  destruct (scan_result_cases _ _ _ _ Hscan)
    as [[-> Hret]|(mt & c & rest & Hsel & -> & ->)].
  - destruct o as [[c|]|e]; [done| |done]. apply IH.
  - apply ranking_loop_truthy.
    apply select_Some_inv in Hsel as (_ & _ & _ & _ & Hmt & _). set_solver.
Qed.

Lemma generate_next_round_from_ranking_stages d s :
  generate_next_round_from_ranking d s =
  match Py.sorted int_key d.*1 with
  | Return ranking_key => ranking_stages d ranking_key [] s
  | Raise e => (Raise e, s)
  end.
Proof.
  unfold generate_next_round_from_ranking, bind, lift.
  destruct (Py.sorted int_key d.*1); [|done]. apply ranking_loop_stages.
Qed.

Lemma ranking_stages_cases d keys acc s o s' :
  ranking_stages d keys acc s = (o, s') →
  (s' = s ∧ returned o = None) ∨
  (∃ mt c rest, select mt (possibles_configurations s) = Some (c, rest) ∧
                o = Return (Some c) ∧ s' = after_selection c rest s).
Proof.
  revert acc. induction keys as [|k keys IH]; intros acc; simpl.
  - intros [= <- <-]. by left.
  - destruct (Py.dict_get d k) as [players|e]; [|intros [= <- <-]; by left].
    destruct (scan_result _ s) as [o1 s1] eqn:Hscan.
    destruct (scan_result_cases _ _ _ _ Hscan)
      as [[-> Hret]|(mt & c & rest & Hsel & -> & ->)].
    + destruct o1 as [[c|]|e]; [done|apply IH|intros [= <- <-]; by left].
    + intros [= <- <-]. right. eauto 6.
Qed.

(** ** One call, seen as a step *)

Lemma select_selects mt s c rest :
  select mt (possibles_configurations s) = Some (c, rest) →
  selects s c (after_selection c rest s).
Proof.
  intros (l1 & l2 & Hl & -> & _)%select_Some_inv. by exists l1, l2.
Qed.

Lemma do_call_step cl s o s' :
  do_call cl s = (o, s') →
  match returned o with
  | Some c => selects s c s'
  | None => s' = s
  end.
Proof.
  destruct cl as [|mt|d]; simpl.
  - destruct (possibles_configurations s) as [|c0 l0] eqn:Hposs
      using rev_ind.
    + unfold bind. rewrite generate_first_round_configuration_empty by done.
      by intros [= <- <-].
    + unfold bind.
      rewrite (generate_first_round_configuration_snoc s l0 c0) by done.
      unfold ret. intros [= <- <-]. simpl.
      exists l0, []. by rewrite app_nil_r.
  - rewrite generate_round_configuration_from_match_select.
    destruct (select mt (possibles_configurations s)) as [[c rest]|] eqn:Hsel.
    + intros [= <- <-]. simpl. by eapply select_selects.
    + by intros [= <- <-].
  - rewrite generate_next_round_from_ranking_stages.
    destruct (Py.sorted int_key d.*1) as [keys|e]; [|by intros [= <- <-]].
    intros [[-> ->]|(mt & c & rest & Hsel & -> & ->)]%ranking_stages_cases.
    + done.
    + simpl. by eapply select_selects.
Qed.

(** ** Construction *)

Lemma filter_ext_elem {A} (P Q : A → Prop) `{∀ x, Decision (P x)}
    `{∀ x, Decision (Q x)} (l : list A) :
  (∀ x, x ∈ l → P x ↔ Q x) → filter P l = filter Q l.
Proof.
  induction l as [|x l IH]; intros Hext; [done|].
  rewrite !filter_cons.
  assert (filter P l = filter Q l) as ->.
  { apply IH. intros y Hy. apply Hext. by right. }
  destruct (decide (P x)) as [HP|HP], (decide (Q x)) as [HQ|HQ]; try done;
    exfalso; [apply HQ|apply HP]; by apply (Hext x); [left|].
Qed.

Lemma filter_all {A} (P : A → Prop) `{∀ x, Decision (P x)} (l : list A) :
  (∀ x, x ∈ l → P x) → filter P l = l.
Proof.
  induction l as [|x l IH]; intros Hall; [done|].
  rewrite filter_cons_True by (apply Hall; left).
  f_equal. apply IH. intros y Hy. apply Hall. by right.
Qed.

Lemma instantiate_pairing_numbers shuffle roster a played :
  (∀ x, x ∈ a → has_number x) →
  instantiate_pairing shuffle roster a played = Return (restored roster a played).
Proof.
  intros Hnum. unfold instantiate_pairing, __init__. simpl.
  rewrite (generate_circle_configurations_numbers a) by done.
  unfold restored, set_played, set_possibles, set_initial. simpl.
  f_equal. f_equal; [|apply union_empty_l_L].
  apply filter_ext_elem. intros c _. by rewrite union_empty_l_L.
Qed.

Lemma init_numbers shuffle roster :
  (∀ x, x ∈ shuffle roster → has_number x) →
  __init__ shuffle roster true = Return (restored roster (shuffle roster) []).
Proof.
  intros Hnum. unfold __init__, randomize_players. simpl.
  rewrite (generate_circle_configurations_numbers (shuffle roster)) by done.
  unfold restored, set_possibles. simpl. f_equal. f_equal.
  symmetry. apply filter_all. intros c _. set_solver.
Qed.

Lemma built_restored shuffle roster e :
  (∀ l, shuffle l ≡ₚ l) → (∀ x, x ∈ roster → has_number x) →
  built shuffle roster e →
  ∃ a played, a ≡ₚ roster ∧ e = restored roster a played.
Proof.
  intros Hshuffle Hnum [Hinit|(a & played & Ha & Hinst)].
  - exists (shuffle roster), []. split; [done|].
    rewrite init_numbers in Hinit.
    + by injection Hinit.
    + intros x Hx. apply Hnum. by rewrite <- (Hshuffle roster).
  - exists a, played. split; [done|].
    rewrite instantiate_pairing_numbers in Hinst.
    + by injection Hinst.
    + intros x Hx. apply Hnum. by rewrite <- Ha.
Qed.

(** ** The schedule of an even arrangement of distinct players *)

Lemma pairwise_disjoint_lookup l :
  pairwise_disjoint l ↔
  ∀ i j ci cj, i ≠ j → l !! i = Some ci → l !! j = Some cj → ci ## cj.
Proof.
  induction l as [|c l IH]; simpl.
  - split; [|done]. by intros _ i j ci cj _ Hi.
  - split.
    + intros [Hc Hl] i j ci cj Hij Hi Hj.
      destruct i as [|i], j as [|j]; simpl in *; simplify_eq.
      * apply Hc. by eapply list_elem_of_lookup_2.
      * symmetry. apply Hc. by eapply list_elem_of_lookup_2.
      * apply (proj1 IH Hl i j); [lia|done..].
    + intros Hall. split.
      * intros c' [j Hj]%list_elem_of_lookup_1.
        by apply (Hall 0 (S j)).
      * apply IH. intros i j ci cj Hij Hi Hj.
        apply (Hall (S i) (S j)); [lia|done..].
Qed.

Lemma pairwise_disjoint_filter (P : gset (string * string) → Prop)
    `{∀ c, Decision (P c)} l :
  pairwise_disjoint l → pairwise_disjoint (filter P l).
Proof.
  induction l as [|c l IH]; [done|]. intros [Hc Hl].
  rewrite filter_cons. destruct (decide (P c)); [|by apply IH].
  split; [|by apply IH].
  intros c' [_ Hc']%list_elem_of_filter. by apply Hc.
Qed.

Lemma pairwise_disjoint_app_cons l1 c l2 :
  pairwise_disjoint (l1 ++ c :: l2) →
  pairwise_disjoint (l1 ++ l2) ∧ ∀ c', c' ∈ l1 ++ l2 → c ## c'.
Proof.
  induction l1 as [|c1 l1 IH]; simpl.
  - intros [Hc Hl]. done.
  - intros [Hc1 Hl]. destruct (IH Hl) as [Hpd Hc]. split_and!.
    + intros c' Hc'. apply Hc1. set_solver.
    + done.
    + intros c' [->|Hc']%elem_of_cons; [|by apply Hc].
      symmetry. apply Hc1. set_solver.
Qed.

Lemma pairwise_disjoint_nodup l :
  pairwise_disjoint l → (∀ c, c ∈ l → c ≠ ∅) → NoDup l.
Proof.
  induction l as [|c l IH]; [constructor|].
  intros [Hc Hl] Hne. constructor.
  - intros Hin. assert (c ## c) as Hd by (by apply Hc).
    apply (Hne c); [left|]. set_solver.
  - apply IH; [done|]. intros c' Hc'. apply Hne. by right.
Qed.

Section even_schedule.
Variable a : list string.
Hypothesis a_nodup : NoDup a.
Hypothesis a_even : Nat.Even (length a).

Lemma schedule_small : length a < 2 → schedule a = [].
Proof.
  intros Hl. unfold schedule. by replace (length a - 1) with 0 by lia.
Qed.

Lemma schedule_pairwise_disjoint : pairwise_disjoint (schedule a).
Proof.
  destruct (decide (2 ≤ length a)) as [Hl|Hl].
  - destruct (even_length_half a a_even Hl) as (m & Hm & Hm1).
    apply pairwise_disjoint_lookup. intros i j ci cj Hij Hi Hj.
    by apply (schedule_disjoint a m a_nodup Hm Hm1 i j).
  - rewrite schedule_small by lia. done.
Qed.

Lemma schedule_elem_nonempty c : c ∈ schedule a → c ≠ ∅.
Proof.
  destruct (decide (2 ≤ length a)) as [Hl|Hl].
  - destruct (even_length_half a a_even Hl) as (m & Hm & Hm1).
    by apply (schedule_nonempty a m).
  - rewrite schedule_small by lia. by intros ?%elem_of_nil.
Qed.

Lemma schedule_nodup : NoDup (schedule a).
Proof.
  apply pairwise_disjoint_nodup;
    [apply schedule_pairwise_disjoint|apply schedule_elem_nonempty].
Qed.

Lemma restored_inv roster played :
  no_repeat_inv (restored roster a played).
Proof.
  split.
  - apply pairwise_disjoint_lookup, pairwise_disjoint_filter,
      schedule_pairwise_disjoint.
  - simpl. intros c [Hc _]%list_elem_of_filter. set_solver.
Qed.

End even_schedule.

(** ** No match is offered twice *)

Lemma no_repeat_inv_alt s :
  no_repeat_inv s ↔
  pairwise_disjoint (possibles_configurations s) ∧
  ∀ c, c ∈ possibles_configurations s → c ## played_matches s.
Proof. unfold no_repeat_inv. by rewrite <- pairwise_disjoint_lookup. Qed.

Lemma selects_inv s c s' :
  no_repeat_inv s → selects s c s' →
  no_repeat_inv s' ∧ c ## played_matches s ∧
  played_matches s' = played_matches s ∪ c.
Proof.
  rewrite !no_repeat_inv_alt. intros [Hpd Hpl] (l1 & l2 & Hposs & ->).
  rewrite Hposs in Hpd, Hpl. simpl.
  destruct (pairwise_disjoint_app_cons _ _ _ Hpd) as [Hpd' Hc].
  split_and!; [done| |apply Hpl; set_solver|done].
  intros c' Hc'. specialize (Hc c' Hc').
  assert (c' ## played_matches s) by (apply Hpl; set_solver).
  set_solver.
Qed.

Lemma run_cons cl calls s :
  run (cl :: calls) s =
  ((do_call cl s).1 :: (run calls (do_call cl s).2).1,
   (run calls (do_call cl s).2).2).
Proof.
  simpl. destruct (do_call cl s) as [o s1]. simpl.
  by destruct (run calls s1) as [os s2].
Qed.

Lemma run_no_repeat calls s os s' :
  no_repeat_inv s → run calls s = (os, s') →
  no_repeat_inv s' ∧ played_matches s ⊆ played_matches s' ∧
  (∀ i c, os !! i = Some (Return (Some c)) →
          c ## played_matches s ∧ c ⊆ played_matches s') ∧
  (∀ i j ci cj, i ≠ j → os !! i = Some (Return (Some ci)) →
                os !! j = Some (Return (Some cj)) → ci ## cj).
Proof.
  revert s os s'. induction calls as [|cl calls IH]; intros s os s' Hinv.
  - intros [= <- <-]. split; [done|]. split; [done|]. split; by intros i.
  - rewrite run_cons. destruct (do_call cl s) as [o s1] eqn:Hcall.
    cbn [fst snd].
    destruct (run calls s1) as [os1 s2] eqn:Hrun. cbn [fst snd].
    intros [= <- <-]. apply do_call_step in Hcall.
    assert (no_repeat_inv s1 ∧ played_matches s ⊆ played_matches s1 ∧
            ∀ c, o = Return (Some c) →
                 c ## played_matches s ∧ c ⊆ played_matches s1)
      as (Hinv1 & Hsub1 & Ho).
    { destruct o as [[c|]|e]; simpl in Hcall.
      - destruct (selects_inv _ _ _ Hinv Hcall) as (H1 & H2 & H3).
        split; [done|]. split; [set_solver|].
        intros c' [= <-]. set_solver.
      - subst s1. split; [done|]. split; [done|]. by intros c.
      - subst s1. split; [done|]. split; [done|]. by intros c. }
    destruct (IH s1 os1 s2 Hinv1 Hrun) as (Hinv2 & Hsub2 & Hret & Hdisj).
    split; [done|]. split; [set_solver|]. split.
    + intros [|i] c Hi; simpl in Hi.
      * injection Hi as ->. destruct (Ho c eq_refl). set_solver.
      * destruct (Hret i c Hi). set_solver.
    + intros [|i] [|j] ci cj Hij Hi Hj; simpl in Hi, Hj.
      * done.
      * injection Hi as ->. destruct (Ho ci eq_refl).
        destruct (Hret j cj Hj). set_solver.
      * injection Hj as ->. destruct (Ho cj eq_refl).
        destruct (Hret i ci Hi). set_solver.
      * apply (Hdisj i j); [lia|done..].
Qed.

(** C2.  On an engine built from an even-sized roster of distinct players,
    by the constructor or by [instantiate_pairing], and after any sequence
    of selection calls: two configurations returned by two different calls
    of the sequence share no match, and in the state reached the remaining
    configurations are pairwise disjoint and disjoint from the played-match
    memory. *)
Theorem no_repeat_guarantee (shuffle : list string → list string)
    (roster : list string) (e : Pairing) (calls : list call)
    (os : list (result (option (gset (string * string))))) (s' : Pairing) :
  (∀ l, shuffle l ≡ₚ l) →
  NoDup roster → Nat.Even (length roster) →
  (∀ x, x ∈ roster → has_number x) →
  built shuffle roster e →
  run calls e = (os, s') →
  (∀ i j ci cj, i ≠ j →
     os !! i = Some (Return (Some ci)) → os !! j = Some (Return (Some cj)) →
     ci ## cj) ∧
  no_repeat_inv s'.
Proof.
  intros Hshuffle Hnd Heven Hnum Hbuilt Hrun.
  destruct (built_restored shuffle roster e Hshuffle Hnum Hbuilt)
    as (a & played & Ha & ->).
  assert (no_repeat_inv (restored roster a played)) as Hinv.
  { apply restored_inv; by rewrite Ha. }
  destruct (run_no_repeat _ _ _ _ Hinv Hrun) as (Hinv' & _ & _ & Hdisj).
  done.
Qed.

Lemma four_players_built :
  built id four_players (restored four_players four_players []).
Proof. left. apply init_numbers. exact four_players_numbers. Qed.

Lemma id_shuffle (l : list string) : id l ≡ₚ l.
Proof. done. Qed.

Lemma no_repeat_guarantee_witness :
  no_repeat_inv (run four_calls (restored four_players four_players [])).2.
Proof.
  apply (no_repeat_guarantee id four_players
           (restored four_players four_players []) four_calls
           (run four_calls (restored four_players four_players [])).1
           (run four_calls (restored four_players four_players [])).2).
  - exact id_shuffle.
  - exact four_players_nodup.
  - exists 2. reflexivity.
  - exact four_players_numbers.
  - exact four_players_built.
  - apply surjective_pairing.
Defined.

(** ** Anchor-based selection *)

(** C7.  [generate_round_configuration_from_match] returns a configuration
    exactly when some remaining configuration holds the match.  In that
    case the returned configuration is the first one that holds it, it is
    taken out of the remaining schedule, whose other configurations stay in
    their order, and all its matches are added to the memory.  Otherwise
    the call returns [None] and the object is unchanged. *)
Theorem anchor_selection (mt : string * string) (s : Pairing) :
  ((∃ c, (generate_round_configuration_from_match mt s).1 = Return (Some c)) ↔
   (∃ c, c ∈ possibles_configurations s ∧ mt ∈ c)) ∧
  ((∃ l1 c l2,
      possibles_configurations s = l1 ++ c :: l2 ∧
      mt ∈ c ∧ (∀ c', c' ∈ l1 → mt ∉ c') ∧
      generate_round_configuration_from_match mt s =
      (Return (Some c),
       mkPairing (list_of_players s) (initial_configuration s) (l1 ++ l2)
                 (played_matches s ∪ c))) ∨
   ((∀ c, c ∈ possibles_configurations s → mt ∉ c) ∧
    generate_round_configuration_from_match mt s = (Return None, s))).
Proof.
  rewrite generate_round_configuration_from_match_select.
  destruct (select mt (possibles_configurations s)) as [[c rest]|] eqn:Hsel.
  - apply select_Some_inv in Hsel as (l1 & l2 & Hl & -> & Hmt & Hl1).
    split.
    + split; [|by eauto]. intros _. exists c. split; [|done].
      rewrite Hl. set_solver.
    + left. exists l1, c, l2. by split_and!.
  - pose proof (proj1 (select_None _ _) Hsel) as Hnone. split.
    + split; [by intros [c [=]]|]. intros (c & Hc & Hmt).
      by destruct (Hnone c Hc).
    + by right.
Qed.

(** ** Reconstruction *)

Lemma pairwise_disjoint_elem l c c' :
  pairwise_disjoint l → c ∈ l → c' ∈ l → c ≠ c' → c ## c'.
Proof.
  intros Hpd [i Hi]%list_elem_of_lookup_1 [j Hj]%list_elem_of_lookup_1 Hne.
  apply (proj1 (pairwise_disjoint_lookup l) Hpd i j); [|done..].
  intros ->. congruence.
Qed.

Lemma filter_remove_middle (P : gset (string * string) → Prop)
    `{∀ c, Decision (P c)} sched l1 c l2 :
  NoDup sched → filter P sched = l1 ++ c :: l2 →
  filter (λ x, x ≠ c ∧ P x) sched = l1 ++ l2.
Proof.
  intros Hnd Hf. rewrite <- list_filter_filter, Hf.
  assert (NoDup (l1 ++ c :: l2)) as Hnd'.
  { rewrite <- Hf. by apply NoDup_filter. }
  apply NoDup_app in Hnd' as (Hnd1 & Hnot & Hnd2).
  apply NoDup_cons in Hnd2 as [Hc2 _].
  rewrite filter_app, filter_cons_False by (intros Hcc; by apply Hcc).
  rewrite !filter_all; [done|..].
  - intros x Hx ->. done.
  - intros x Hx ->. apply (Hnot c Hx). left.
Qed.

Section tracking.
Variables (roster a : list string).
Hypothesis sched_nodup : NoDup (schedule a).

Lemma selects_tracked S s c s' :
  tracked roster a S s → selects s c s' → tracked roster a (c :: S) s'.
Proof.
  intros (Hlop & Hinit & HS & Hpl & Hposs) (l1 & l2 & Hl & ->).
  unfold tracked. simpl. split_and!; [done|done|..].
  - intros c' [->|Hc']%elem_of_cons; [|by apply HS].
    assert (c ∈ possibles_configurations s) as Hc by (rewrite Hl; set_solver).
    rewrite Hposs in Hc. by apply list_elem_of_filter in Hc as [_ Hc].
  - rewrite Hpl. set_solver.
  - rewrite Hposs in Hl.
    rewrite <- (filter_remove_middle _ _ _ _ _ sched_nodup Hl).
    apply filter_ext_elem. intros x _. rewrite not_elem_of_cons. done.
Qed.

Lemma run_tracked calls S s os s' :
  tracked roster a S s → run calls s = (os, s') →
  ∃ S', tracked roster a S' s' ∧
        (∀ c, c ∈ S' ↔ c ∈ omap returned os ∨ c ∈ S).
Proof.
  revert S s os s'. induction calls as [|cl calls IH]; intros S s os s' Htr.
  - intros [= <- <-]. exists S. split; [done|]. simpl. set_solver.
  - rewrite run_cons. destruct (do_call cl s) as [o s1] eqn:Hcall.
    cbn [fst snd].
    destruct (run calls s1) as [os1 s2] eqn:Hrun. cbn [fst snd].
    intros [= <- <-]. apply do_call_step in Hcall.
    destruct (returned o) as [c|] eqn:Hret.
    + destruct (IH (c :: S) s1 os1 s2) as (S' & Htr' & HS');
        [by apply (selects_tracked S s)|done|].
      exists S'. split; [done|]. intros c'. rewrite HS'.
      cbn [omap list_omap]. rewrite Hret. set_solver.
    + subst s1. destruct (IH S s os1 s2 Htr Hrun) as (S' & Htr' & HS').
      exists S'. split; [done|]. intros c'. rewrite HS'.
      cbn [omap list_omap]. by rewrite Hret.
Qed.

End tracking.

Lemma restore_filter (sched S : list (gset (string * string))) :
  pairwise_disjoint sched → (∀ c, c ∈ sched → c ≠ ∅) →
  (∀ c, c ∈ S → c ∈ sched) →
  filter (λ c, c ∩ ⋃ S = ∅) sched = filter (λ c, c ∉ S) sched.
Proof.
  intros Hpd Hne HS. apply filter_ext_elem. intros c Hc. split.
  - intros Hcap HcS. apply (Hne c Hc).
    assert (c ⊆ ⋃ S).
    { intros t Ht. apply elem_of_union_list. eauto. }
    set_solver.
  - intros HcS. apply elem_of_equiv_empty_L. intros t.
    rewrite elem_of_intersection, elem_of_union_list.
    intros (Ht & c' & Hc' & Ht').
    assert (c ## c') as Hd.
    { apply (pairwise_disjoint_elem sched); [done|done|by apply HS|].
      intros ->. done. }
    set_solver.
Qed.

Lemma restored_tracked roster a played S :
  NoDup a → Nat.Even (length a) →
  (∀ c, c ∈ S → c ∈ schedule a) → list_to_set played = ⋃ S →
  tracked roster a S (restored roster a played).
Proof.
  intros Hnd Heven HS Hpl. unfold tracked, restored. simpl.
  split_and!; [done|done|done|done|]. rewrite Hpl.
  apply restore_filter; [|intros c Hc|done].
  - by apply schedule_pairwise_disjoint.
  - by apply (schedule_elem_nonempty a).
Qed.

Lemma tracked_restored roster a S s played :
  NoDup a → Nat.Even (length a) →
  tracked roster a S s → list_to_set played = played_matches s →
  s = restored roster a played.
Proof.
  intros Hnd Heven (Hlop & Hinit & HS & Hpl & Hposs) Hplayed.
  destruct s as [lop ini poss pl]. simpl in *. subst lop ini.
  unfold restored. rewrite Hplayed. f_equal. rewrite Hposs, Hpl.
  symmetry. apply restore_filter; [|intros c Hc|done].
  - by apply schedule_pairwise_disjoint.
  - by apply (schedule_elem_nonempty a).
Qed.

(** C3.  Take an engine of an even-sized roster of distinct players that
    was built by the constructor, or restored from a history made of whole
    configurations of its schedule, and let it go through any sequence of
    selection calls.  Its memory is then the union of a set [S] of
    configurations of the schedule, which holds every configuration it
    returned, and its remaining schedule is the schedule without [S], in
    the order of the schedule.  [instantiate_pairing], given the roster, the
    arrangement and any list of the played matches, returns that very
    state: the same remaining configurations and the same memory. *)
Theorem reconstruction_idempotence (shuffle : list string → list string)
    (roster a : list string) (e : Pairing) (calls : list call)
    (os : list (result (option (gset (string * string))))) (s : Pairing)
    (played : list (string * string)) :
  (∀ l, shuffle l ≡ₚ l) →
  NoDup roster → Nat.Even (length roster) →
  (∀ x, x ∈ roster → has_number x) →
  a ≡ₚ roster →
  (__init__ shuffle roster true = Return e ∧ a = shuffle roster) ∨
  (∃ played0, consistent_history a played0 ∧
              instantiate_pairing shuffle roster a played0 = Return e) →
  run calls e = (os, s) →
  list_to_set played = played_matches s →
  ∃ S : list (gset (string * string)),
    (∀ c, c ∈ S → c ∈ schedule a) ∧
    (∀ c, c ∈ omap returned os → c ∈ S) ∧
    played_matches s = ⋃ S ∧
    possibles_configurations s = filter (λ c, c ∉ S) (schedule a) ∧
    instantiate_pairing shuffle roster a played = Return s.
Proof.
  intros Hshuffle Hnd Heven Hnum Ha Horigin Hrun Hplayed.
  assert (NoDup a) as Hnda by (by rewrite Ha).
  assert (Nat.Even (length a)) as Hevena by (by rewrite Ha).
  assert (∀ x, x ∈ a → has_number x) as Hnuma.
  { intros x Hx. apply Hnum. by rewrite <- Ha. }
  assert (∃ S0, tracked roster a S0 e) as [S0 Htr0].
  { destruct Horigin as [[Hinit ->]|(played0 & (S0 & HS0 & Hpl0) & Hinst)].
    - rewrite init_numbers in Hinit by done. injection Hinit as <-.
      exists []. apply restored_tracked; [done|done| |done].
      by intros c ?%elem_of_nil.
    - rewrite instantiate_pairing_numbers in Hinst by done.
      injection Hinst as <-. exists S0. by apply restored_tracked. }
  destruct (run_tracked roster a (schedule_nodup a Hnda Hevena)
              calls S0 e os s Htr0 Hrun) as (S & Htr & HS).
  exists S. pose proof Htr as (_ & _ & HSa & Hpl & Hposs).
  split_and!; [done| |done|done|].
  - intros c Hc. apply HS. by left.
  - rewrite instantiate_pairing_numbers by done. f_equal. symmetry.
    by apply (tracked_restored roster a S).
Qed.

Lemma reconstruction_idempotence_witness :
  instantiate_pairing id four_players four_players
    (elements (played_matches
                 (run four_calls (restored four_players four_players [])).2))
  = Return (run four_calls (restored four_players four_players [])).2.
Proof.
  destruct (reconstruction_idempotence id four_players four_players
              (restored four_players four_players []) four_calls
              (run four_calls (restored four_players four_players [])).1
              (run four_calls (restored four_players four_players [])).2
              (elements (played_matches
                 (run four_calls (restored four_players four_players [])).2)))
    as (S & _ & _ & _ & _ & Hinst).
  - exact id_shuffle.
  - exact four_players_nodup.
  - exists 2. reflexivity.
  - exact four_players_numbers.
  - reflexivity.
  - left. split; [|reflexivity]. apply init_numbers.
    exact four_players_numbers.
  - apply surjective_pairing.
  - apply list_to_set_elements_L.
  - exact Hinst.
Defined.

(** ** Exhaustion *)

Lemma selects_length s c s' :
  selects s c s' →
  length (possibles_configurations s) =
  S (length (possibles_configurations s')).
Proof.
  intros (l1 & l2 & Hl & ->). rewrite Hl. simpl.
  rewrite !length_app. simpl. lia.
Qed.

Lemma run_length calls s os s' :
  run calls s = (os, s') →
  length (possibles_configurations s) =
  length (possibles_configurations s') + length (omap returned os).
Proof.
  revert s os s'. induction calls as [|cl calls IH]; intros s os s'.
  - intros [= <- <-]. simpl. lia.
  - rewrite run_cons. destruct (do_call cl s) as [o s1] eqn:Hcall.
    cbn [fst snd].
    destruct (run calls s1) as [os1 s2] eqn:Hrun. cbn [fst snd].
    intros [= <- <-]. apply do_call_step in Hcall. apply IH in Hrun.
    cbn [omap list_omap]. destruct (returned o) as [c|].
    + apply selects_length in Hcall. simpl. lia.
    + subst s1. lia.
Qed.

Lemma exhausted_no_configuration cl s o s' :
  possibles_configurations s = [] → do_call cl s = (o, s') →
  returned o = None ∧ s' = s.
Proof.
  intros Hposs Hcall. apply do_call_step in Hcall.
  destruct (returned o) as [c|]; [|done].
  destruct Hcall as (l1 & l2 & Hl & _). rewrite Hposs in Hl.
  by destruct l1.
Qed.

(** C4.  On an engine built from an even-sized roster of [N] distinct
    players, after a sequence of calls of which [N - 1] returned a
    configuration, the remaining schedule is empty and no further attempt
    returns a configuration: [generate_first_round_configuration] raises
    [IndexError] (the [pop] of an empty list), and
    [generate_next_round_from_ranking] and
    [generate_round_configuration_from_match] give no configuration
    ([None], or the exception of a malformed ranking); the object is left
    as it is. *)
Theorem exhaustion (shuffle : list string → list string)
    (roster : list string) (e : Pairing) (calls : list call)
    (os : list (result (option (gset (string * string))))) (s : Pairing) :
  (∀ l, shuffle l ≡ₚ l) →
  NoDup roster → Nat.Even (length roster) →
  (∀ x, x ∈ roster → has_number x) →
  built shuffle roster e →
  run calls e = (os, s) →
  length (omap returned os) = length roster - 1 →
  possibles_configurations s = [] ∧
  generate_first_round_configuration s = (Raise IndexError, s) ∧
  (∀ dict_ranking,
     ∃ o, generate_next_round_from_ranking dict_ranking s = (o, s) ∧
          returned o = None) ∧
  (∀ mt, generate_round_configuration_from_match mt s = (Return None, s)).
Proof.
  intros Hshuffle Hnd Heven Hnum Hbuilt Hrun Hcount.
  destruct (built_restored shuffle roster e Hshuffle Hnum Hbuilt)
    as (a & played & Ha & ->).
  assert (possibles_configurations s = []) as Hposs.
  { apply run_length in Hrun. simpl in Hrun.
    pose proof (length_filter (λ c, c ∩ list_to_set played = ∅) (schedule a))
      as Hle.
    rewrite schedule_length in Hle.
    assert (length a = length roster) as Hlen by (by rewrite Ha).
    apply length_zero_iff_nil. lia. }
  split_and!; [done| | |].
  - by apply generate_first_round_configuration_empty.
  - intros d.
    destruct (generate_next_round_from_ranking d s) as [o s'] eqn:Hcall.
    destruct (exhausted_no_configuration (FromRanking d) s o s' Hposs Hcall)
      as [Hret ->].
    by exists o.
  - intros mt. rewrite generate_round_configuration_from_match_select.
    by rewrite Hposs.
Qed.

Lemma exhaustion_witness :
  generate_first_round_configuration
    (run three_first_rounds (restored four_players four_players [])).2
  = (Raise IndexError,
     (run three_first_rounds (restored four_players four_players [])).2).
Proof.
  destruct (exhaustion id four_players
              (restored four_players four_players []) three_first_rounds
              (run three_first_rounds (restored four_players four_players [])).1
              (run three_first_rounds (restored four_players four_players [])).2)
    as (_ & Hfirst & _).
  - exact id_shuffle.
  - exact four_players_nodup.
  - exists 2. reflexivity.
  - exact four_players_numbers.
  - exact four_players_built.
  - apply surjective_pairing.
  - vm_compute. reflexivity.
  - exact Hfirst.
Defined.

(** ** Construction does not validate the roster *)

(** C5, counterexample.  The empty roster is malformed and the constructor
    returns an engine for it. *)
Lemma malformed_roster_accepted :
  ¬ ∀ roster, malformed roster → is_Raise (__init__ id roster true).
Proof.
  intros Hevery. destruct (Hevery [] (or_introl eq_refl)) as [e He].
  vm_compute in He. discriminate He.
Qed.

(** C5, amended.  The constructor does not check the roster: for every
    roster whose identifiers carry a number, be it odd, empty or with
    duplicates, and whatever the shuffle, it returns an engine, with the
    roster, the shuffled arrangement, [len - 1] configurations (none for
    the empty roster) and an empty memory. *)
Theorem construction_performs_no_validation
    (shuffle : list string → list string) (roster : list string) :
  shuffle roster ≡ₚ roster →
  (∀ x, x ∈ roster → has_number x) →
  ∃ e, __init__ shuffle roster true = Return e ∧
       list_of_players e = roster ∧
       initial_configuration e = Some (shuffle roster) ∧
       length (possibles_configurations e) = length roster - 1 ∧
       played_matches e = ∅.
Proof.
  intros Hshuffle Hnum. unfold __init__, randomize_players. simpl.
  rewrite (generate_circle_configurations_numbers (shuffle roster)); [|done|].
  - eexists. split; [done|]. simpl. split_and!; [done|done| |done].
    by rewrite schedule_length, Hshuffle.
  - intros x Hx. apply Hnum. by rewrite <- Hshuffle.
Qed.

Lemma odd_duplicate_roster_numbers x :
  x ∈ odd_duplicate_roster → has_number x.
Proof.
  unfold odd_duplicate_roster. rewrite !elem_of_cons, elem_of_nil.
  intros [->|[->|[->|[]]]]; eexists; vm_compute; reflexivity.
Qed.

Lemma construction_performs_no_validation_witness :
  malformed odd_duplicate_roster ∧
  ∃ e, __init__ id odd_duplicate_roster true = Return e ∧
       length (possibles_configurations e) = 2.
Proof.
  split.
  - right. left. exists 1. reflexivity.
  - destruct (construction_performs_no_validation id odd_duplicate_roster)
      as (e & Hinit & _ & _ & Hlen & _).
    + reflexivity.
    + exact odd_duplicate_roster_numbers.
    + exists e. split; [exact Hinit|exact Hlen].
Defined.

(** ** The order of rotation and pairing *)

Lemma rearrange_iter_rotate k l :
  2 ≤ length l → rearrange_iter k l = Return (Nat.iter k rotate l).
Proof.
  revert l. induction k as [|k IH]; intros l Hl; [done|].
  cbn [rearrange_iter]. rewrite rearrange_list_rotate by done. simpl.
  rewrite IH by (by rewrite rotate_length).
  by rewrite <- Nat.iter_succ_r.
Qed.

Lemma seat_full M p : 1 ≤ M → p ≤ M → seat M M p = p.
Proof. intros. unfold seat. case_nat_tests; lia. Qed.

Lemma iter_rotate_full a M :
  length a = S M → 1 ≤ M → Nat.iter M rotate a = a.
Proof.
  intros Hlen HM. apply list_eq. intros p.
  destruct (decide (p ≤ M)) as [Hp|Hp].
  - rewrite !list_lookup_lookup_total_lt
      by (rewrite ?iter_rotate_length; lia).
    f_equal. rewrite <- (seat_lookup a M M p) by lia.
    by rewrite seat_full.
  - rewrite !lookup_ge_None_2 by (rewrite ?iter_rotate_length; lia). done.
Qed.

(** C9, counterexample.  For the arrangement [p_1, p_2, p_3, p_4] the first
    configuration of the schedule is not the pairing of the arrangement. *)
Lemma first_configuration_is_not_initial_pairing :
  ¬ ∀ a, Nat.Even (length a) → first_is_initial_pairing a.
Proof.
  intros Hevery.
  pose (s0 := mkPairing four_players (Some four_players) [] ∅).
  assert (generate_circle_configurations s0 =
          (Return tt, set_possibles ([] ++ schedule four_players) s0)) as Hrun.
  { apply (generate_circle_configurations_numbers four_players s0);
      [done|exact four_players_numbers]. }
  pose proof (generate_pairing_numbers four_players four_players_numbers)
    as Hpair.
  pose proof (Hevery four_players (ex_intro _ 2 eq_refl) s0 _ _
                eq_refl eq_refl Hrun Hpair) as Hhead.
  assert (bool_decide (head (schedule four_players) =
                       Some (list_to_set (pairs_of four_players))) = false)
    as Hne by (vm_compute; reflexivity).
  apply bool_decide_eq_false in Hne. by apply Hne.
Qed.

(** C9, amended.  For every even-sized arrangement of at least two players,
    the generator at each step first rotates the seats and then produces the
    pairing of the rotated seating (seat [i] with seat [N − 1 − i] for
    [i = 0 .. N/2 − 1], canonicalized): configuration [k] of the schedule is
    the pairing of the arrangement rotated [k + 1] times.  The first
    configuration is thus the pairing of the arrangement rotated once, and
    the pairing of the initial arrangement itself is the last one. *)
Theorem circle_rotates_then_pairs (a : list string) (s : Pairing) :
  Nat.Even (length a) → 2 ≤ length a →
  (∀ x, x ∈ a → has_number x) →
  initial_configuration s = Some a → possibles_configurations s = [] →
  ∃ s', generate_circle_configurations s = (Return tt, s') ∧
        (∀ k, k < length a - 1 →
              ∃ cur, rearrange_iter (S k) a = Return cur ∧
                     generate_pairing cur = Return (list_to_set (pairs_of cur)) ∧
                     possibles_configurations s' !! k =
                     Some (list_to_set (pairs_of cur))) ∧
        (∃ cur, rearrange_list a = Return cur ∧
                head (possibles_configurations s') =
                Some (list_to_set (pairs_of cur))) ∧
        generate_pairing a = Return (list_to_set (pairs_of a)) ∧
        last (possibles_configurations s') = Some (list_to_set (pairs_of a)).
Proof.
  intros Heven Hlen Hnum Hinit Hposs.
  exists (set_possibles (possibles_configurations s ++ schedule a) s).
  split; [by apply generate_circle_configurations_numbers|].
  rewrite Hposs. unfold set_possibles.
  cbn [possibles_configurations app].
  assert (∀ k, k < length a - 1 →
            ∃ cur, rearrange_iter (S k) a = Return cur ∧
                   generate_pairing cur = Return (list_to_set (pairs_of cur)) ∧
                   schedule a !! k = Some (list_to_set (pairs_of cur)))
    as Hsteps.
  { intros k Hk. exists (Nat.iter (S k) rotate a). split_and!.
    - by apply rearrange_iter_rotate.
    - apply generate_pairing_numbers. intros x Hx.
      by apply (iter_rotate_numbers (S k) a).
    - by apply schedule_lookup. }
  split_and!; [done| | |].
  - destruct (Hsteps 0) as (cur & Hcur & _ & Hk); [lia|].
    exists cur. split.
    + simpl in Hcur. by destruct (rearrange_list a).
    + by rewrite head_lookup.
  - by apply generate_pairing_numbers.
  - rewrite last_lookup, schedule_length.
    replace (pred (length a - 1)) with (length a - 2) by lia.
    rewrite schedule_lookup by lia.
    replace (S (length a - 2)) with (length a - 1) by lia.
    by rewrite (iter_rotate_full a (length a - 1)) by lia.
Qed.

Lemma circle_rotates_then_pairs_witness :
  ∃ s', generate_circle_configurations
          (mkPairing four_players (Some four_players) [] ∅) = (Return tt, s') ∧
        last (possibles_configurations s') =
        Some (list_to_set (pairs_of four_players)).
Proof.
  destruct (circle_rotates_then_pairs four_players
              (mkPairing four_players (Some four_players) [] ∅))
    as (s' & Hrun & _ & _ & _ & Hlast).
  - exists 2. reflexivity.
  - simpl. lia.
  - exact four_players_numbers.
  - reflexivity.
  - reflexivity.
  - exists s'. split; [exact Hrun|exact Hlast].
Defined.

(** ** Identifiers without a number *)

Lemma index_1 {A} (l : list A) x :
  Py.index l 1 = Return x ↔ l !! 1 = Some x.
Proof.
  unfold Py.index. cbv zeta. change (1 <? 0)%Z with false. cbv iota.
  change (1 <? 0)%Z with false. cbv iota. change (Z.to_nat 1) with 1.
  destruct (l !! 1) as [y|]; split; intros Heq; by simplify_eq.
Qed.

Lemma get_player_number_Return p n :
  get_player_number p = Return n ↔
  ∃ field, Py.split "_" p !! 1 = Some field ∧ Py.int field = Some n.
Proof.
  unfold get_player_number. split.
  - destruct (Py.index (Py.split "_" p) 1) as [field|] eqn:Hidx; [|done].
    simpl. apply index_1 in Hidx.
    destruct (Py.int field) as [k|] eqn:Hint; [|done].
    intros [= <-]. eauto.
  - intros (field & Hfield & Hint). apply index_1 in Hfield.
    rewrite Hfield. simpl. by rewrite Hint.
Qed.

Lemma has_number_dec p : has_number p ∨ ¬ has_number p.
Proof.
  unfold has_number, is_Return.
  destruct (get_player_number p) as [n|e]; [left; eauto|right].
  by intros [n Hn].
Qed.

Lemma generate_pairing_Return_ends cur :
  2 ≤ length cur → is_Return (generate_pairing cur) →
  has_number (cur !!! 0) ∧ has_number (cur !!! (length cur - 1)).
Proof.
  intros Hlen [c Hc]. unfold generate_pairing in Hc.
  destruct (length cur / 2) as [|h] eqn:Hhalf.
  { apply Nat.div_small_iff in Hhalf; lia. }
  cbn [seq generate_pairing_loop] in Hc.
  rewrite index_nat, index_neg in Hc by lia. simpl in Hc.
  rewrite Nat.sub_0_r in Hc.
  apply sorted_pair_Return.
  destruct (sorted_pair (cur !!! 0) (cur !!! (length cur - 1))); [|done].
  by eexists.
Qed.

Lemma circle_loop_Return n cur s s' k :
  2 ≤ length cur → circle_loop n cur s = (Return tt, s') → 1 ≤ k ≤ n →
  is_Return (generate_pairing (Nat.iter k rotate cur)).
Proof.
  revert cur s k. induction n as [|n IH]; intros cur s k Hlen Hrun Hk; [lia|].
  cbn [circle_loop] in Hrun. unfold bind, lift, modify in Hrun.
  rewrite rearrange_list_rotate in Hrun by done.
  destruct (generate_pairing (rotate cur)) as [c|e] eqn:Hpair; [|done].
  destruct (decide (k = 1)) as [->|Hk1].
  - simpl. rewrite Hpair. by eexists.
  - replace k with (S (k - 1)) by lia. rewrite Nat.iter_succ_r.
    eapply IH; [|apply Hrun|lia]. by rewrite rotate_length.
Qed.

Lemma seat_last_exists M q :
  1 ≤ M → 1 ≤ q ≤ M → ∃ k, 1 ≤ k ≤ M ∧ seat M k q = M.
Proof.
  intros HM Hq. exists (if q <? M then M - q else M).
  unfold seat. case_nat_tests; lia.
Qed.

Lemma circle_loop_Return_numbers a s s' x :
  2 ≤ length a → circle_loop (length a - 1) a s = (Return tt, s') →
  x ∈ a → has_number x.
Proof.
  intros Hlen Hrun [p Hp]%list_elem_of_lookup_1.
  apply lookup_lt_Some in Hp as Hpl.
  apply list_lookup_total_correct in Hp. subst x.
  assert (length a = S (length a - 1)) as HM by lia.
  destruct (decide (p = 0)) as [->|Hp0].
  - destruct (generate_pairing_Return_ends (Nat.iter 1 rotate a)) as [H0 _].
    + by rewrite iter_rotate_length.
    + by apply (circle_loop_Return (length a - 1) a s s' 1); [|  |lia].
    + rewrite <- (seat_lookup a (length a - 1) 1 0) by lia. done.
  - destruct (seat_last_exists (length a - 1) p) as (k & Hk & Hseat); [lia..|].
    destruct (generate_pairing_Return_ends (Nat.iter k rotate a)) as [_ Hl].
    + by rewrite iter_rotate_length.
    + by apply (circle_loop_Return (length a - 1) a s s' k).
    + rewrite iter_rotate_length in Hl by done.
      rewrite <- (seat_lookup a (length a - 1) k p) by lia.
      by rewrite Hseat.
Qed.

Lemma generate_circle_configurations_unnumbered a s :
  2 ≤ length a → (∃ x, x ∈ a ∧ ¬ has_number x) →
  initial_configuration s = Some a →
  is_Raise (generate_circle_configurations s).1.
Proof.
  intros Hlen (x & Hx & Hbad) Hinit.
  unfold generate_circle_configurations, bind, gets. rewrite Hinit.
  destruct (circle_loop (length a - 1) a s) as [[[]|e] s'] eqn:Hrun.
  - destruct Hbad. by apply (circle_loop_Return_numbers a s s').
  - by eexists.
Qed.

Lemma first_unplayed_unnumbered played l1 x y l2 :
  (∀ u v, (u, v) ∈ l1 →
          has_number u ∧ has_number v ∧ canon u v ∈ played) →
  ¬ has_number x ∨ ¬ has_number y →
  is_Raise (first_unplayed played (l1 ++ (x, y) :: l2)).
Proof.
  intros Hl1 Hbad. induction l1 as [|[u v] l1 IH]; simpl.
  - destruct (sorted_pair x y) as [mt|e] eqn:Hsp; [|by eexists].
    assert (has_number x ∧ has_number y) as [Hx Hy].
    { apply sorted_pair_Return. by eexists. }
    tauto.
  - destruct (Hl1 u v) as (Hu & Hv & Hplayed); [left|].
    rewrite sorted_pair_numbers by done. simpl.
    rewrite decide_False by (intros Hnot; by apply Hnot).
    apply IH. intros u' v' Huv. apply Hl1. by right.
Qed.

Lemma first_unplayed_found played l1 x y l2 :
  (∀ u v, (u, v) ∈ l1 →
          has_number u ∧ has_number v ∧ canon u v ∈ played) →
  has_number x → has_number y → canon x y ∉ played →
  first_unplayed played (l1 ++ (x, y) :: l2) = Return (Some (canon x y)).
Proof.
  intros Hl1 Hx Hy Hnew. induction l1 as [|[u v] l1 IH]; simpl.
  - rewrite sorted_pair_numbers by done. simpl. by rewrite decide_True.
  - destruct (Hl1 u v) as (Hu & Hv & Hplayed); [left|].
    rewrite sorted_pair_numbers by done. simpl.
    rewrite decide_False by (intros Hnot; by apply Hnot).
    apply IH. intros u' v' Huv. apply Hl1. by right.
Qed.

Lemma ordered_pairs_short players :
  length players ≤ 1 → ordered_pairs players = [].
Proof. destruct players as [|x [|y l]]; simpl; [done|done|lia]. Qed.

Lemma init_short shuffle roster :
  length (shuffle roster) ≤ 1 →
  __init__ shuffle roster true
  = Return (mkPairing roster (Some (shuffle roster)) [] ∅).
Proof.
  intros Hlen. unfold __init__, randomize_players. cbn [list_of_players].
  unfold generate_circle_configurations, bind, gets, set_initial.
  cbn [initial_configuration].
  by replace (length (shuffle roster) - 1) with 0 by lia.
Qed.

(** C10, counterexample.  The identifier ["x"] carries no number.  The
    constructor nevertheless returns an engine for the roster [["x"]], and
    the pairwise scan of that roster returns [None] without failing.  On
    the engine of the table of four, the scan of the pool
    [["p_1"; "p_2"; "x"]] does not fail either: its first pair is not in
    the memory, and the configuration that holds it is returned before
    ["x"] is looked at. *)
Lemma unnumbered_identifier_accepted :
  ¬ has_number "x" ∧
  __init__ id unnumbered_roster true =
    Return (mkPairing unnumbered_roster (Some unnumbered_roster) [] ∅) ∧
  try_to_generate_next_round unnumbered_roster
    (mkPairing unnumbered_roster (Some unnumbered_roster) [] ∅) =
    (Return None, mkPairing unnumbered_roster (Some unnumbered_roster) [] ∅) ∧
  try_to_generate_next_round ["p_1"; "p_2"; "x"] scenario_0 =
    (Return (Some c12_34),
     mkPairing four_players (Some four_players) [c13_24; c14_23] c12_34).
Proof.
  split_and!.
  - intros [n Hn]. vm_compute in Hn. discriminate Hn.
  - reflexivity.
  - reflexivity.
  - vm_compute. reflexivity.
Qed.

(** C10, amended.  [get_player_number] returns an integer exactly when the
    identifier, split on ['_'], has a second field that [int] parses.
    Schedule generation, and with it both ways of building an engine, fails
    for every arrangement of at least two identifiers one of which has no
    such field.  The pairwise scan fails, leaving the object as it is, when
    it reaches a pair with such an identifier, all the pairs scanned before
    being pairs of numbered players that are already in the memory.
    Nothing is canonicalized, and nothing fails, for fewer than two
    identifiers: the constructor returns an engine with an empty schedule
    and the scan returns [None].  And a scan that comes to a pair of
    numbered players that is not in the memory, all the pairs scanned
    before being pairs of numbered players that are in the memory, returns
    normally what the anchor-based selection gives for that pair, whatever
    the identifiers of the pairs that come after. *)
Theorem canonicalization_needs_numbers :
  (∀ p n, get_player_number p = Return n ↔
          ∃ field, Py.split "_" p !! 1 = Some field ∧ Py.int field = Some n) ∧
  (∀ a s, 2 ≤ length a → (∃ x, x ∈ a ∧ ¬ has_number x) →
          initial_configuration s = Some a →
          is_Raise (generate_circle_configurations s).1) ∧
  (∀ shuffle roster,
     shuffle roster ≡ₚ roster → 2 ≤ length roster →
     (∃ x, x ∈ roster ∧ ¬ has_number x) →
     is_Raise (__init__ shuffle roster true) ∧
     ∀ a played, a ≡ₚ roster →
                 is_Raise (instantiate_pairing shuffle roster a played)) ∧
  (∀ players s l1 x y l2,
     ordered_pairs players = l1 ++ (x, y) :: l2 →
     (∀ u v, (u, v) ∈ l1 →
             has_number u ∧ has_number v ∧ canon u v ∈ played_matches s) →
     ¬ has_number x ∨ ¬ has_number y →
     ∃ e, try_to_generate_next_round players s = (Raise e, s)) ∧
  (∀ shuffle roster,
     shuffle roster ≡ₚ roster → length roster ≤ 1 →
     __init__ shuffle roster true
     = Return (mkPairing roster (Some (shuffle roster)) [] ∅)) ∧
  (∀ players s,
     length players ≤ 1 →
     try_to_generate_next_round players s = (Return None, s)) ∧
  (∀ players s l1 x y l2,
     ordered_pairs players = l1 ++ (x, y) :: l2 →
     (∀ u v, (u, v) ∈ l1 →
             has_number u ∧ has_number v ∧ canon u v ∈ played_matches s) →
     has_number x → has_number y → canon x y ∉ played_matches s →
     try_to_generate_next_round players s
     = generate_round_configuration_from_match (canon x y) s ∧
     ∃ r s', try_to_generate_next_round players s = (Return r, s')).
Proof.
  split_and!.
  - apply get_player_number_Return.
  - apply generate_circle_configurations_unnumbered.
  - intros shuffle roster Hshuffle Hlen (x & Hx & Hbad).
    assert (∀ a s0, a ≡ₚ roster → initial_configuration s0 = Some a →
                    is_Raise (generate_circle_configurations s0).1) as Hgen.
    { intros a s0 Ha Hinit.
      apply (generate_circle_configurations_unnumbered a);
        [by rewrite Ha| |done].
      exists x. split; [by rewrite Ha|done]. }
    split.
    + unfold __init__, randomize_players. cbn [list_of_players].
      pose proof (Hgen (shuffle roster)
                    (set_initial (shuffle roster) (mkPairing roster None [] ∅))
                    Hshuffle eq_refl) as [e He].
      destruct (generate_circle_configurations _) as [[u|e'] s'];
        simpl in He; [done|by eexists].
    + intros a played Ha. unfold instantiate_pairing, __init__. simpl.
      pose proof (Hgen a (set_initial a (mkPairing roster None [] ∅))
                    Ha eq_refl) as [e He].
      destruct (generate_circle_configurations _) as [[u|e'] s'];
        simpl in He; [done|by eexists].
  - intros players s l1 x y l2 Hpairs Hl1 Hbad.
    rewrite try_to_generate_next_round_scan, Hpairs.
    destruct (first_unplayed_unnumbered (played_matches s) l1 x y l2 Hl1 Hbad)
      as [e He].
    rewrite He. by exists e.
  - intros shuffle roster Hshuffle Hlen. apply init_short.
    by rewrite Hshuffle.
  - intros players s Hlen.
    by rewrite try_to_generate_next_round_scan, ordered_pairs_short.
  - intros players s l1 x y l2 Hpairs Hl1 Hx Hy Hnew.
    rewrite try_to_generate_next_round_scan, Hpairs.
    rewrite first_unplayed_found by done. cbn [scan_result].
    split; [done|].
    rewrite generate_round_configuration_from_match_select.
    destruct (select (canon x y) (possibles_configurations s))
      as [[c rest]|]; eauto.
Qed.

(** ** Ranking-weighted selection follows the specification *)

Lemma insert_by_key_perm {A} k (x : A) l :
  Py.insert_by_key k x l ≡ₚ (k, x) :: l.
Proof.
  induction l as [|[k' y] l IH]; simpl; [done|].
  destruct (k <=? k')%Z; [done|]. rewrite IH. apply Permutation_swap.
Qed.

Lemma insert_by_key_sorted {A} k (x : A) l :
  StronglySorted (λ p q : Z * A, (p.1 ≤ q.1)%Z) l →
  StronglySorted (λ p q : Z * A, (p.1 ≤ q.1)%Z) (Py.insert_by_key k x l).
Proof.
  induction 1 as [|[k' y] l Hsorted IH Hall]; simpl.
  - repeat constructor.
  - destruct (Z.leb_spec k k') as [Hle|Hgt].
    + constructor; [by constructor|].
      constructor; [done|].
      eapply Forall_impl; [exact Hall|]. simpl. intros [k'' z] ?. simpl in *. lia.
    + constructor; [done|].
      rewrite insert_by_key_perm. constructor; [simpl; lia|done].
Qed.

Lemma decorate_keys l :
  (∀ k, k ∈ l → is_Some (Py.int k)) →
  Py.decorate int_key l = Return ((λ k, (key_val k, k)) <$> l).
Proof.
  induction l as [|k l IH]; intros Hkeys; [done|].
  cbn [Py.decorate]. destruct (Hkeys k) as [n Hn]; [left|].
  assert (int_key k = Return (key_val k)) as ->.
  { unfold int_key, key_val. by rewrite Hn. }
  simpl. rewrite IH; [done|]. intros k' Hk'. apply Hkeys. by right.
Qed.

Lemma sorted_keys l :
  (∀ k, k ∈ l → is_Some (Py.int k)) →
  ∃ keys, Py.sorted int_key l = Return keys ∧ keys ≡ₚ l ∧
          StronglySorted (λ k1 k2, (key_val k1 ≤ key_val k2)%Z) keys.
Proof.
  intros Hkeys. unfold Py.sorted. rewrite decorate_keys by done. simpl.
  eexists. split; [done|].
  set (d := (λ k, (key_val k, k)) <$> l).
  set (ins := foldr (λ kx acc, Py.insert_by_key kx.1 kx.2 acc) [] d).
  assert (ins ≡ₚ d) as Hperm.
  { unfold ins. clear. induction d as [|[k x] d IH]; [done|]. simpl.
    by rewrite insert_by_key_perm, IH. }
  assert (StronglySorted (λ p q : Z * string, (p.1 ≤ q.1)%Z) ins) as Hsorted.
  { unfold ins. clear. induction d as [|[k x] d IH]; simpl; [constructor|].
    by apply insert_by_key_sorted. }
  assert (∀ p, p ∈ ins → p.1 = key_val p.2) as Hval.
  { intros p. rewrite Hperm. unfold d. rewrite list_elem_of_fmap.
    by intros (k & -> & _). }
  split.
  - rewrite Hperm. unfold d. rewrite <- list_fmap_compose.
    by rewrite list_fmap_id.
  - clear Hperm. induction Hsorted as [|p ins' Hs IH Hall]; simpl;
      [constructor|].
    constructor.
    + apply IH. intros q Hq. apply Hval. by right.
    + apply Forall_fmap, Forall_forall. intros q Hq. simpl.
      rewrite Forall_forall in Hall.
      rewrite <- (Hval p) by left. rewrite <- (Hval q) by (by right).
      by apply Hall.
Qed.

Lemma ordered_pairs_elem l u v : (u, v) ∈ ordered_pairs l → u ∈ l ∧ v ∈ l.
Proof.
  induction l as [|x l IH]; simpl; [by intros ?%elem_of_nil|].
  rewrite elem_of_app, list_elem_of_fmap.
  intros [(y & [= -> ->] & Hy)|Hin].
  - split; [left|by right].
  - destruct (IH Hin). split; by right.
Qed.

Lemma first_unplayed_numbers played pairs :
  (∀ u v, (u, v) ∈ pairs → has_number u ∧ has_number v) →
  first_unplayed played pairs =
  Return (head (filter (λ mt, mt ∉ played) ((λ p, canon p.1 p.2) <$> pairs))).
Proof.
  induction pairs as [|[u v] pairs IH]; intros Hnum; [done|].
  cbn [first_unplayed fmap list_fmap].
  destruct (Hnum u v) as [Hu Hv]; [left|].
  rewrite sorted_pair_numbers by done. simpl.
  rewrite filter_cons. destruct (decide (canon u v ∉ played)); [done|].
  apply IH. intros u' v' Huv. apply Hnum. by right.
Qed.

Lemma try_to_generate_next_round_numbers pool s :
  (∀ p, p ∈ pool → has_number p) →
  try_to_generate_next_round pool s =
  match spec_scan (played_matches s) pool with
  | Some mt => generate_round_configuration_from_match mt s
  | None => (Return None, s)
  end.
Proof.
  intros Hnum. rewrite try_to_generate_next_round_scan.
  rewrite first_unplayed_numbers; [done|].
  intros u v [Hu Hv]%ordered_pairs_elem. split; by apply Hnum.
Qed.

Lemma dict_get_rank_players d k :
  k ∈ d.*1 → Py.dict_get d k = Return (rank_players d k).
Proof.
  unfold rank_players. induction d as [|[k' ps] d IH]; simpl.
  - by intros ?%elem_of_nil.
  - case_decide; [done|]. intros [->|Hk]%elem_of_cons; [done|]. by apply IH.
Qed.

Lemma rank_players_elem d k p :
  p ∈ rank_players d k → ∃ ps, (k, ps) ∈ d ∧ p ∈ ps.
Proof.
  unfold rank_players. induction d as [|[k' ps] d IH]; simpl.
  - by intros ?%elem_of_nil.
  - case_decide as Hk.
    + subst k'. intros Hp. exists ps. split; [left|done].
    + intros Hp. destruct (IH Hp) as (ps' & Hin & Hp'). exists ps'.
      split; [by right|done].
Qed.

Lemma ranking_stages_spec d keys pool s :
  (∀ k, k ∈ keys → k ∈ d.*1) →
  (∀ k ps p, (k, ps) ∈ d → p ∈ ps → has_number p) →
  (∀ p, p ∈ pool → has_number p) →
  ranking_stages d keys pool s =
  (Return (spec_ranking (rank_players d <$> keys) pool s).1,
   (spec_ranking (rank_players d <$> keys) pool s).2).
Proof.
  intros Hkeys Hnum. revert pool.
  induction keys as [|k keys IH]; intros pool Hpool; [done|].
  cbn [ranking_stages fmap list_fmap spec_ranking].
  rewrite dict_get_rank_players by (apply Hkeys; left).
  assert (∀ p, p ∈ pool ++ rank_players d k → has_number p) as Hpool'.
  { intros p [Hp|Hp]%elem_of_app; [by apply Hpool|].
    destruct (rank_players_elem d k p Hp) as (ps & Hin & Hp').
    by apply (Hnum k ps). }
  assert (∀ k', k' ∈ keys → k' ∈ d.*1) as Hkeys'.
  { intros k' Hk'. apply Hkeys. by right. }
  rewrite <- try_to_generate_next_round_scan.
  rewrite try_to_generate_next_round_numbers by done.
  change (list_fmap string (list string) (rank_players d) keys)
    with (rank_players d <$> keys).
  destruct (spec_scan (played_matches s) (pool ++ rank_players d k))
    as [mt|]; [|by apply IH].
  rewrite generate_round_configuration_from_match_select, spec_select_select.
  destruct (select mt (possibles_configurations s)) as [[c rest]|];
    [done|by apply IH].
Qed.

Lemma spec_ranking_Some groups pool s c s' :
  spec_ranking groups pool s = (Some c, s') →
  ∃ mt, mt ∉ played_matches s ∧ mt ∈ c ∧ selects s c s'.
Proof.
  revert pool. induction groups as [|g groups IH]; intros pool; [done|].
  cbn [spec_ranking].
  destruct (spec_scan (played_matches s) (pool ++ g)) as [mt|] eqn:Hscan;
    [|by apply IH].
  rewrite spec_select_select.
  destruct (select mt (possibles_configurations s)) as [[c' rest]|] eqn:Hsel;
    [|by apply IH].
  intros [= -> <-].
  apply select_Some_inv in Hsel as (l1 & l2 & Hl & -> & Hmt & _).
  apply head_Some_elem_of, list_elem_of_filter in Hscan as [Hunplayed _].
  exists mt. split_and!; [done|done|]. by exists l1, l2.
Qed.

(** C6.  For a ranking whose keys are numeric strings and whose players
    carry a number, [generate_next_round_from_ranking] takes the keys in
    ascending numeric order (a sorted permutation of the keys) and does
    what [spec_ranking] says on the groups of players in that order: each
    group is appended to the pool, the pool is scanned pair by pair,
    [(i, j)] with [i] before [j], canonicalized, and the first pair that is
    not in the memory triggers [spec_select], the selection of the entire
    configuration that contains it, which is returned at once; when every
    group has been accumulated without a configuration being found, the
    result is [None].  A configuration that is returned is thus a remaining
    configuration that holds a pair which was not in the memory; it has
    left the remaining schedule and its matches are in the memory. *)
Theorem ranking_weighted_selection
    (dict_ranking : list (string * list string)) (s : Pairing) :
  (∀ k, k ∈ dict_ranking.*1 → is_Some (Py.int k)) →
  (∀ k ps p, (k, ps) ∈ dict_ranking → p ∈ ps → has_number p) →
  ∃ keys,
    Py.sorted int_key dict_ranking.*1 = Return keys ∧
    keys ≡ₚ dict_ranking.*1 ∧
    StronglySorted (λ k1 k2, (key_val k1 ≤ key_val k2)%Z) keys ∧
    generate_next_round_from_ranking dict_ranking s =
    (Return (spec_ranking (rank_players dict_ranking <$> keys) [] s).1,
     (spec_ranking (rank_players dict_ranking <$> keys) [] s).2) ∧
    ∀ c s', generate_next_round_from_ranking dict_ranking s
            = (Return (Some c), s') →
            ∃ mt, mt ∉ played_matches s ∧ mt ∈ c ∧ selects s c s'.
Proof.
  intros Hkeys Hnum.
  destruct (sorted_keys dict_ranking.*1 Hkeys) as (keys & Hsorted & Hperm & Hs).
  exists keys.
  assert (generate_next_round_from_ranking dict_ranking s =
          (Return (spec_ranking (rank_players dict_ranking <$> keys) [] s).1,
           (spec_ranking (rank_players dict_ranking <$> keys) [] s).2))
    as Hrun.
  { rewrite generate_next_round_from_ranking_stages, Hsorted.
    apply ranking_stages_spec; [|done|by intros p ?%elem_of_nil].
    intros k Hk. by rewrite <- Hperm. }
  split_and!; [done|done|done|done|].
  intros c s' Hret. rewrite Hrun in Hret. injection Hret as Hc Hs'.
  apply (spec_ranking_Some (rank_players dict_ranking <$> keys) []).
  rewrite <- Hc, <- Hs'. apply surjective_pairing.
Qed.

Lemma four_ranking_keys k : k ∈ four_ranking.*1 → is_Some (Py.int k).
Proof.
  unfold four_ranking. simpl. rewrite !elem_of_cons, elem_of_nil.
  intros [->|[->|[->|[->|[]]]]]; eexists; vm_compute; reflexivity.
Qed.

Lemma four_ranking_numbers k ps p :
  (k, ps) ∈ four_ranking → p ∈ ps → has_number p.
Proof.
  unfold four_ranking. rewrite !elem_of_cons, elem_of_nil.
  intros [[= -> ->]|[[= -> ->]|[[= -> ->]|[[= -> ->]|[]]]]];
    intros ->%list_elem_of_singleton; eexists; vm_compute; reflexivity.
Qed.

Lemma ranking_weighted_selection_witness :
  ∃ keys,
    Py.sorted int_key four_ranking.*1 = Return keys ∧
    generate_next_round_from_ranking four_ranking scenario_1 =
    (Return (spec_ranking (rank_players four_ranking <$> keys) [] scenario_1).1,
     (spec_ranking (rank_players four_ranking <$> keys) [] scenario_1).2).
Proof.
  destruct (ranking_weighted_selection four_ranking scenario_1)
    as (keys & Hsorted & _ & _ & Hrun & _).
  - exact four_ranking_keys.
  - exact four_ranking_numbers.
  - exists keys. split; [exact Hsorted|exact Hrun].
Defined.

(** ** The scenario of the table of four *)

(** C8.  For the players [p_1 .. p_4] and the arrangement
    [(p_1, p_2, p_3, p_4)]: the schedule is, in order,
    [{(p_1,p_3),(p_2,p_4)}], [{(p_1,p_2),(p_3,p_4)}],
    [{(p_1,p_4),(p_2,p_3)}]; the first-round selection returns the last of
    them and leaves the first two; the ranking
    [{1: [p_1], 2: [p_2], 3: [p_4], 4: [p_3]}] then selects
    [{(p_1,p_2),(p_3,p_4)}]; a last first-round selection returns
    [{(p_1,p_3),(p_2,p_4)}], and the engine is exhausted. *)
Theorem concrete_scenario :
  __init__ id four_players true = Return scenario_0 ∧
  instantiate_pairing id four_players four_players [] = Return scenario_0 ∧
  generate_first_round_configuration scenario_0 = (Return c14_23, scenario_1) ∧
  generate_next_round_from_ranking four_ranking scenario_1
    = (Return (Some c12_34), scenario_2) ∧
  generate_first_round_configuration scenario_2 = (Return c13_24, scenario_3) ∧
  possibles_configurations scenario_3 = [] ∧
  generate_first_round_configuration scenario_3 = (Raise IndexError, scenario_3) ∧
  generate_next_round_from_ranking four_ranking scenario_3
    = (Return None, scenario_3).
Proof. split_and!; vm_compute; reflexivity. Qed.

(** * Further properties of the pairing engine *)

(** ** [rearrange_list] *)

(** X1.  On a list of at least two players [rearrange_list] returns a
    permutation of the list that has the same first player and whose second
    player is the last player of the list. *)
Theorem rearrange_list_permutation (l : list string) :
  2 ≤ length l →
  ∃ l', rearrange_list l = Return l' ∧ l' ≡ₚ l ∧
        head l' = head l ∧ l' !! 1 = last l.
Proof.
  intros Hl. exists (rotate l). split; [by apply rearrange_list_rotate|].
  split; [by apply rotate_perm|].
  destruct (list_snoc_form l Hl) as (x & mid & y & ->).
  rewrite rotate_snoc. split; [done|]. simpl.
  change (x :: mid ++ [y]) with ((x :: mid) ++ [y]). by rewrite last_snoc.
Qed.

Lemma rearrange_list_permutation_witness :
  ∃ l', rearrange_list four_players = Return l' ∧ l' ≡ₚ four_players.
Proof.
  destruct (rearrange_list_permutation four_players) as (l' & H1 & H2 & _).
  - simpl. lia.
  - exists l'. split; [exact H1|exact H2].
Defined.

(** X2.  [rearrange_list] raises [IndexError] on the empty list, and on a
    list of one player it returns a list of two, the player twice: below two
    players it is not a rearrangement. *)
Theorem rearrange_list_short :
  rearrange_list [] = Raise IndexError ∧
  ∀ x, rearrange_list [x] = Return [x; x].
Proof. split; [done|]. intros x. reflexivity. Qed.

(** X3.  The rotation has period [N − 1]: [N − 1] applications of
    [rearrange_list] to a list of [N ≥ 2] players give the list back, and
    for distinct players no smaller positive number of applications does. *)
Theorem rotation_cycle (a : list string) :
  2 ≤ length a →
  rearrange_iter (length a - 1) a = Return a ∧
  (NoDup a → ∀ k, 1 ≤ k < length a - 1 → rearrange_iter k a ≠ Return a).
Proof.
  intros Hl. split.
  - rewrite rearrange_iter_rotate by done.
    by rewrite (iter_rotate_full a (length a - 1)) by lia.
  - intros Hnd k Hk. rewrite rearrange_iter_rotate by done.
    intros [= Heq].
    pose proof (seat_lookup a (length a - 1) k 1) as Hseat.
    rewrite Heq in Hseat.
    assert (seat (length a - 1) k 1 = 1 + k) as Hs.
    { unfold seat. case_nat_tests; lia. }
    rewrite Hs in Hseat.
    assert (a !! (1 + k) = Some (a !!! 1)) as H1.
    { rewrite <- Hseat by lia. apply list_lookup_lookup_total_lt. lia. }
    assert (a !! 1 = Some (a !!! 1)) as H2.
    { apply list_lookup_lookup_total_lt. lia. }
    pose proof (NoDup_lookup _ _ _ _ Hnd H1 H2). lia.
Qed.

Lemma rotation_cycle_witness : rearrange_iter 3 four_players = Return four_players.
Proof.
  destruct (rotation_cycle four_players) as [Hfull _].
  - simpl. lia.
  - exact Hfull.
Defined.

(** ** [generate_pairing] and the canonical pairs *)

(** X4.  [generate_pairing] on an odd number of distinct numbered players
    does not fail: it leaves the player of the middle seat out of every
    match, and every other player is in a match. *)
Theorem generate_pairing_odd (l : list string) (m : nat) :
  NoDup l → length l = 2 * m + 1 →
  (∀ x, x ∈ l → has_number x) →
  ∃ c, generate_pairing l = Return c ∧
       (∀ t, t ∈ c → t.1 ≠ l !!! m ∧ t.2 ≠ l !!! m) ∧
       (∀ x, x ∈ l → x ≠ l !!! m → ∃ t, t ∈ c ∧ (x = t.1 ∨ x = t.2)).
Proof.
  intros Hnd Hlen Hnum. exists (list_to_set (pairs_of l)).
  split; [by apply generate_pairing_numbers|].
  assert (length l / 2 = m) as Hhalf.
  { rewrite Hlen. symmetry. apply (Nat.div_unique _ 2 m 1); lia. }
  assert (∀ i, i < 2 * m + 1 → l !! i = Some (l !!! i)) as Hlk.
  { intros i Hi. apply list_lookup_lookup_total_lt. lia. }
  split.
  - intros t [i [Hi ->]]%elem_of_list_to_set%elem_of_pairs_of.
    rewrite Hhalf in Hi. rewrite Hlen.
    assert (l !!! i ≠ l !!! m) as H1.
    { intros Heq. pose proof (Hlk i ltac:(lia)) as Ha. rewrite Heq in Ha.
      pose proof (NoDup_lookup _ _ _ _ Hnd Ha (Hlk m ltac:(lia))). lia. }
    assert (l !!! (2 * m + 1 - 1 - i) ≠ l !!! m) as H2.
    { intros Heq. pose proof (Hlk (2 * m + 1 - 1 - i) ltac:(lia)) as Ha.
      rewrite Heq in Ha.
      pose proof (NoDup_lookup _ _ _ _ Hnd Ha (Hlk m ltac:(lia))). lia. }
    destruct (canon_cases (l !!! i) (l !!! (2 * m + 1 - 1 - i))) as [-> | ->];
      done.
  - intros x [i Hi]%list_elem_of_lookup_1 Hx.
    apply lookup_lt_Some in Hi as Hil.
    apply list_lookup_total_correct in Hi. subst x.
    assert (i ≠ m) by (by intros ->).
    set (i0 := if decide (i < m) then i else 2 * m - i).
    exists (canon (l !!! i0) (l !!! (length l - 1 - i0))). split.
    + apply elem_of_list_to_set, elem_of_pairs_of. exists i0.
      split; [|done]. rewrite Hhalf. unfold i0. case_decide; lia.
    + rewrite Hlen.
      destruct (canon_cases (l !!! i0) (l !!! (2 * m + 1 - 1 - i0)))
        as [-> | ->]; simpl; unfold i0; case_decide;
        [left|right|right|left]; f_equal; lia.
Qed.

Lemma generate_pairing_odd_witness :
  ∃ c, generate_pairing ["p_1"; "p_2"; "p_3"] = Return c ∧
       ∀ t, t ∈ c → t.1 ≠ "p_2" ∧ t.2 ≠ "p_2".
Proof.
  destruct (generate_pairing_odd ["p_1"; "p_2"; "p_3"] 1)
    as (c & Hrun & Hmid & _).
  - repeat constructor; set_solver.
  - reflexivity.
  - intros x. rewrite !elem_of_cons, elem_of_nil.
    intros [->|[->|[->|[]]]]; eexists; vm_compute; reflexivity.
  - exists c. split; [exact Hrun|exact Hmid].
Defined.



(** ** The engine *)

Lemma circle_loop_frame n cur s :
  list_of_players (circle_loop n cur s).2 = list_of_players s ∧
  initial_configuration (circle_loop n cur s).2 = initial_configuration s ∧
  played_matches (circle_loop n cur s).2 = played_matches s.
Proof.
  revert cur s. induction n as [|n IH]; intros cur s; [done|].
  cbn [circle_loop]. unfold bind, lift, modify.
  destruct (rearrange_list cur) as [cur'|e]; [|done].
  destruct (generate_pairing cur') as [c|e]; [|done].
  destruct (IH cur' (set_possibles (possibles_configurations s ++ [c]) s))
    as (H1 & H2 & H3).
  destruct (circle_loop n cur' _) as [[u|e] s']; simpl in *; done.
Qed.

(** X6.  The two ways of building an engine agree: restoring from an
    arrangement with an empty history gives what the constructor gives when
    the shuffle produces that arrangement, be it an engine or an
    exception. *)
Theorem construction_paths_agree (shuffle shuffle' : list string → list string)
    (roster : list string) :
  instantiate_pairing shuffle' roster (shuffle roster) []
  = __init__ shuffle roster true.
Proof.
  unfold instantiate_pairing, __init__, randomize_players. simpl.
  pose proof (circle_loop_frame (length (shuffle roster) - 1) (shuffle roster)
                (set_initial (shuffle roster) (mkPairing roster None [] ∅)))
    as (_ & _ & Hpl).
  unfold generate_circle_configurations, bind, gets. simpl.
  destruct (circle_loop _ _ _) as [[u|e] s']; [|done].
  simpl in Hpl. destruct s' as [lop ini poss pl]. simpl in *. subst pl.
  unfold set_possibles, set_played. simpl. f_equal.
  f_equal; first [ apply filter_all; intros c _; set_solver | set_solver ].
Qed.

Lemma selects_frame s c s' :
  selects s c s' →
  list_of_players s' = list_of_players s ∧
  initial_configuration s' = initial_configuration s ∧
  played_matches s' = played_matches s ∪ c ∧
  possibles_configurations s' `sublist_of` possibles_configurations s.
Proof.
  intros (l1 & l2 & Hl & ->). simpl. split_and!; [done|done|done|].
  rewrite Hl. apply sublist_app; [done|]. by apply sublist_cons.
Qed.

(** X7.  Whatever the object and the sequence of selection calls, failed
    ones included: the roster and the arrangement are left as they are, the
    memory becomes the former memory and the matches of the configurations
    returned, nothing more, and the remaining schedule loses one
    configuration for each configuration returned, the others keeping their
    order. *)
Theorem run_frame (calls : list call) (s : Pairing) :
  list_of_players (run calls s).2 = list_of_players s ∧
  initial_configuration (run calls s).2 = initial_configuration s ∧
  played_matches (run calls s).2
    = played_matches s ∪ ⋃ (omap returned (run calls s).1) ∧
  possibles_configurations (run calls s).2
    `sublist_of` possibles_configurations s ∧
  length (possibles_configurations s)
    = length (possibles_configurations (run calls s).2)
      + length (omap returned (run calls s).1).
Proof.
  revert s. induction calls as [|cl calls IH]; intros s.
  - simpl. split_and!; [done|done|set_solver|done|lia].
  - rewrite run_cons. destruct (do_call cl s) as [o s1] eqn:Hcall.
    cbn [fst snd]. apply do_call_step in Hcall.
    destruct (IH s1) as (H1 & H2 & H3 & H4 & H5).
    cbn [omap list_omap]. destruct (returned o) as [c|].
    + destruct (selects_frame _ _ _ Hcall) as (F1 & F2 & F3 & F4).
      pose proof (selects_length _ _ _ Hcall) as F5.
      split_and!; [congruence|congruence| |by etrans|simpl; lia].
      rewrite H3, F3, union_list_cons. set_solver.
    + subst s1. by split_and!.
Qed.

Lemma schedule_last a :
  2 ≤ length a →
  ∃ l, schedule a = l ++ [list_to_set (pairs_of a)] ∧ length l = length a - 2.
Proof.
  intros Hl. unfold schedule.
  replace (length a - 1) with (S (length a - 2)) by lia.
  rewrite seq_S, fmap_app. eexists. split.
  - f_equal. cbn [fmap list_fmap].
    replace (1 + (length a - 2)) with (length a - 1) by lia.
    by rewrite (iter_rotate_full a (length a - 1)) by lia.
  - by rewrite length_fmap, length_seq.
Qed.

(** X8.  The first round of a fresh engine is the pairing of the shuffled
    arrangement itself: for a roster of at least two numbered players,
    [generate_first_round_configuration] on the engine just built returns
    what [generate_pairing] gives on the arrangement, and it leaves
    [N − 2] configurations. *)
Theorem first_round_of_fresh_engine (shuffle : list string → list string)
    (roster : list string) :
  shuffle roster ≡ₚ roster → 2 ≤ length roster →
  (∀ x, x ∈ roster → has_number x) →
  ∃ e c e',
    __init__ shuffle roster true = Return e ∧
    generate_pairing (shuffle roster) = Return c ∧
    generate_first_round_configuration e = (Return c, e') ∧
    played_matches e' = c ∧
    length (possibles_configurations e') = length roster - 2.
Proof.
  intros Hshuffle Hl Hnum.
  assert (∀ x, x ∈ shuffle roster → has_number x) as Hnum'.
  { intros x Hx. apply Hnum. by rewrite <- Hshuffle. }
  assert (length (shuffle roster) = length roster) as Hlen
      by (by rewrite Hshuffle).
  destruct (schedule_last (shuffle roster)) as (l & Hsched & Hll); [lia|].
  exists (restored roster (shuffle roster) []),
         (list_to_set (pairs_of (shuffle roster))),
         (after_selection (list_to_set (pairs_of (shuffle roster))) l
            (restored roster (shuffle roster) [])).
  split_and!.
  - by apply init_numbers.
  - by apply generate_pairing_numbers.
  - apply generate_first_round_configuration_snoc. simpl.
    rewrite filter_all by (intros c _; set_solver). done.
  - simpl. set_solver.
  - simpl. lia.
Qed.

Lemma first_round_of_fresh_engine_witness :
  ∃ e c e',
    __init__ id four_players true = Return e ∧
    generate_pairing four_players = Return c ∧
    generate_first_round_configuration e = (Return c, e').
Proof.
  destruct (first_round_of_fresh_engine id four_players)
    as (e & c & e' & H1 & H2 & H3 & _).
  - reflexivity.
  - simpl. lia.
  - exact four_players_numbers.
  - exists e, c, e'. split; [exact H1|]. split; [exact H2|exact H3].
Defined.

Lemma decorate_non_numeric l :
  (∃ k, k ∈ l ∧ Py.int k = None) →
  Py.decorate int_key l = Raise ValueError.
Proof.
  induction l as [|k0 l IH]; intros (k & Hk & Hint).
  - by apply elem_of_nil in Hk.
  - cbn [Py.decorate]. destruct (Py.int k0) as [n|] eqn:Hk0.
    + assert (int_key k0 = Return n) as -> by (unfold int_key; by rewrite Hk0).
      apply elem_of_cons in Hk as [->|Hk]; [congruence|].
      simpl. rewrite IH; [done|]. eauto.
    + assert (int_key k0 = Raise ValueError) as ->
          by (unfold int_key; by rewrite Hk0).
      done.
Qed.

(** X9.  A ranking with a key that [int] does not parse makes
    [generate_next_round_from_ranking] raise [ValueError], whatever the
    other keys and the state of the engine, which is left unchanged. *)
Theorem ranking_non_numeric_key (dict_ranking : list (string * list string))
    (s : Pairing) :
  (∃ k, k ∈ dict_ranking.*1 ∧ Py.int k = None) →
  generate_next_round_from_ranking dict_ranking s = (Raise ValueError, s).
Proof.
  intros Hbad. unfold generate_next_round_from_ranking, bind, lift, Py.sorted.
  by rewrite decorate_non_numeric.
Qed.

Lemma ranking_non_numeric_key_witness :
  generate_next_round_from_ranking [("1", ["p_1"]); ("first", ["p_2"])] scenario_0
  = (Raise ValueError, scenario_0).
Proof.
  apply ranking_non_numeric_key. exists "first". split.
  - simpl. set_solver.
  - vm_compute. reflexivity.
Defined.

(** X10.  A match that is in the memory is the anchor of no round: on an
    engine built from an even roster of distinct numbered players, after
    any sequence of calls, [generate_round_configuration_from_match] on a
    played match returns [None] and changes nothing. *)
Theorem played_match_is_not_selectable (shuffle : list string → list string)
    (roster : list string) (e : Pairing) (calls : list call)
    (mt : string * string) :
  (∀ l, shuffle l ≡ₚ l) →
  NoDup roster → Nat.Even (length roster) →
  (∀ x, x ∈ roster → has_number x) →
  built shuffle roster e →
  mt ∈ played_matches (run calls e).2 →
  generate_round_configuration_from_match mt (run calls e).2
  = (Return None, (run calls e).2).
Proof.
  intros Hshuffle Hnd Heven Hnum Hbuilt Hmt.
  destruct (built_restored shuffle roster e Hshuffle Hnum Hbuilt)
    as (a & played & Ha & ->).
  assert (no_repeat_inv (restored roster a played)) as Hinv.
  { apply restored_inv; by rewrite Ha. }
  destruct (run_no_repeat calls _ _ _ Hinv (surjective_pairing _))
    as ([_ Hdisj] & _).
  rewrite generate_round_configuration_from_match_select.
  assert (select mt (possibles_configurations (run calls (restored roster a played)).2)
          = None) as ->; [|done].
  apply select_None. intros c Hc Hin. specialize (Hdisj c Hc). set_solver.
Qed.

Lemma played_match_is_not_selectable_witness :
  generate_round_configuration_from_match ("p_1", "p_4")
    (run [FirstRound] (restored four_players four_players [])).2
  = (Return None, (run [FirstRound] (restored four_players four_players [])).2).
Proof.
  apply (played_match_is_not_selectable id four_players).
  - exact id_shuffle.
  - exact four_players_nodup.
  - exists 2. reflexivity.
  - exact four_players_numbers.
  - exact four_players_built.
  - vm_compute. reflexivity.
Defined.

(** ** Inconsistent histories *)

Lemma filter_ne_length (l : list (gset (string * string))) c :
  NoDup l → c ∈ l → length l = S (length (filter (λ c', c' ≠ c) l)).
Proof.
  intros Hnd (l1 & l2 & ->)%list_elem_of_split.
  apply NoDup_app in Hnd as (_ & Hnot & Hnd2).
  apply NoDup_cons in Hnd2 as [Hc2 _].
  rewrite filter_app, filter_cons_False by (intros Hcc; by apply Hcc).
  rewrite !filter_all.
  - rewrite !length_app. simpl. lia.
  - intros x Hx ->. done.
  - intros x Hx ->. apply (Hnot c Hx). left.
Qed.

(** X11.  A history that holds one match of a configuration, and not the
    others, makes [instantiate_pairing] drop the whole configuration: for
    an even arrangement of distinct numbered players, restoring with the
    single played match [mt] leaves the schedule without the configuration
    of [mt], that is [N − 2] configurations, and any other match [mt'] of
    that configuration is then neither in the memory nor in any remaining
    configuration, so that no selection can ever return it. *)
Theorem partial_history_drops_configuration
    (shuffle : list string → list string) (roster a : list string)
    (c : gset (string * string)) (mt mt' : string * string) :
  NoDup a → Nat.Even (length a) → (∀ x, x ∈ a → has_number x) →
  c ∈ schedule a → mt ∈ c → mt' ∈ c → mt' ≠ mt →
  ∃ e, instantiate_pairing shuffle roster a [mt] = Return e ∧
       possibles_configurations e = filter (λ c', c' ≠ c) (schedule a) ∧
       S (length (possibles_configurations e)) = length a - 1 ∧
       mt' ∉ played_matches e ∧
       (∀ c', c' ∈ possibles_configurations e → mt' ∉ c') ∧
       generate_round_configuration_from_match mt' e = (Return None, e).
Proof.
  intros Hnd Heven Hnum Hc Hmt Hmt' Hne.
  pose proof (schedule_pairwise_disjoint a Hnd Heven) as Hpd.
  assert (filter (λ c', c' ∩ list_to_set [mt] = ∅) (schedule a)
          = filter (λ c', c' ≠ c) (schedule a)) as Hfilter.
  { apply filter_ext_elem. intros c' Hc'. split.
    - intros Hcap ->. set_solver.
    - intros Hcc. pose proof (pairwise_disjoint_elem _ _ _ Hpd Hc' Hc Hcc).
      set_solver. }
  assert (∀ c', c' ∈ filter (λ c', c' ≠ c) (schedule a) → mt' ∉ c') as Hout.
  { intros c' [Hcc Hc']%list_elem_of_filter Hin.
    pose proof (pairwise_disjoint_elem _ _ _ Hpd Hc' Hc Hcc). set_solver. }
  exists (restored roster a [mt]). split_and!.
  - by apply instantiate_pairing_numbers.
  - done.
  - unfold restored. cbn [possibles_configurations]. rewrite Hfilter.
    rewrite <- (filter_ne_length (schedule a) c);
      [apply schedule_length|by apply schedule_nodup|done].
  - simpl. set_solver.
  - unfold restored. cbn [possibles_configurations]. by rewrite Hfilter.
  - rewrite generate_round_configuration_from_match_select.
    assert (select mt' (possibles_configurations (restored roster a [mt]))
            = None) as ->; [|done].
    apply select_None. unfold restored. cbn [possibles_configurations].
    by rewrite Hfilter.
Qed.

Lemma partial_history_drops_configuration_witness :
  ∃ e, instantiate_pairing id four_players four_players [("p_1", "p_3")]
       = Return e ∧
       generate_round_configuration_from_match ("p_2", "p_4") e
       = (Return None, e).
Proof.
  destruct (partial_history_drops_configuration id four_players four_players
              c13_24 ("p_1", "p_3") ("p_2", "p_4"))
    as (e & Hinst & _ & _ & _ & _ & Hnone).
  - exact four_players_nodup.
  - exists 2. reflexivity.
  - exact four_players_numbers.
  - apply (bool_decide_unpack _). vm_compute. exact I.
  - apply (bool_decide_unpack _). vm_compute. exact I.
  - apply (bool_decide_unpack _). vm_compute. exact I.
  - discriminate.
  - exists e. split; [exact Hinst|exact Hnone].
Defined.

(** ** Ranking-weighted selection never stalls *)

Lemma ordered_pairs_distinct l u v :
  NoDup l → (u, v) ∈ ordered_pairs l → u ≠ v.
Proof.
  induction l as [|x l IH]; simpl; [by intros _ ?%elem_of_nil|].
  intros [Hx Hnd]%NoDup_cons.
  rewrite elem_of_app, list_elem_of_fmap.
  intros [(y & [= -> ->] & Hy)|Hin]; [by intros ->|by apply IH].
Qed.

Lemma ordered_pairs_total l x y :
  x ∈ l → y ∈ l → x ≠ y → (x, y) ∈ ordered_pairs l ∨ (y, x) ∈ ordered_pairs l.
Proof.
  induction l as [|z l IH]; simpl; [by intros ?%elem_of_nil|].
  rewrite !elem_of_cons, !elem_of_app, !list_elem_of_fmap.
  intros [->|Hx] [->|Hy] Hne; [done| | |].
  - left. left. eauto.
  - right. left. eauto.
  - destruct (IH Hx Hy Hne); [left|right]; by right.
Qed.

Lemma rank_players_fst d :
  NoDup d.*1 → rank_players d <$> d.*1 = d.*2.
Proof.
  induction d as [|[k ps] d IH]; [done|].
  rewrite !fmap_cons. cbn [fst snd].
  intros [Hk Hnd]%NoDup_cons. f_equal.
  - unfold rank_players. cbn [Py.dict_get]. by rewrite decide_True.
  - rewrite <- IH by done. apply list_fmap_ext. intros i k' Hk'.
    unfold rank_players. cbn [Py.dict_get].
    rewrite decide_False; [done|].
    intros ->. apply Hk. by eapply list_elem_of_lookup_2.
Qed.

Section progress.
Variables (roster a : list string).
Hypothesis a_nodup : NoDup a.
Hypothesis a_even : Nat.Even (length a).
Hypothesis a_numbers : ∀ x, x ∈ a → has_number x.
Hypothesis a_distinct_numbers :
  ∀ x y, x ∈ a → y ∈ a → get_player_number x = get_player_number y → x = y.

Lemma canon_in_schedule u v :
  u ∈ a → v ∈ a → u ≠ v → ∃ c, c ∈ schedule a ∧ canon u v ∈ c.
Proof.
  intros Hu Hv Hne.
  assert (2 ≤ length a) as Hlen.
  { destruct a as [|x [|y l]]; simpl; [| |lia].
    - by apply elem_of_nil in Hu.
    - apply list_elem_of_singleton in Hu, Hv. congruence. }
  destruct (even_length_half a a_even Hlen) as (m & Hm & Hm1).
  destruct (schedule_meets_exists a m a_nodup Hm Hm1 u v Hu Hv Hne)
    as (k & c & Hk & Hmeet).
  assert (c ∈ schedule a) as Hc by (by eapply list_elem_of_lookup_2).
  exists c. split; [done|].
  destruct (schedule_perfect_matching a m a_nodup Hm Hm1 c Hc) as [Hcanon _].
  assert (num u ≠ num v) as Hnum.
  { intros Heq. apply Hne, a_distinct_numbers; [done|done|].
    rewrite (has_number_num u), (has_number_num v) by (by apply a_numbers).
    by rewrite Heq. }
  unfold canon. destruct Hmeet as [Hin|Hin];
    destruct (Hcanon _ Hin) as (_ & _ & _ & Hle); simpl in Hle;
    destruct (Z.leb_spec (num u) (num v)); first [done|lia].
Qed.

Lemma tracked_unplayed S s c t :
  tracked roster a S s → c ∈ possibles_configurations s → t ∈ c →
  t ∉ played_matches s.
Proof.
  intros (_ & _ & HS & Hpl & Hposs) Hc Ht.
  rewrite Hposs in Hc. apply list_elem_of_filter in Hc as [HcS Hc].
  rewrite Hpl, elem_of_union_list. intros (c' & Hc' & Ht').
  assert (c' ## c); [|set_solver].
  apply (pairwise_disjoint_elem (schedule a));
    [by apply schedule_pairwise_disjoint|by apply HS|done|by intros ->].
Qed.

Lemma stage_success S s pool mt :
  tracked roster a S s → NoDup pool → (∀ p, p ∈ pool → p ∈ a) →
  spec_scan (played_matches s) pool = Some mt →
  ∃ c rest, select mt (possibles_configurations s) = Some (c, rest).
Proof.
  intros Htr Hnd Hpool Hscan. pose proof Htr as (_ & _ & HS & Hpl & Hposs).
  apply head_Some_elem_of, list_elem_of_filter in Hscan as [Hunplayed Hin].
  apply list_elem_of_fmap in Hin as ([u v] & -> & Huv). simpl in *.
  pose proof (ordered_pairs_distinct _ _ _ Hnd Huv) as Hne.
  apply ordered_pairs_elem in Huv as [Hu Hv].
  destruct (canon_in_schedule u v) as (c & Hc & Hin); [by apply Hpool..|done|].
  destruct (select (canon u v) (possibles_configurations s))
    as [[c' rest]|] eqn:Hsel; [eauto|].
  exfalso. apply (proj1 (select_None _ _) Hsel c); [|done].
  rewrite Hposs. apply list_elem_of_filter. split; [|done].
  intros HcS. apply Hunplayed. rewrite Hpl. apply elem_of_union_list. eauto.
Qed.

Lemma spec_ranking_none S s groups pool :
  tracked roster a S s →
  NoDup (pool ++ mjoin groups) → (∀ p, p ∈ pool ++ mjoin groups → p ∈ a) →
  spec_scan (played_matches s) pool = None →
  (spec_ranking groups pool s).1 = None →
  spec_scan (played_matches s) (pool ++ mjoin groups) = None.
Proof.
  intros Htr. revert pool.
  induction groups as [|g groups IH]; intros pool Hnd Hin Hscan Hnone.
  - simpl. by rewrite app_nil_r.
  - cbn [mjoin list_join] in *. rewrite app_assoc in *.
    cbn [spec_ranking] in Hnone.
    destruct (spec_scan (played_matches s) (pool ++ g)) as [mt|] eqn:Hstage.
    + destruct (stage_success S s (pool ++ g) mt Htr) as (c & rest & Hsel);
        [by apply NoDup_app in Hnd as (? & _)| |done|].
      { intros p Hp. apply Hin. set_solver. }
      rewrite spec_select_select, Hsel in Hnone.
      done.
    + by apply IH.
Qed.

Lemma full_scan_finds S s pool :
  tracked roster a S s → (∀ x, x ∈ a → x ∈ pool) →
  possibles_configurations s ≠ [] →
  spec_scan (played_matches s) pool ≠ None.
Proof.
  intros Htr Hcover Hne Hscan.
  destruct (possibles_configurations s) as [|c l] eqn:Hl; [done|].
  assert (c ∈ possibles_configurations s) as Hc by (rewrite Hl; left).
  pose proof Htr as (_ & _ & HS & Hpl & Hposs).
  assert (c ∈ schedule a) as Hcs.
  { pose proof Hc as Hc'. rewrite Hposs in Hc'.
    by apply list_elem_of_filter in Hc' as [_ ?]. }
  destruct (set_choose_L c) as [[x y] Ht];
    [by apply (schedule_elem_nonempty a)|].
  assert (2 ≤ length a) as Hlen.
  { destruct (decide (2 ≤ length a)); [done|].
    rewrite schedule_small in Hcs by lia. by apply elem_of_nil in Hcs. }
  destruct (even_length_half a a_even Hlen) as (m & Hm & Hm1).
  destruct (schedule_perfect_matching a m a_nodup Hm Hm1 c Hcs) as [Hcanon _].
  destruct (Hcanon _ Ht) as (Hx & Hy & Hxy & Hle). simpl in *.
  assert (num x ≠ num y) as Hnum.
  { intros Heq. apply Hxy, a_distinct_numbers; [done|done|].
    rewrite (has_number_num x), (has_number_num y) by (by apply a_numbers).
    by rewrite Heq. }
  assert ((x, y) ∈ filter (λ mt, mt ∉ played_matches s)
                     ((λ p, canon p.1 p.2) <$> ordered_pairs pool)) as Hin.
  { apply list_elem_of_filter. split; [by apply (tracked_unplayed S s c)|].
    apply list_elem_of_fmap.
    destruct (ordered_pairs_total pool x y) as [Hp|Hp];
      [by apply Hcover..|done| |].
    - exists (x, y). split; [|done]. unfold canon. simpl.
      destruct (Z.leb_spec (num x) (num y)); [done|lia].
    - exists (y, x). split; [|done]. unfold canon. simpl.
      destruct (Z.leb_spec (num y) (num x)); [lia|done]. }
  unfold spec_scan in Hscan. apply head_None in Hscan.
  rewrite Hscan in Hin. by apply elem_of_nil in Hin.
Qed.

End progress.

(** X12.  Ranking-weighted selection never stalls before the schedule is
    used up.  Take a fresh engine of an even roster of distinct players
    whose numbers are pairwise different, any sequence of calls on it, and
    a ranking with distinct numeric keys whose groups list every player of
    the roster once.  Then [generate_next_round_from_ranking] returns one
    of the remaining configurations as long as one remains, and returns
    [None], changing nothing, once none remains. *)
Theorem ranking_progress (shuffle : list string → list string)
    (roster : list string) (e : Pairing) (calls : list call)
    (dict_ranking : list (string * list string)) :
  (∀ l, shuffle l ≡ₚ l) →
  NoDup roster → Nat.Even (length roster) →
  (∀ x, x ∈ roster → has_number x) →
  (∀ x y, x ∈ roster → y ∈ roster →
          get_player_number x = get_player_number y → x = y) →
  __init__ shuffle roster true = Return e →
  NoDup dict_ranking.*1 →
  (∀ k, k ∈ dict_ranking.*1 → is_Some (Py.int k)) →
  mjoin dict_ranking.*2 ≡ₚ roster →
  (possibles_configurations (run calls e).2 ≠ [] →
   ∃ c s', generate_next_round_from_ranking dict_ranking (run calls e).2
           = (Return (Some c), s') ∧
           c ∈ possibles_configurations (run calls e).2) ∧
  (possibles_configurations (run calls e).2 = [] →
   generate_next_round_from_ranking dict_ranking (run calls e).2
   = (Return None, (run calls e).2)).
Proof.
  intros Hshuffle Hnd Heven Hnum Hdistinct Hinit Hkeys_nodup Hkeys Hcover.
  remember (shuffle roster) as a eqn:Hadef.
  assert (a ≡ₚ roster) as Ha by (subst a; apply Hshuffle).
  assert (NoDup a) as Hnda by (by rewrite Ha).
  assert (Nat.Even (length a)) as Hevena by (by rewrite Ha).
  assert (∀ x, x ∈ a → has_number x) as Hnuma.
  { intros x Hx. apply Hnum. by rewrite <- Ha. }
  assert (∀ x y, x ∈ a → y ∈ a →
                 get_player_number x = get_player_number y → x = y) as Hda.
  { intros x y Hx Hy. apply Hdistinct; by rewrite <- Ha. }
  rewrite init_numbers in Hinit by (by rewrite <- Hadef).
  rewrite <- Hadef in Hinit. injection Hinit as <-.
  assert (tracked roster a [] (restored roster a [])) as Htr0.
  { apply restored_tracked; [done|done| |done]. by intros c ?%elem_of_nil. }
  destruct (run_tracked roster a (schedule_nodup a Hnda Hevena) calls []
              (restored roster a []) _ _ Htr0 (surjective_pairing _))
    as (S & Htr & _).
  set (s := (run calls (restored roster a [])).2) in *.
  destruct (sorted_keys dict_ranking.*1 Hkeys) as (keys & Hsorted & Hperm & _).
  assert (mjoin (rank_players dict_ranking <$> keys) ≡ₚ a) as Hgroups.
  { rewrite Hperm, rank_players_fst by done. by rewrite Hcover, Ha. }
  assert (generate_next_round_from_ranking dict_ranking s =
          (Return (spec_ranking (rank_players dict_ranking <$> keys) [] s).1,
           (spec_ranking (rank_players dict_ranking <$> keys) [] s).2))
    as Hrun.
  { rewrite generate_next_round_from_ranking_stages, Hsorted.
    apply ranking_stages_spec; [| |by intros p ?%elem_of_nil].
    - intros k Hk. by rewrite <- Hperm.
    - intros k ps p Hin Hp. apply Hnum. rewrite <- Hcover.
      apply list_elem_of_join. exists ps. split; [done|].
      apply list_elem_of_fmap. by exists (k, ps). }
  split.
  - intros Hne.
    destruct (spec_ranking (rank_players dict_ranking <$> keys) [] s).1
      as [c|] eqn:Hres.
    + exists c, (spec_ranking (rank_players dict_ranking <$> keys) [] s).2.
      split; [done|].
      pose proof (do_call_step (FromRanking dict_ranking) s _ _ Hrun) as Hstep.
      cbn [returned] in Hstep. destruct Hstep as (l1 & l2 & Hl & _).
      rewrite Hl. set_solver.
    + exfalso.
      apply (full_scan_finds roster a Hnda Hevena Hnuma Hda S s
               ([] ++ mjoin (rank_players dict_ranking <$> keys)) Htr);
        [|done|].
      * intros x Hx. simpl. by rewrite Hgroups.
      * apply (spec_ranking_none roster a Hnda Hevena Hnuma Hda S s);
          [done| | |done|done].
        -- simpl. by rewrite Hgroups.
        -- intros p Hp. simpl in Hp. by rewrite Hgroups in Hp.
  - intros Hempty.
    destruct (exhausted_no_configuration (FromRanking dict_ranking) s _ _
                Hempty Hrun) as [Hret Hs].
    rewrite Hrun. simpl in Hret.
    destruct (spec_ranking (rank_players dict_ranking <$> keys) [] s).1;
      [done|]. by rewrite Hs.
Qed.

Lemma four_players_distinct_numbers x y :
  x ∈ four_players → y ∈ four_players →
  get_player_number x = get_player_number y → x = y.
Proof.
  unfold four_players. rewrite !elem_of_cons, !elem_of_nil.
  intros [->|[->|[->|[->|[]]]]] [->|[->|[->|[->|[]]]]] Heq;
    try reflexivity; vm_compute in Heq; discriminate Heq.
Qed.

Lemma ranking_progress_witness :
  ∃ c s',
    generate_next_round_from_ranking four_ranking
      (run [FirstRound] (restored four_players four_players [])).2
    = (Return (Some c), s').
Proof.
  destruct (ranking_progress id four_players
              (restored four_players four_players []) [FirstRound] four_ranking)
    as [Hsome _].
  - exact id_shuffle.
  - exact four_players_nodup.
  - exists 2. reflexivity.
  - exact four_players_numbers.
  - exact four_players_distinct_numbers.
  - apply init_numbers. exact four_players_numbers.
  - apply (bool_decide_unpack _). vm_compute. exact I.
  - exact four_ranking_keys.
  - apply (bool_decide_unpack _). vm_compute. exact I.
  - destruct Hsome as (c & s' & Hrun & _).
    + intros Hnil. apply (f_equal length) in Hnil.
      vm_compute in Hnil. discriminate Hnil.
    + exists c, s'. exact Hrun.
Defined.

(** ** The shape of the identifiers *)

Lemma split_no_sep sep s :
  sep ∉ list_ascii_of_string s → Py.split sep s = [s].
Proof.
  induction s as [|c s IH]; simpl; [done|].
  intros Hnot. rewrite decide_False by (intros ->; apply Hnot; left).
  rewrite IH; [done|]. intros Hin. apply Hnot. by right.
Qed.

Lemma split_sep sep p rest :
  sep ∉ list_ascii_of_string p →
  Py.split sep (p +:+ String sep rest) = p :: Py.split sep rest.
Proof.
  induction p as [|c p IH]; simpl.
  - intros _. by rewrite decide_True.
  - intros Hnot. rewrite decide_False by (intros ->; apply Hnot; left).
    rewrite IH; [done|]. intros Hin. apply Hnot. by right.
Qed.

Lemma split_nonempty sep s : ∃ h t, Py.split sep s = h :: t.
Proof.
  induction s as [|c s (h & t & IH)]; simpl; [eauto|].
  case_decide; [eauto|]. rewrite IH. eauto.
Qed.

Lemma get_player_number_field (prefix field : string) :
  "_"%char ∉ list_ascii_of_string prefix →
  "_"%char ∉ list_ascii_of_string field →
  get_player_number (prefix +:+ "_" +:+ field) = int_key field.
Proof.
  intros Hp Hf. unfold get_player_number, int_key.
  change ("_" +:+ field) with (String "_" field).
  rewrite split_sep by done. by rewrite (split_no_sep _ field) by done.
Qed.

(** X13.  Only the second field of an identifier counts.  For a prefix and
    a field without ['_'], the identifier [prefix_field] has the number
    [int(field)], or fails as [int(field)] does, and so does any identifier
    [prefix_field_rest]: two distinct identifiers can carry the same
    number.  An identifier without ['_'] raises [IndexError]. *)
Theorem get_player_number_second_field (prefix field rest : string) :
  "_"%char ∉ list_ascii_of_string prefix →
  "_"%char ∉ list_ascii_of_string field →
  get_player_number (prefix +:+ "_" +:+ field) = int_key field ∧
  get_player_number (prefix +:+ "_" +:+ field +:+ "_" +:+ rest)
    = int_key field ∧
  get_player_number prefix = Raise IndexError.
Proof.
  intros Hp Hf. unfold get_player_number, int_key.
  change ("_" +:+ field) with (String "_" field).
  change ("_" +:+ field +:+ "_" +:+ rest)
    with (String "_" (field +:+ String "_" rest)).
  rewrite !split_sep by done.
  rewrite (split_no_sep _ field), (split_no_sep _ prefix) by done.
  destruct (split_nonempty "_" rest) as (h & t & ->).
  split_and!; reflexivity.
Qed.

Lemma get_player_number_second_field_witness :
  get_player_number ("p" +:+ "_" +:+ "12" +:+ "_" +:+ "bis") = int_key "12".
Proof.
  destruct (get_player_number_second_field "p" "12" "bis") as (_ & H & _).
  - apply (bool_decide_unpack _). vm_compute. exact I.
  - apply (bool_decide_unpack _). vm_compute. exact I.
  - exact H.
Defined.

Lemma dec_digit_cases c :
  dec_digit c →
  c ∈ ["0"; "1"; "2"; "3"; "4"; "5"; "6"; "7"; "8"; "9"]%char.
Proof.
  intros (d & Hd & ->).
  assert (d = 0 ∨ d = 1 ∨ d = 2 ∨ d = 3 ∨ d = 4 ∨ d = 5 ∨ d = 6 ∨ d = 7
          ∨ d = 8 ∨ d = 9)%N as Hcases by lia.
  repeat (destruct Hcases as [->|Hcases]; [set_solver|]). subst. set_solver.
Qed.

Lemma digit_val_pretty d :
  (d < 10)%N → Py.digit_val (pretty_N_char d) = Some (Z.of_N d).
Proof.
  intros Hd.
  assert (d = 0 ∨ d = 1 ∨ d = 2 ∨ d = 3 ∨ d = 4 ∨ d = 5 ∨ d = 6 ∨ d = 7
          ∨ d = 8 ∨ d = 9)%N as Hcases by lia.
  repeat (destruct Hcases as [->|Hcases]; [reflexivity|]). by subst.
Qed.

Lemma pretty_N_go_chars x s :
  list_ascii_of_string (pretty_N_go x s)
  = list_ascii_of_string (pretty_N_go x "") ++ list_ascii_of_string s.
Proof.
  revert s. induction (N.lt_wf_0 x) as [x _ IH]; intros s.
  destruct (decide (x = 0)%N) as [->|Hx]; [by rewrite !pretty_N_go_0|].
  rewrite !(pretty_N_go_step x) by lia.
  rewrite (IH (x `div` 10)%N) by (apply N.div_lt; lia).
  rewrite (IH (x `div` 10)%N ltac:(apply N.div_lt; lia) (String _ "")).
  simpl. by rewrite <- app_assoc.
Qed.

Lemma pretty_N_go_digits x :
  Forall dec_digit (list_ascii_of_string (pretty_N_go x "")) ∧
  ∀ rest b,
    Py.digits (list_ascii_of_string (pretty_N_go x "") ++ rest) 0 b
    = Py.digits rest (Z.of_N x) (b || (0 <? x)%N).
Proof.
  induction (N.lt_wf_0 x) as [x _ IH].
  destruct (decide (x = 0)%N) as [->|Hx].
  { rewrite pretty_N_go_0. split; [constructor|]. intros rest b. simpl.
    by rewrite orb_false_r. }
  destruct (IH (x `div` 10)%N) as [Hall Hval]; [apply N.div_lt; lia|].
  rewrite pretty_N_go_step, pretty_N_go_chars by lia. simpl. split.
  - apply Forall_app. split; [done|]. constructor; [|constructor].
    exists (x `mod` 10)%N. split; [|done]. apply N.mod_lt. lia.
  - intros rest b. rewrite <- app_assoc. simpl. rewrite Hval. simpl.
    rewrite digit_val_pretty by (apply N.mod_lt; lia).
    destruct (N.ltb_spec 0 x); [|lia]. rewrite orb_true_r.
    f_equal. pose proof (N.div_mod x 10). lia.
Qed.

Lemma strip_digits l : Forall dec_digit l → Py.strip l = l.
Proof.
  intros Hall.
  assert (∀ l', Forall dec_digit l' → Py.lstrip l' = l') as Hl.
  { intros [|c l'] Hl'; [done|]. simpl.
    apply Forall_cons in Hl' as [Hc _]. apply dec_digit_cases in Hc.
    repeat (apply elem_of_cons in Hc as [->|Hc]; [reflexivity|]).
    by apply elem_of_nil in Hc. }
  unfold Py.strip. rewrite (Hl l Hall).
  rewrite Hl by (by apply Forall_reverse). by rewrite reverse_involutive.
Qed.

Lemma digit_val_dec_digit c : dec_digit c → is_Some (Py.digit_val c).
Proof. intros (d & Hd & ->). rewrite digit_val_pretty by done. by eexists. Qed.

Lemma count_digits_all l : Forall dec_digit l → Py.count_digits l = length l.
Proof.
  unfold Py.count_digits. induction 1 as [|c l Hc _ IH]; [done|].
  rewrite filter_cons_True by (by apply digit_val_dec_digit).
  simpl. by rewrite IH.
Qed.

Lemma pretty_N_go_length_le k n :
  (n < 10 ^ N.of_nat k)%N →
  length (list_ascii_of_string (pretty_N_go n "")) ≤ k.
Proof.
  revert n. induction k as [|k IH]; intros n Hn.
  - assert (n = 0%N) as -> by (simpl in Hn; lia). by rewrite pretty_N_go_0.
  - destruct (decide (n = 0)%N) as [->|Hn0].
    { rewrite pretty_N_go_0. simpl. lia. }
    rewrite pretty_N_go_step, pretty_N_go_chars by lia.
    rewrite length_app. simpl.
    rewrite Nat2N.inj_succ, N.pow_succ_r' in Hn.
    specialize (IH (n `div` 10)%N). 
    assert (n `div` 10 < 10 ^ N.of_nat k)%N
      by (apply N.div_lt_upper_bound; lia).
    lia.
Qed.

Lemma pretty_N_go_length_gt k n :
  (10 ^ N.of_nat k ≤ n)%N →
  k < length (list_ascii_of_string (pretty_N_go n "")).
Proof.
  revert n. induction k as [|k IH]; intros n Hn.
  - rewrite pretty_N_go_step, pretty_N_go_chars by (simpl in Hn; lia).
    rewrite length_app. simpl. lia.
  - rewrite Nat2N.inj_succ, N.pow_succ_r' in Hn.
    assert (0 < 10 ^ N.of_nat k)%N by (apply N.neq_0_lt_0, N.pow_nonzero; lia).
    rewrite pretty_N_go_step, pretty_N_go_chars by lia.
    rewrite length_app. simpl.
    specialize (IH (n `div` 10)%N).
    assert (10 ^ N.of_nat k ≤ n `div` 10)%N
      by (apply N.div_le_lower_bound; lia).
    lia.
Qed.

Lemma pretty_chars_digits (n : N) :
  let l := list_ascii_of_string (pretty n) in
  Forall dec_digit l ∧ Py.digits l 0 false = Some (Z.of_N n) ∧
  Py.strip l = l ∧
  (∀ k, (n < 10 ^ N.of_nat k)%N → 1 ≤ k → length l ≤ k) ∧
  (∀ k, (10 ^ N.of_nat k ≤ n)%N → k < length l).
Proof.
  unfold pretty, pretty_N. case_decide as Hn.
  { subst n. simpl. split_and!; [|done|done|done|].
    - repeat constructor. by exists 0%N.
    - intros k Hk.
      assert (0 < 10 ^ N.of_nat k)%N
        by (apply N.neq_0_lt_0, N.pow_nonzero; lia).
      lia. }
  destruct (pretty_N_go_digits n) as [Hall Hval].
  split_and!; [done| |by apply strip_digits| |].
  - specialize (Hval [] false). rewrite app_nil_r in Hval. rewrite Hval.
    simpl. destruct (N.ltb_spec 0 n); [done|lia].
  - intros k Hk _. by apply pretty_N_go_length_le.
  - intros k Hk. by apply pretty_N_go_length_gt.
Qed.

Lemma int_digits l :
  Forall dec_digit l → Py.strip l = l →
  Py.int (string_of_list_ascii l) = Py.number l.
Proof.
  intros Hall Hstrip. unfold Py.int.
  rewrite list_ascii_of_string_of_list_ascii, Hstrip.
  destruct l as [|c l]; [done|].
  apply Forall_cons in Hall as [Hc _]. apply dec_digit_cases in Hc.
  repeat (apply elem_of_cons in Hc as [->|Hc]; [reflexivity|]).
  by apply elem_of_nil in Hc.
Qed.

Lemma int_pretty (n : N) :
  ((n < 10 ^ 4300)%N → Py.int (pretty n) = Some (Z.of_N n)) ∧
  ((10 ^ 4300 ≤ n)%N → Py.int (pretty n) = None).
Proof.
  change 4300%N with (N.of_nat Py.int_max_str_digits).
  destruct (pretty_chars_digits n) as (Hall & Hval & Hstrip & Hle & Hgt).
  assert (Py.int (pretty n) = Py.number (list_ascii_of_string (pretty n)))
    as ->.
  { rewrite <- (string_of_list_ascii_of_string (pretty n)) at 1.
    by apply int_digits. }
  unfold Py.number. rewrite count_digits_all by done. split; intros Hn.
  - specialize (Hle _ Hn).
    destruct (Nat.leb_spec (length (list_ascii_of_string (pretty n)))
                Py.int_max_str_digits) as [_|Hlt]; [done|].
    assert (1 ≤ Py.int_max_str_digits)
      by (unfold Py.int_max_str_digits; apply Nat.lt_0_succ). lia.
  - specialize (Hgt _ Hn).
    destruct (Nat.leb_spec (length (list_ascii_of_string (pretty n)))
                Py.int_max_str_digits) as [Hle'|_]; [lia|done].
Qed.

Lemma pretty_N_no_underscore (n : N) :
  "_"%char ∉ list_ascii_of_string (pretty n).
Proof.
  destruct (pretty_chars_digits n) as (Hall & _).
  intros Hin. rewrite Forall_forall in Hall.
  apply Hall, dec_digit_cases in Hin. set_solver.
Qed.

(** X14.  Identifiers of the documented shape are players, up to the limit
    that [int] puts on the number of digits: for every prefix without ['_']
    and every natural number [n] below [10 ^ 4300], the identifier made of
    the prefix, ['_'] and the decimal writing of [n] has the player number
    [n]; from [10 ^ 4300] on, the decimal writing has more than 4300
    digits and [get_player_number] raises [ValueError]. *)
Theorem get_player_number_decimal (prefix : string) (n : N) :
  "_"%char ∉ list_ascii_of_string prefix →
  ((n < 10 ^ 4300)%N →
   get_player_number (prefix +:+ "_" +:+ pretty n) = Return (Z.of_N n)) ∧
  ((10 ^ 4300 ≤ n)%N →
   get_player_number (prefix +:+ "_" +:+ pretty n) = Raise ValueError).
Proof.
  intros Hp.
  rewrite (get_player_number_field prefix (pretty n) Hp
             (pretty_N_no_underscore n)).
  unfold int_key. destruct (int_pretty n) as [Hsmall Hlarge].
  split; intros Hn; [by rewrite Hsmall|by rewrite Hlarge].
Qed.

Lemma get_player_number_decimal_witness :
  get_player_number ("p" +:+ "_" +:+ pretty 2024%N) = Return 2024%Z ∧
  get_player_number ("p" +:+ "_" +:+ pretty (10 ^ 4300)%N) = Raise ValueError.
Proof.
  split.
  - apply (get_player_number_decimal "p" 2024).
    + apply (bool_decide_unpack _). vm_compute. exact I.
    + apply (N.lt_le_trans _ (10 ^ 4)); [reflexivity|].
      apply N.pow_le_mono_r; lia.
  - apply (get_player_number_decimal "p" (10 ^ 4300)).
    + apply (bool_decide_unpack _). vm_compute. exact I.
    + apply N.le_refl.
Defined.

(** * Properties of the form controller *)

Lemma chars_app s1 s2 :
  list_ascii_of_string (s1 +:+ s2)
  = list_ascii_of_string s1 ++ list_ascii_of_string s2.
Proof. induction s1 as [|c s1 IH]; simpl; [done|]. by rewrite IH. Qed.

Lemma string_length_chars s :
  String.length s = length (list_ascii_of_string s).
Proof. induction s as [|c s IH]; simpl; [done|]. by rewrite IH. Qed.

Lemma string_length_app s1 s2 :
  String.length (s1 +:+ s2) = String.length s1 + String.length s2.
Proof. by rewrite !string_length_chars, chars_app, length_app. Qed.

Lemma findall_go_digits cur g rest :
  Forall (λ c, is_digit c = true) g →
  findall_digits_go cur (g ++ rest) = findall_digits_go (reverse g ++ cur) rest.
Proof.
  revert cur. induction g as [|c g IH]; intros cur Hg; [done|].
  apply Forall_cons in Hg as [Hc Hg]. simpl. rewrite Hc, IH by done.
  by rewrite reverse_cons, <- app_assoc.
Qed.

Lemma findall_go_sep sep rest :
  Forall (λ c, is_digit c = false) sep →
  findall_digits_go [] (sep ++ rest) = findall_digits_go [] rest.
Proof.
  induction sep as [|c sep IH]; intros Hsep; [done|].
  apply Forall_cons in Hsep as [Hc Hsep]. simpl. by rewrite Hc, IH.
Qed.

Lemma findall_go_run g sep rest :
  g ≠ [] → Forall (λ c, is_digit c = true) g →
  sep ≠ [] → Forall (λ c, is_digit c = false) sep →
  findall_digits_go [] (g ++ sep ++ rest) = g :: findall_digits_go [] rest.
Proof.
  intros Hg Hdig Hsep Hnodig. rewrite findall_go_digits by done.
  rewrite app_nil_r. destruct sep as [|c sep]; [done|].
  apply Forall_cons in Hnodig as [Hc Hnodig]. simpl. rewrite Hc.
  destruct (reverse g) as [|c' g'] eqn:Hrev.
  { apply (f_equal reverse) in Hrev. rewrite reverse_involutive in Hrev.
    by subst. }
  rewrite <- Hrev, reverse_involutive. f_equal. by apply findall_go_sep.
Qed.

Lemma findall_go_last g :
  g ≠ [] → Forall (λ c, is_digit c = true) g →
  findall_digits_go [] g = [g].
Proof.
  intros Hg Hdig. rewrite <- (app_nil_r g) at 1.
  rewrite findall_go_digits by done. rewrite app_nil_r. simpl.
  destruct (reverse g) as [|c' g'] eqn:Hrev.
  { apply (f_equal reverse) in Hrev. rewrite reverse_involutive in Hrev.
    by subst. }
  by rewrite <- Hrev, reverse_involutive.
Qed.

Lemma findall_go_runs cur l :
  Forall (λ c, is_digit c = true) cur →
  Forall (λ g, g ≠ [] ∧ Forall (λ c, is_digit c = true) g)
         (findall_digits_go cur l).
Proof.
  revert cur. induction l as [|c l IH]; intros cur Hcur; simpl.
  - destruct cur as [|c' cur']; [constructor|].
    constructor; [|constructor]. split.
    + intros Hrev. apply (f_equal reverse) in Hrev.
      by rewrite reverse_involutive in Hrev.
    + by apply Forall_reverse.
  - destruct (is_digit c) eqn:Hc; [apply IH; by constructor|].
    destruct cur as [|c' cur']; [by apply IH|].
    constructor; [|by apply IH]. split.
    + intros Hrev. apply (f_equal reverse) in Hrev.
      by rewrite reverse_involutive in Hrev.
    + by apply Forall_reverse.
Qed.

Lemma findall_digits_runs s g :
  g ∈ findall_digits s → g ≠ "" ∧ digits_only g.
Proof.
  unfold findall_digits. intros (l & -> & Hl)%list_elem_of_fmap.
  pose proof (findall_go_runs [] (list_ascii_of_string s) (Forall_nil_2 _))
    as Hruns.
  rewrite Forall_forall in Hruns. destruct (Hruns l Hl) as [Hne Hdig]. split.
  - intros Heq. apply (f_equal list_ascii_of_string) in Heq.
    rewrite list_ascii_of_string_of_list_ascii in Heq. done.
  - unfold digits_only. by rewrite list_ascii_of_string_of_list_ascii.
Qed.

Lemma is_digit_dash : is_digit "-" = false.
Proof. reflexivity. Qed.

Lemma findall_digits_join gs :
  (∀ g, g ∈ gs → g ≠ "" ∧ digits_only g) →
  findall_digits (join "-" gs) = gs.
Proof.
  unfold findall_digits. induction gs as [|g gs IH]; intros Hgs; [done|].
  destruct (Hgs g) as [Hne Hdig]; [left|].
  assert (list_ascii_of_string g ≠ []) as Hne'.
  { intros Heq. apply Hne. by destruct g. }
  destruct gs as [|g' gs].
  - simpl. rewrite findall_go_last by done. simpl.
    by rewrite string_of_list_ascii_of_string.
  - change (join "-" (g :: g' :: gs)) with (g +:+ "-" +:+ join "-" (g' :: gs)).
    rewrite !chars_app.
    rewrite (findall_go_run _ (list_ascii_of_string "-")); [|done|done|done|].
    + rewrite fmap_cons, string_of_list_ascii_of_string. f_equal.
      apply IH. intros g0 Hg0. apply Hgs. by right.
    + repeat constructor.
Qed.

Lemma pad_number_long g : 2 ≤ String.length g → pad_number g = g.
Proof.
  intros Hl. unfold pad_number. destruct (Nat.ltb_spec (String.length g) 2);
    [lia|done].
Qed.

Lemma pad_number_run g :
  g ≠ "" ∧ digits_only g →
  (pad_number g ≠ "" ∧ digits_only (pad_number g)) ∧
  2 ≤ String.length (pad_number g).
Proof.
  intros [Hne Hdig]. unfold pad_number.
  destruct (Nat.ltb_spec (String.length g) 2) as [Hlt|Hge].
  - split; [split|].
    + done.
    + unfold digits_only. simpl. by constructor.
    + destruct g as [|c g]; [done|]. simpl. lia.
  - done.
Qed.

(** X15.  [reformat_date] gives a string made of groups of at least two
    digits joined by ['-'], the groups being the runs of digits of the
    input, each one-digit run with a ['0'] before it; reading that string
    again gives the same groups, and reformatting it changes nothing. *)
Theorem reformat_date_idempotent (date_string : string) :
  (∀ g, g ∈ findall_digits (reformat_date date_string) →
        digits_only g ∧ 2 ≤ String.length g) ∧
  reformat_date date_string
    = join "-" (findall_digits (reformat_date date_string)) ∧
  reformat_date (reformat_date date_string) = reformat_date date_string.
Proof.
  set (gs := pad_number <$> findall_digits date_string).
  assert (∀ g, g ∈ gs → (g ≠ "" ∧ digits_only g) ∧ 2 ≤ String.length g)
    as Hgs.
  { intros g (g0 & -> & Hg0)%list_elem_of_fmap.
    apply pad_number_run. by apply (findall_digits_runs date_string). }
  assert (findall_digits (reformat_date date_string) = gs) as Hread.
  { apply findall_digits_join. intros g Hg. by apply Hgs. }
  split_and!.
  - rewrite Hread. intros g Hg. destruct (Hgs g Hg) as [[_ ?] ?]. done.
  - by rewrite Hread.
  - unfold reformat_date at 1. rewrite Hread. unfold reformat_date.
    fold gs. f_equal. rewrite <- (list_fmap_id gs) at 2.
    apply list_fmap_ext. intros i g Hg. apply pad_number_long.
    apply list_elem_of_lookup_2 in Hg. by destruct (Hgs g Hg).
Qed.

(** X16.  A day, a month and a year written as runs of one or two, one or
    two and four digits, with anything that has no digit between them, are
    reformatted into [DD-MM-YYYY], ten characters long, which is what the
    forms take for a date. *)
Theorem reformat_date_day_month_year (d sep1 m sep2 y : string) :
  digits_only d → digits_only m → digits_only y →
  1 ≤ String.length d ≤ 2 → 1 ≤ String.length m ≤ 2 → String.length y = 4 →
  no_digit sep1 → sep1 ≠ "" → no_digit sep2 → sep2 ≠ "" →
  reformat_date (d +:+ sep1 +:+ m +:+ sep2 +:+ y)
    = pad_number d +:+ "-" +:+ pad_number m +:+ "-" +:+ y ∧
  String.length (reformat_date (d +:+ sep1 +:+ m +:+ sep2 +:+ y)) = 10.
Proof.
  intros Hd Hm Hy Hld Hlm Hly Hs1 Hn1 Hs2 Hn2.
  assert (∀ s, s ≠ "" → list_ascii_of_string s ≠ []) as Hne.
  { intros s Hs Heq. apply Hs. by destruct s. }
  assert (∀ s, 1 ≤ String.length s → s ≠ "") as Hlen.
  { intros s Hs ->. simpl in Hs. lia. }
  assert (findall_digits (d +:+ sep1 +:+ m +:+ sep2 +:+ y) = [d; m; y])
    as Hfind.
  { unfold findall_digits. rewrite !chars_app.
    rewrite findall_go_run; [|apply Hne, Hlen; lia|done|by apply Hne|done].
    rewrite findall_go_run; [|apply Hne, Hlen; lia|done|by apply Hne|done].
    rewrite findall_go_last; [|apply Hne, Hlen; lia|done].
    simpl. by rewrite !string_of_list_ascii_of_string. }
  unfold reformat_date. rewrite Hfind. cbn [fmap list_fmap join].
  rewrite (pad_number_long y) by lia. split; [done|].
  assert (∀ s, 1 ≤ String.length s ≤ 2 → String.length (pad_number s) = 2)
    as Hpad.
  { intros s Hs. unfold pad_number.
    destruct (Nat.ltb_spec (String.length s) 2); [|lia].
    rewrite string_length_app. change (String.length "0") with 1. lia. }
  rewrite !string_length_app, !Hpad, Hly by done. reflexivity.
Qed.

Lemma reformat_date_day_month_year_witness :
  reformat_date ("1" +:+ "/" +:+ "12" +:+ "/" +:+ "1999")
  = pad_number "1" +:+ "-" +:+ pad_number "12" +:+ "-" +:+ "1999".
Proof.
  destruct (reformat_date_day_month_year "1" "/" "12" "/" "1999") as [H _].
  - repeat constructor.
  - repeat constructor.
  - repeat constructor.
  - simpl. lia.
  - simpl. lia.
  - reflexivity.
  - repeat constructor.
  - discriminate.
  - repeat constructor.
  - discriminate.
  - exact H.
Defined.

(** X17.  The length test of the forms is not a test of a date: any run of
    exactly ten digits is left as it is by [reformat_date], and so has the
    ten characters that are asked of a date. *)
Theorem reformat_date_ten_digits (s : string) :
  digits_only s → String.length s = 10 →
  reformat_date s = s ∧ String.length (reformat_date s) = 10.
Proof.
  intros Hs Hl.
  assert (reformat_date s = s) as Heq; [|by rewrite Heq].
  unfold reformat_date, findall_digits.
  rewrite findall_go_last; [|by destruct s|done].
  simpl. rewrite string_of_list_ascii_of_string. apply pad_number_long. lia.
Qed.

Lemma reformat_date_ten_digits_witness :
  reformat_date "0000000000" = "0000000000".
Proof.
  destruct (reformat_date_ten_digits "0000000000") as [H _].
  - repeat constructor.
  - reflexivity.
  - exact H.
Defined.

(** ** The forms *)

Lemma index_lit {A} `{Inhabited A} (l : list A) (i : nat) :
  i < length l → Py.index l (Z.of_nat i) = Return (l !!! i).
Proof. apply index_nat. Qed.

Lemma new_player_outcomes (data : list string) :
  (∃ code, try_to_create_new_player data = Return (Some ("ERROR", code), None) ∧
           code ∈ ["INCOMPLETE"; "CHESS_ID"; "DATE"]) ∨
  (∃ p, try_to_create_new_player data = Return (None, Some p)).
Proof.
  unfold try_to_create_new_player.
  destruct (Nat.eqb_spec (length data) 4) as [Hlen|Hlen]; simpl.
  2:{ left. eexists. split; [done|]. set_solver. }
  change 3%Z with (Z.of_nat 3). change 2%Z with (Z.of_nat 2).
  change 1%Z with (Z.of_nat 1). change 0%Z with (Z.of_nat 0).
  rewrite (index_lit data 3) by lia. simpl.
  destruct (String.length (data !!! 3) =? 7); simpl.
  2:{ left. eexists. split; [done|]. set_solver. }
  rewrite (index_lit data 2) by lia. simpl.
  destruct (String.length (reformat_date (data !!! 2)) =? 10); simpl.
  2:{ left. eexists. split; [done|]. set_solver. }
  rewrite (index_lit data 0), (index_lit data 1) by lia. simpl.
  right. by eexists.
Qed.

Lemma new_tournament_outcomes (data : list string) :
  (∃ e, try_to_create_tournament data = Raise e) ∨
  try_to_create_tournament data = Return (Some ("ERROR", "DATE"), None) ∨
  (∃ t, try_to_create_tournament data = Return (None, Some t)).
Proof.
  unfold try_to_create_tournament, int_key.
  destruct (Py.index data 2) as [s|e]; simpl; [|left; by eexists].
  destruct (String.length (reformat_date s) =? 10); simpl; [|by right; left].
  destruct (Py.index data 3) as [f|e]; simpl; [|left; by eexists].
  destruct (String.length (reformat_date f) =? 10); simpl; [|by right; left].
  destruct (Py.index data 0) as [n|e]; simpl; [|left; by eexists].
  destruct (Py.index data 1) as [pl|e]; simpl; [|left; by eexists].
  destruct (Py.index data 5) as [d|e]; simpl; [|left; by eexists].
  destruct (Py.index data 4) as [r|e]; simpl; [|left; by eexists].
  destruct (Py.int r) as [k|]; simpl; [|left; by eexists].
  right; right. by eexists.
Qed.

(** X18.  In the new-player form no access to a field fails, whatever
    the list of fields.  Its checks are made in the order: four fields, a chess identifier of seven characters, a date of
    birth of ten characters once reformatted; the first that fails gives
    its message through [handle_answer] and nothing is saved.  When all
    pass, the answer is [None], the message is empty, and the player saved
    has the four fields, the date being the reformatted one. *)
Theorem new_player_form (data : list string) :
  ∃ answer saved,
    try_to_create_new_player data = Return (answer, saved) ∧
    (lets_through (handle_answer answer) = true ↔ is_Some saved) ∧
    (length data ≠ 4 →
     handle_answer answer = Some "Form is incomplete" ∧ saved = None) ∧
    (length data = 4 → String.length (data !!! 3) ≠ 7 →
     handle_answer answer = Some "Invalid Chess ID must follow : AA00000" ∧
     saved = None) ∧
    (length data = 4 → String.length (data !!! 3) = 7 →
     String.length (reformat_date (data !!! 2)) ≠ 10 →
     handle_answer answer = Some "Date is invalid" ∧ saved = None) ∧
    (length data = 4 → String.length (data !!! 3) = 7 →
     String.length (reformat_date (data !!! 2)) = 10 →
     handle_answer answer = Some "" ∧
     saved = Some (mkPlayer (data !!! 0) (data !!! 1)
                            (reformat_date (data !!! 2)) (data !!! 3))).
Proof.
  unfold try_to_create_new_player.
  destruct (Nat.eqb_spec (length data) 4) as [Hlen|Hlen]; simpl.
  2:{ eexists _, _. split; [done|]. simpl.
      split_and!; done. }
  change 3%Z with (Z.of_nat 3). change 2%Z with (Z.of_nat 2).
  change 1%Z with (Z.of_nat 1). change 0%Z with (Z.of_nat 0).
  rewrite (index_lit data 3) by lia. simpl.
  destruct (Nat.eqb_spec (String.length (data !!! 3)) 7) as [Hid|Hid]; simpl.
  2:{ eexists _, _. split; [done|]. simpl.
      split_and!; done. }
  rewrite (index_lit data 2) by lia. simpl.
  destruct (Nat.eqb_spec (String.length (reformat_date (data !!! 2))) 10)
    as [Hdate|Hdate]; simpl.
  2:{ eexists _, _. split; [done|]. simpl.
      split_and!; done. }
  rewrite (index_lit data 0), (index_lit data 1) by lia. simpl.
  eexists _, _. split; [done|]. simpl. split_and!; try done.
Qed.

Lemma new_player_form_witness :
  ∃ answer saved,
    try_to_create_new_player ["Ada"; "Lovelace"; "10/12/1815"; "AB12345"]
    = Return (answer, saved) ∧
    handle_answer answer = Some "" ∧
    saved = Some (mkPlayer "Ada" "Lovelace" "10-12-1815" "AB12345").
Proof.
  destruct (new_player_form ["Ada"; "Lovelace"; "10/12/1815"; "AB12345"])
    as (answer & saved & Heq & _ & _ & _ & _ & Hok).
  exists answer, saved. split; [exact Heq|].
  exact (Hok eq_refl eq_refl eq_refl).
Defined.

(** X19.  The new-tournament form has no test of the number of its
    fields.  With fewer than three fields it raises [IndexError]; a start
    date, then an end date, that does not reformat to ten characters gives
    the answer [('ERROR', 'DATE')], even when later fields are missing;
    with both dates accepted, fewer than six fields raise [IndexError], a
    number of rounds that [int] does not parse raises [ValueError], and
    otherwise the tournament saved has the six fields, the dates
    reformatted and the number of rounds as an integer. *)
Theorem new_tournament_form (data : list string) :
  (length data ≤ 2 → try_to_create_tournament data = Raise IndexError) ∧
  (2 < length data → String.length (reformat_date (data !!! 2)) ≠ 10 →
   try_to_create_tournament data = Return (Some ("ERROR", "DATE"), None)) ∧
  (String.length (reformat_date (data !!! 2)) = 10 → length data = 3 →
   try_to_create_tournament data = Raise IndexError) ∧
  (String.length (reformat_date (data !!! 2)) = 10 → 3 < length data →
   String.length (reformat_date (data !!! 3)) ≠ 10 →
   try_to_create_tournament data = Return (Some ("ERROR", "DATE"), None)) ∧
  (String.length (reformat_date (data !!! 2)) = 10 →
   String.length (reformat_date (data !!! 3)) = 10 →
   4 ≤ length data ≤ 5 →
   try_to_create_tournament data = Raise IndexError) ∧
  (String.length (reformat_date (data !!! 2)) = 10 →
   String.length (reformat_date (data !!! 3)) = 10 →
   6 ≤ length data → Py.int (data !!! 4) = None →
   try_to_create_tournament data = Raise ValueError) ∧
  (∀ n, String.length (reformat_date (data !!! 2)) = 10 →
        String.length (reformat_date (data !!! 3)) = 10 →
        6 ≤ length data → Py.int (data !!! 4) = Some n →
        try_to_create_tournament data =
        Return (None,
                Some (mkTournament (data !!! 0) (data !!! 1)
                        (reformat_date (data !!! 2))
                        (reformat_date (data !!! 3)) (data !!! 5) n))).
Proof.
  unfold try_to_create_tournament.
  change 5%Z with (Z.of_nat 5). change 4%Z with (Z.of_nat 4).
  change 3%Z with (Z.of_nat 3). change 2%Z with (Z.of_nat 2).
  change 1%Z with (Z.of_nat 1). change 0%Z with (Z.of_nat 0).
  split_and!.
  - intros Hl. by rewrite (index_nat_ge data 2) by lia.
  - intros Hl Hd. rewrite (index_lit data 2) by lia. simpl.
    by destruct (Nat.eqb_spec (String.length (reformat_date (data !!! 2))) 10).
  - intros Hd Hl. rewrite (index_lit data 2) by lia. simpl.
    rewrite Hd. simpl. by rewrite (index_nat_ge data 3) by lia.
  - intros Hd Hl He. rewrite (index_lit data 2), (index_lit data 3) by lia.
    simpl. rewrite Hd. simpl.
    by destruct (Nat.eqb_spec (String.length (reformat_date (data !!! 3))) 10).
  - intros Hd He Hl. rewrite (index_lit data 2), (index_lit data 3) by lia.
    simpl. rewrite Hd. simpl. rewrite He. simpl.
    rewrite (index_lit data 0), (index_lit data 1) by lia. simpl.
    by rewrite (index_nat_ge data 5) by lia.
  - intros Hd He Hl Hint. rewrite (index_lit data 2), (index_lit data 3) by lia.
    simpl. rewrite Hd. simpl. rewrite He. simpl.
    rewrite (index_lit data 0), (index_lit data 1) by lia. simpl.
    rewrite (index_lit data 5), (index_lit data 4) by lia. simpl.
    unfold int_key. by rewrite Hint.
  - intros n Hd He Hl Hint.
    rewrite (index_lit data 2), (index_lit data 3) by lia.
    simpl. rewrite Hd. simpl. rewrite He. simpl.
    rewrite (index_lit data 0), (index_lit data 1) by lia. simpl.
    rewrite (index_lit data 5), (index_lit data 4) by lia. simpl.
    unfold int_key. by rewrite Hint.
Qed.

Lemma new_tournament_form_witness :
  try_to_create_tournament ["Open"; "Paris"] = Raise IndexError ∧
  try_to_create_tournament ["Open"; "Paris"; "soon"]
  = Return (Some ("ERROR", "DATE"), None) ∧
  try_to_create_tournament ["Open"; "Paris"; "1/2/2024"] = Raise IndexError ∧
  try_to_create_tournament ["Open"; "Paris"; "1/2/2024"; "later"]
  = Return (Some ("ERROR", "DATE"), None) ∧
  try_to_create_tournament ["Open"; "Paris"; "1/2/2024"; "3/2/2024"; "4"]
  = Raise IndexError ∧
  try_to_create_tournament
    ["Open"; "Paris"; "1/2/2024"; "3/2/2024"; "four"; "Rapid"]
  = Raise ValueError ∧
  try_to_create_tournament
    ["Open"; "Paris"; "1/2/2024"; "3/2/2024"; "4"; "Rapid"]
  = Return (None,
            Some (mkTournament "Open" "Paris" "01-02-2024" "03-02-2024"
                               "Rapid" 4)).
Proof.
  split_and!.
  - destruct (new_tournament_form ["Open"; "Paris"]) as (H & _).
    apply H. simpl. lia.
  - destruct (new_tournament_form ["Open"; "Paris"; "soon"]) as (_ & H & _).
    apply H; [simpl; lia|vm_compute; discriminate].
  - destruct (new_tournament_form ["Open"; "Paris"; "1/2/2024"])
      as (_ & _ & H & _).
    apply H; reflexivity.
  - destruct (new_tournament_form ["Open"; "Paris"; "1/2/2024"; "later"])
      as (_ & _ & _ & H & _).
    apply H; [reflexivity|simpl; lia|vm_compute; discriminate].
  - destruct (new_tournament_form
                ["Open"; "Paris"; "1/2/2024"; "3/2/2024"; "4"])
      as (_ & _ & _ & _ & H & _).
    apply H; [reflexivity|reflexivity|simpl; lia].
  - destruct (new_tournament_form
                ["Open"; "Paris"; "1/2/2024"; "3/2/2024"; "four"; "Rapid"])
      as (_ & _ & _ & _ & _ & H & _).
    apply H; [reflexivity|reflexivity|simpl; lia|reflexivity].
  - destruct (new_tournament_form
                ["Open"; "Paris"; "1/2/2024"; "3/2/2024"; "4"; "Rapid"])
      as (_ & _ & _ & _ & _ & _ & H).
    apply (H 4%Z); [reflexivity|reflexivity|simpl; lia|reflexivity].
Defined.

(** X20.  What [start] does with the outcome of a creation: when
    [try_to_create_element] returns, the form is let through exactly when
    an object was saved, or when the element is neither ['NEW_PLAYER'] nor
    ['NEW_TOURNAMENT']; in that last case nothing is saved and the form is
    let through all the same. *)
Theorem form_let_through (element : string) (data : list string)
    (answer : option (string * string)) (object : option saved) :
  try_to_create_element element data = Return (answer, object) →
  (lets_through (handle_answer answer) = true ↔
   is_Some object ∨ (element ≠ "NEW_PLAYER" ∧ element ≠ "NEW_TOURNAMENT")) ∧
  (element ≠ "NEW_PLAYER" → element ≠ "NEW_TOURNAMENT" → object = None).
Proof.
  unfold try_to_create_element.
  destruct (decide (element = "NEW_PLAYER")) as [->|Hp].
  { destruct (new_player_outcomes data) as [(code & -> & Hc)|(p & ->)];
      intros [= <- <-]; (split; [|done]).
    - assert (lets_through (handle_answer (Some ("ERROR", code))) = false)
        as ->.
      { repeat (apply elem_of_cons in Hc as [->|Hc]; [done|]).
        by apply elem_of_nil in Hc. }
      split; [done|]. intros [[? [=]]|[? _]]; done.
    - simpl. split; [intros _; left; by eexists|done]. }
  destruct (decide (element = "NEW_TOURNAMENT")) as [->|Ht].
  { destruct (new_tournament_outcomes data) as [(e & ->)|[->|(t & ->)]];
      intros [= <- <-]; (split; [|done]).
    - simpl. split; [done|]. intros [[? [=]]|[_ ?]]; done.
    - simpl. split; [intros _; left; by eexists|done]. }
  intros [= <- <-]. split; [|done]. simpl. split; [by right|done].
Qed.

Lemma form_let_through_witness :
  lets_through (handle_answer (Some ("ERROR", "CHESS_ID"))) = true ↔
  is_Some (@None saved) ∨
  ("NEW_PLAYER" ≠ "NEW_PLAYER" ∧ "NEW_PLAYER" ≠ "NEW_TOURNAMENT").
Proof.
  apply (form_let_through "NEW_PLAYER" ["Ada"; "Lovelace"; "10/12/1815"; "AB1"]).
  reflexivity.
Defined.
